(** * jl-segtree: an N-dimensional lazy segment tree (ndsegtree.h)

    Shallow embedding of [Cube<n>], [Operation] and [SegmentTree<n>] and
    the properties of the natural-language specification checked against
    them.

    Modelling conventions.
    - The template parameter [n] (number of axes) is a section variable of
      type [nat]; [N = 1 << n] is computed with [Z.shiftl].
    - A C++ [int] is a [Z].  Signed overflow is undefined behaviour in C++,
      so the model describes the executions in which no arithmetic
      overflows; [/] on [int] truncates towards zero and is [Z.quot].
      The module [Int32] gives [Center], [Subdivide], [Volume], [IsEmpty],
      [IsPoint] and [Child] once more with the wrap-around of a 32-bit
      [int] written out, for the properties that depend on it.
    - [std::array<int, n>] is a [list Z] read with [nth i _ 0] for [i < n].
    - [std::vector] is a list read with stdpp's lookup [!!] and written
      with [<[ i := x ]>]; [operator[]] outside the vector is undefined
      behaviour in C++ and is the explicit outcome [OutOfBounds] here.
    - The member functions of [SegmentTree] mutate [tree_] and
      [operations_]; they are computations in a state-and-error monad [M].
    - The recursive member functions take a [fuel] argument that bounds the
      recursion depth; [OutOfFuel] for every amount of fuel is a recursion
      that never returns.
    - [Cube::IsDisjointFrom] compares whole [std::array]s, which C++
      orders lexicographically; it and [Cube::operator&] are not used by
      [SegmentTree].
    - The older one-axis structure of [unnamed/part_000] is embedded with
      the same conventions in the module [OneDim]. *)

From Stdlib Require Import ZArith List Bool Lia.
From stdpp Require Import base list.
Import ListNotations.

Local Open Scope Z_scope.

(** ** Loop helpers *)

(** The values [0, 1, ..., k-1] taken by [for (int i = 0; i < k; i++)]. *)
Definition range (k : Z) : list Z := map Z.of_nat (seq 0 (Z.to_nat k)).

(** ** Cube<n> *)

Module Cube.

Record t : Type := mk { l : list Z; r : list Z }.

Section WithDim.
Variable n : nat.

Definition N : Z := Z.shiftl 1 (Z.of_nat n).

Definition Volume (c : t) : Z :=
  fold_left (fun prod i => prod * (nth i (r c) 0 - nth i (l c) 0)) (seq 0 n) 1.

Definition Center (c : t) : list Z :=
  map (fun i => Z.quot (nth i (l c) 0 + nth i (r c) 0) 2) (seq 0 n).

(** The body of the outer loop of [Subdivide]: orthant number [i]. *)
Definition quadrant (c : t) (m : list Z) (i : Z) : t :=
  {| l := map (fun k =>
            if negb (Z.land i (Z.shiftl 1 (Z.of_nat k)) =? 0)
            then nth k (l c) 0 else nth k m 0) (seq 0 n);
     r := map (fun k =>
            if negb (Z.land i (Z.shiftl 1 (Z.of_nat k)) =? 0)
            then nth k m 0 else nth k (r c) 0) (seq 0 n) |}.

Definition Subdivide (c : t) : list t :=
  let m := Center c in
  map (quadrant c m) (range N).

Definition IsEmpty (c : t) : bool := Volume c =? 0.

Definition IsPoint (c : t) : bool := Volume c =? 1.

(** [operator==]: the loop returns [false] at the first axis on which a
    bound differs. *)
Definition eqb (c other : t) : bool :=
  forallb (fun i =>
    negb (negb (nth i (l c) 0 =? nth i (l other) 0)
          || negb (nth i (r c) 0 =? nth i (r other) 0))) (seq 0 n).

(** One axis of [IntersectWith]. *)
Definition intersect_axis (c other : t) (i : nat) : Z * Z :=
  let lo := Z.max (nth i (l c) 0) (nth i (l other) 0) in
  let hi := Z.min (nth i (r c) 0) (nth i (r other) 0) in
  if lo >=? hi then (0, 0) else (lo, hi).

Definition IntersectWith (c other : t) : t :=
  {| l := map (fun i => fst (intersect_axis c other i)) (seq 0 n);
     r := map (fun i => snd (intersect_axis c other i)) (seq 0 n) |}.

(** [quads[i]] on the result of [Subdivide]. *)
Definition at_ (quads : list t) (i : Z) : t :=
  nth (Z.to_nat i) quads (mk [] []).

(** [operator&]. *)
Definition and_ (c other : t) : t := IntersectWith c other.

(** [a < b] on [std::array<int, n>]: [std::lexicographical_compare]. *)
Fixpoint array_lt (a b : list Z) : bool :=
  match a, b with
  | x :: a', y :: b' =>
    if x <? y then true else if y <? x then false else array_lt a' b'
  | [], _ :: _ => true
  | _, [] => false
  end.

(** [a >= b] and [a <= b] on [std::array<int, n>]. *)
Definition array_ge (a b : list Z) : bool := negb (array_lt a b).
Definition array_le (a b : list Z) : bool := negb (array_lt b a).

(** [IsDisjointFrom]: the body of the loop compares the whole arrays and
    does not use the loop index. *)
Definition IsDisjointFrom (c other : t) : bool :=
  existsb (fun _ => array_ge (l other) (r c) || array_le (r other) (l c))
          (seq 0 n).

End WithDim.
End Cube.

(** ** Operation *)

Module Operation.

Record t : Type := mk { reset_pending : bool; to_add : Z }.

(** [Operation()]: the default member initialisers. *)
Definition default : t := mk false 0.

Definition Evaluate (n : nat) (op : t) (val : Z) (domain : Cube.t) : Z :=
  if reset_pending op
  then Cube.Volume n domain * to_add op
  else val + Cube.Volume n domain * to_add op.

Definition ComposeWith (this other : t) : t :=
  if reset_pending other
  then other
  else mk (reset_pending this) (to_add this + to_add other).

(** [memset(this, 0, sizeof( *this))]. *)
Definition Reset (this : t) : t := mk false 0.

End Operation.

(** ** SegmentTree<n> *)

Module SegmentTree.

Record t : Type := mk {
  entire_domain_ : Cube.t;
  tree_ : list Z;
  operations_ : list Operation.t
}.

Inductive error : Type :=
| OutOfFuel      (* the recursion is deeper than the fuel given *)
| OutOfBounds    (* an index outside a vector: undefined behaviour *)
| LengthError.   (* std::vector constructed with a negative size *)

Inductive result (A : Type) : Type :=
| Ok (a : A)
| Err (e : error).
Arguments Ok {A} a.
Arguments Err {A} e.

(** Computations over the tree state that may fail. *)
Definition M (A : Type) : Type := t -> result (A * t).

Definition ret {A} (a : A) : M A := fun st => Ok (a, st).

Definition bind {A B} (m : M A) (k : A -> M B) : M B :=
  fun st => match m st with
            | Ok (a, st') => k a st'
            | Err e => Err e
            end.

Definition fail {A} (e : error) : M A := fun _ => Err e.

Declare Scope segtree_scope.
Delimit Scope segtree_scope with segtree.
Notation "x <- c1 ;; c2" := (bind c1 (fun x => c2))
  (at level 100, c1 at next level, c2 at level 200, right associativity)
  : segtree_scope.
Notation "c1 ;; c2" := (bind c1 (fun _ => c2))
  (at level 100, c2 at level 200, right associativity) : segtree_scope.
Local Open Scope segtree_scope.

(** [for (int i = 0; i < k; i++) acc = body(i, acc)] over [xs = range k]. *)
Fixpoint for_each {A} (xs : list Z) (body : Z -> A -> M A) (acc : A) : M A :=
  match xs with
  | [] => ret acc
  | i :: xs' => acc' <- body i acc ;; for_each xs' body acc'
  end.

(** [vec[v]] as an rvalue. *)
Definition vec_get {A} (vec : list A) (v : Z) : option A :=
  if v <? 0 then None else vec !! Z.to_nat v.

(** [vec[v] = x]. *)
Definition vec_set {A} (vec : list A) (v : Z) (x : A) : option (list A) :=
  match vec_get vec v with
  | Some _ => Some (<[Z.to_nat v := x]> vec)
  | None => None
  end.

Definition get_tree (v : Z) : M Z :=
  fun st => match vec_get (tree_ st) v with
            | Some x => Ok (x, st)
            | None => Err OutOfBounds
            end.

Definition set_tree (v : Z) (x : Z) : M unit :=
  fun st => match vec_set (tree_ st) v x with
            | Some tr => Ok (tt, mk (entire_domain_ st) tr (operations_ st))
            | None => Err OutOfBounds
            end.

Definition get_op (v : Z) : M Operation.t :=
  fun st => match vec_get (operations_ st) v with
            | Some o => Ok (o, st)
            | None => Err OutOfBounds
            end.

Definition set_op (v : Z) (o : Operation.t) : M unit :=
  fun st => match vec_set (operations_ st) v o with
            | Some ops => Ok (tt, mk (entire_domain_ st) (tree_ st) ops)
            | None => Err OutOfBounds
            end.

Section WithDim.
Variable n : nat.

Definition N : Z := Z.shiftl 1 (Z.of_nat n).

Definition dims (st : t) : list Z := Cube.r (entire_domain_ st).

Definition Child (v i : Z) : Z := N * v + i + 1.

Definition UpdateValueFromBelow (v : Z) : M unit :=
  sum <- for_each (range N)
           (fun i sum => x <- get_tree (Child v i) ;; ret (sum + x)) 0 ;;
  set_tree v sum.

Definition UpdateValueFromAbove (v : Z) (domain : Cube.t) : M unit :=
  o <- get_op v ;;
  x <- get_tree v ;;
  set_tree v (Operation.Evaluate n o x domain).

Definition EvaluateAny (v : Z) (domain : Cube.t) (op : Operation.t) : M unit :=
  o <- get_op v ;;
  set_op v (Operation.ComposeWith o op) ;;
  UpdateValueFromAbove v domain ;;
  if Cube.IsPoint n domain
  then o' <- get_op v ;; set_op v (Operation.Reset o')
  else ret tt.

(** The body of the loop of [Push], for the child number [i]. *)
Definition Push_child (v : Z) (quads : list Cube.t) (i : Z) : M unit :=
  let quad := Cube.at_ quads i in
  oc <- get_op (Child v i) ;;
  ov <- get_op v ;;
  set_op (Child v i) (Operation.ComposeWith oc ov) ;;
  if Cube.IsPoint n quad
  then UpdateValueFromAbove (Child v i) quad ;;
       oc' <- get_op (Child v i) ;;
       set_op (Child v i) (Operation.Reset oc')
  else ret tt.

Definition Push (v : Z) (domain : Cube.t) (quads : list Cube.t) : M unit :=
  for_each (range N) (fun i _ => Push_child v quads i) tt ;;
  UpdateValueFromAbove v domain ;;
  ov <- get_op v ;;
  set_op v (Operation.Reset ov).

Fixpoint ApplyOperationR (fuel : nat) (v : Z) (query_domain domain : Cube.t)
    (op : Operation.t) : M unit :=
  match fuel with
  | O => fail OutOfFuel
  | S fuel' =>
    if Cube.eqb n query_domain domain
    then EvaluateAny v query_domain op
    else
      let quads := Cube.Subdivide n domain in
      Push v domain quads ;;
      for_each (range N)
        (fun i _ =>
           let quad := Cube.at_ quads i in
           let query_sub := Cube.IntersectWith n quad query_domain in
           if negb (Cube.IsEmpty n query_sub)
           then ApplyOperationR fuel' (Child v i) query_sub quad op
           else ret tt) tt ;;
      UpdateValueFromBelow v
  end.

Fixpoint QueryRangeR (fuel : nat) (v : Z) (query_domain domain : Cube.t)
    : M Z :=
  match fuel with
  | O => fail OutOfFuel
  | S fuel' =>
    if Cube.eqb n query_domain domain
    then get_tree v
    else
      let quads := Cube.Subdivide n domain in
      Push v domain quads ;;
      for_each (range N)
        (fun i sum =>
           let quad := Cube.at_ quads i in
           let query_sub := Cube.IntersectWith n quad query_domain in
           if negb (Cube.IsEmpty n query_sub)
           then x <- QueryRangeR fuel' (Child v i) query_sub quad ;;
                ret (sum + x)
           else ret sum) 0
  end.

Definition Linear (st : t) (coords : list Z) : Z :=
  fold_left (fun idx i => nth i (dims st) 0 * idx + nth (i + 1) coords 0)
            (seq 0 (n - 1)) (nth 0 coords 0).

(** [arr[k]] on the constructor's argument. *)
Definition get_arr (arr : list Z) (k : Z) : M Z :=
  fun st => match vec_get arr k with
            | Some x => Ok (x, st)
            | None => Err OutOfBounds
            end.

Fixpoint BuildTreeR (fuel : nat) (arr : list Z) (domain : Cube.t) (v : Z)
    : M unit :=
  match fuel with
  | O => fail OutOfFuel
  | S fuel' =>
    if Cube.IsPoint n domain
    then
      fun st => (x <- get_arr arr (Linear st (Cube.l domain)) ;; set_tree v x) st
    else
      let quads := Cube.Subdivide n domain in
      for_each (range N)
        (fun i _ => BuildTreeR fuel' arr (Cube.at_ quads i) (Child v i)) tt ;;
      UpdateValueFromBelow v
  end.

Definition BuildTree (fuel : nat) (arr : list Z) : M unit :=
  fun st =>
    let domain := Cube.mk (repeat 0 n) (dims st) in
    BuildTreeR fuel arr domain 0 st.

(** The constructor [SegmentTree(arr, dims)]. *)
Definition new (fuel : nat) (arr : list Z) (dims : list Z) : result t :=
  let entire_domain := Cube.mk (repeat 0 n) dims in
  let tree_size := 4 * Cube.Volume n entire_domain in
  if tree_size <? 0 then Err LengthError
  else
    let st := mk entire_domain
                 (repeat 0 (Z.to_nat tree_size))
                 (repeat Operation.default (Z.to_nat tree_size)) in
    match BuildTree fuel arr st with
    | Ok (_, st') => Ok st'
    | Err e => Err e
    end.

Definition ApplyToRange (fuel : nat) (domain : Cube.t) (op : Operation.t)
    : M unit :=
  fun st => ApplyOperationR fuel 0 domain (entire_domain_ st) op st.

Definition AssignRange (fuel : nat) (domain : Cube.t) (val : Z) : M unit :=
  ApplyToRange fuel domain (Operation.mk true val).

Definition AddToRange (fuel : nat) (domain : Cube.t) (inc : Z) : M unit :=
  ApplyToRange fuel domain (Operation.mk false inc).

Definition QueryRange (fuel : nat) (domain : Cube.t) : M Z :=
  fun st => QueryRangeR fuel 0 domain (entire_domain_ st) st.

Definition Get (fuel : nat) (I : list Z) : M Z :=
  let domain := Cube.mk I (map (fun i => nth i I 0 + 1) (seq 0 n)) in
  QueryRange fuel domain.

End WithDim.
End SegmentTree.

(** ** Clients of the public interface *)

Module Client.
Import SegmentTree.
Local Open Scope segtree_scope.

Section WithDim.
Variable n : nat.

(** A history of calls to [ApplyToRange], oldest first. *)
Definition history : Type := list (Cube.t * Operation.t).

Fixpoint apply_history (fuel : nat) (h : history) : M unit :=
  match h with
  | [] => ret tt
  | (D, op) :: h' => ApplyToRange n fuel D op ;; apply_history fuel h'
  end.

(** Construct, replay a history, and hand the state to [k]. *)
Definition after {A} (fuel : nat) (arr dims : list Z) (h : history)
    (k : M A) : result (A * t) :=
  match new n fuel arr dims with
  | Ok st => (apply_history fuel h ;; k) st
  | Err e => Err e
  end.

(** The value returned by a run. *)
Definition answer {A} (r : result (A * t)) : result A :=
  match r with
  | Ok (a, _) => Ok a
  | Err e => Err e
  end.

(** The states a client can observe: built by the constructor and then
    changed by public calls that returned. [AssignRange] and [AddToRange]
    are [ApplyToRange], and [Get] is [QueryRange]. *)
Inductive reachable : t -> Prop :=
| reach_new fuel arr dims st :
    new n fuel arr dims = Ok st -> reachable st
| reach_apply fuel D op st st' :
    reachable st -> ApplyToRange n fuel D op st = Ok (tt, st') ->
    reachable st'
| reach_query fuel D st x st' :
    reachable st -> QueryRange n fuel D st = Ok (x, st') ->
    reachable st'.

(** [D] lies within [E], axis by axis, and is a well-formed half-open box. *)
Definition contained (D E : Cube.t) : Prop :=
  forall i, (i < n)%nat ->
    nth i (Cube.l E) 0 <= nth i (Cube.l D) 0 /\
    nth i (Cube.l D) 0 <= nth i (Cube.r D) 0 /\
    nth i (Cube.r D) 0 <= nth i (Cube.r E) 0.

End WithDim.
End Client.

(** ** The specification's reference semantics

    Modelled on the words of the specification, not on the code: the grid
    of cells, the current value of a cell and the sum over a domain. *)

Module Ref.

Section WithDim.
Variable n : nat.

(** The cell [c] lies in the half-open box [D]. *)
Definition inside (D : Cube.t) (c : list Z) : bool :=
  forallb (fun i => (nth i (Cube.l D) 0 <=? nth i c 0)
                    && (nth i c 0 <? nth i (Cube.r D) 0)) (seq 0 n).

(** Row-major linearization of [c] over axes of extents [dims]. *)
Definition row_major (dims c : list Z) : Z :=
  fold_left (fun idx i => idx * nth i dims 0 + nth i c 0) (seq 0 n) 0.

(** The effect of one operation on one cell. *)
Definition apply (op : Operation.t) (x : Z) : Z :=
  if Operation.reset_pending op then Operation.to_add op
  else x + Operation.to_add op.

(** The current value of a cell: the initial value with all operations
    whose domains contain the cell applied in call order. *)
Definition cell_value (arr dims : list Z) (h : Client.history) (c : list Z)
    : Z :=
  fold_left (fun x (e : Cube.t * Operation.t) =>
               if inside (fst e) c then apply (snd e) x else x)
            h (nth (Z.to_nat (row_major dims c)) arr 0).

(** All cells of the box with the given per-axis bounds. *)
Fixpoint cells_of (axes : list (Z * Z)) : list (list Z) :=
  match axes with
  | [] => [[]]
  | (a, b) :: axes' =>
    flat_map (fun x => map (cons x) (cells_of axes'))
             (map (fun k => a + k) (range (b - a)))
  end.

Definition cells (D : Cube.t) : list (list Z) :=
  cells_of (combine (firstn n (Cube.l D)) (firstn n (Cube.r D))).

(** The sum over the cells of [D] of their current values. *)
Definition sum_over (arr dims : list Z) (h : Client.history) (D : Cube.t)
    : Z :=
  fold_right Z.add 0 (map (cell_value arr dims h) (cells D)).

End WithDim.
End Ref.

(** * Vocabulary of the proofs *)

(** ** Footprints

    [touches P m]: a run of [m] that returns keeps the entire domain and
    the sizes of both vectors, and changes no slot whose index is outside
    [P]. *)

Import SegmentTree.

Definition same_shape (st st' : t) : Prop :=
  entire_domain_ st' = entire_domain_ st /\
  length (tree_ st') = length (tree_ st) /\
  length (operations_ st') = length (operations_ st).

(** [st] and [st'] hold the same entries in the slot [w]. *)
Definition agree_at (st st' : t) (w : Z) : Prop :=
  vec_get (tree_ st') w = vec_get (tree_ st) w /\
  vec_get (operations_ st') w = vec_get (operations_ st) w.

Definition agree_outside (P : Z -> Prop) (st st' : t) : Prop :=
  forall w, ~ P w -> agree_at st st' w.

Definition touches {A} (P : Z -> Prop) (m : M A) : Prop :=
  forall st a st', m st = Ok (a, st') ->
    same_shape st st' /\ agree_outside P st st'.

(** ** Node addresses

    [desc n v w]: the slot [w] is [v] or is reached from [v] by the [Child]
    formula. *)

Inductive desc (n : nat) (v : Z) : Z -> Prop :=
| desc_refl : desc n v v
| desc_child w i : desc n v w -> 0 <= i < N n -> desc n v (Child n w i).

(** The slots of [v] and of its [N] children. *)
Definition family (n : nat) (v w : Z) : Prop :=
  w = v \/ exists i, 0 <= i < N n /\ w = Child n v i.

(** ** Sums and products *)

(** [f 0 * f 1 * ... * f (n-1)], the shape of the loop of [Volume]. *)
Definition prod_upto (f : nat -> Z) (n : nat) : Z :=
  fold_left (fun prod i => prod * f i) (seq 0 n) 1.

Definition Zsum (xs : list Z) : Z := fold_right Z.add 0 xs.

(** ** Settled subtrees

    The state in which a query finds nothing left to push. *)

(** The accumulation [sum += y_i] over the indices [i] of a loop that pass
    the test [cond], where [P i y] says that [y] is the value contributed
    by index [i]. *)
Fixpoint sum_where (cond : Z -> bool) (P : Z -> Z -> Prop) (xs : list Z)
    (acc x : Z) : Prop :=
  match xs with
  | [] => x = acc
  | i :: xs' =>
    if cond i
    then exists y, P i y /\ sum_where cond P xs' (acc + y) x
    else sum_where cond P xs' acc x
  end.

(** What [Push] leaves behind at child [i] of [v]: a slot inside the
    vectors, with no pending operation when the orthant is a point. *)
Definition child_pushed (n : nat) (v : Z) (quads : list Cube.t) (i : Z)
    (st : t) : Prop :=
  is_Some (vec_get (operations_ st) (Child n v i)) /\
  (Cube.IsPoint n (Cube.at_ quads i) = true ->
   vec_get (operations_ st) (Child n v i) = Some (Operation.mk false 0) /\
   is_Some (vec_get (tree_ st) (Child n v i))).

(** What [Push] leaves behind at [v]: no pending operation at [v], and
    none at the children of [v] whose orthant is a point. *)
Definition PushedAt (n : nat) (st : t) (v : Z) (quads : list Cube.t) : Prop :=
  vec_get (operations_ st) v = Some (Operation.mk false 0) /\
  is_Some (vec_get (tree_ st) v) /\
  forall i, 0 <= i < N n -> child_pushed n v quads i st.

(** [Settled n fuel v q d x st]: along the traversal of
    [QueryRangeR(v, q, d)] every node that is not an exact cover has been
    pushed, and the values stored at the exact covers add up to [x]. *)
Fixpoint Settled (n : nat) (fuel : nat) (v : Z) (q d : Cube.t) (x : Z)
    (st : t) : Prop :=
  match fuel with
  | O => False
  | S fuel' =>
    if Cube.eqb n q d
    then vec_get (tree_ st) v = Some x
    else
      PushedAt n st v (Cube.Subdivide n d) /\
      sum_where
        (fun i => negb (Cube.IsEmpty n
                          (Cube.IntersectWith n
                             (Cube.at_ (Cube.Subdivide n d) i) q)))
        (fun i y => Settled n fuel' (Child n v i)
                      (Cube.IntersectWith n
                         (Cube.at_ (Cube.Subdivide n d) i) q)
                      (Cube.at_ (Cube.Subdivide n d) i) y st)
        (range (N n)) 0 x
  end.

(** ** The tree laid out by the constructor

    [built n len h d v]: the node [v] with domain [d] and all the nodes
    below it, down to the point domains and at most [h] levels deep, have
    their slots inside vectors of [len] entries. *)

Inductive built (n : nat) (len : nat) : nat -> Cube.t -> Z -> Prop :=
| built_point h d v :
    Cube.IsPoint n d = true -> 0 <= v < Z.of_nat len ->
    built n len (S h) d v
| built_node h d v :
    Cube.IsPoint n d = false -> 0 <= v < Z.of_nat len ->
    (forall i, 0 <= i < N n ->
       built n len h (Cube.at_ (Cube.Subdivide n d) i) (Child n v i)) ->
    built n len (S h) d v.

(** Both vectors have [len] entries. *)
Definition sized (len : nat) (st : t) : Prop :=
  length (tree_ st) = len /\ length (operations_ st) = len.

(** The recursion tree of [BuildTree] over the domain [root]:
    [BuildTreeR] is entered at the root with node 0, and a call on a
    domain that is not a point enters each orthant [i] with node
    [Child(v, i)] (call [i] once the calls [0 .. i-1] have returned). *)
Inductive build_calls (n : nat) (root : Cube.t) : Cube.t -> Z -> Prop :=
| call_root : build_calls n root root 0
| call_orthant d v i :
    build_calls n root d v -> Cube.IsPoint n d = false -> 0 <= i < N n ->
    build_calls n root (Cube.at_ (Cube.Subdivide n d) i) (Child n v i).

(** The vectors have equal sizes and hold the whole tree over the entire
    domain. *)
Definition laid_out (n : nat) (st : t) : Prop :=
  exists h, built n (length (tree_ st)) h (entire_domain_ st) 0 /\
            sized (length (tree_ st)) st.

(** ** The tree filled in by the constructor

    [grown n arr st h d v]: in the state [st] the node [v] with domain [d]
    heads a tree at most [h] levels deep whose point domains store the
    entries [arr[Linear(l)]] written by [BuildTreeR]. *)

Inductive grown (n : nat) (arr : list Z) (st : t) : nat -> Cube.t -> Z -> Prop :=
| grown_point h d v x :
    Cube.IsPoint n d = true ->
    vec_get arr (Linear n st (Cube.l d)) = Some x ->
    vec_get (tree_ st) v = Some x ->
    grown n arr st (S h) d v
| grown_node h d v :
    Cube.IsPoint n d = false ->
    is_Some (vec_get (tree_ st) v) ->
    (forall i, 0 <= i < N n ->
       grown n arr st h (Cube.at_ (Cube.Subdivide n d) i) (Child n v i)) ->
    grown n arr st (S h) d v.

(** [q] is the unit cube [[c, c + 1)] on the [n] axes. *)
Definition unit_at (n : nat) (c : list Z) (q : Cube.t) : Prop :=
  forall k, (k < n)%nat ->
    nth k (Cube.l q) 0 = nth k c 0 /\ nth k (Cube.r q) 0 = nth k c 0 + 1.

(** ** The value of a cell

    [cellval n st h d v c x]: read from the node [v] with domain [d], and
    leaving the pending operations of the ancestors of [v] aside, the cell
    [c] holds [x]: the value stored at the point domain of [c], with the
    pending operations on the way up to [v] applied to it, the deepest
    first. *)

Fixpoint cellval (n : nat) (st : t) (h : nat) (d : Cube.t) (v : Z)
    (c : list Z) (x : Z) : Prop :=
  match h with
  | O => False
  | S h' =>
    if Cube.IsPoint n d
    then vec_get (tree_ st) v = Some x /\
         vec_get (operations_ st) v = Some (Operation.mk false 0)
    else
      exists o y i,
        vec_get (operations_ st) v = Some o /\
        is_Some (vec_get (tree_ st) v) /\
        0 <= i < N n /\
        Ref.inside n (Cube.at_ (Cube.Subdivide n d) i) c = true /\
        cellval n st h' (Cube.at_ (Cube.Subdivide n d) i) (Child n v i) c y /\
        x = Ref.apply o y
  end.

(** A public call that changes or reads a range. *)
Inductive call : Type :=
| Update (D : Cube.t) (op : Operation.t)
| Ask (D : Cube.t).

Definition call_domain (k : call) : Cube.t :=
  match k with
  | Update D _ => D
  | Ask D => D
  end.

(** Run the calls one after the other, dropping what the queries return. *)
Fixpoint run_calls (n : nat) (fuel : nat) (ks : list call) : M unit :=
  match ks with
  | [] => ret tt
  | Update D op :: ks' =>
    bind (ApplyToRange n fuel D op) (fun _ => run_calls n fuel ks')
  | Ask D :: ks' =>
    bind (QueryRange n fuel D) (fun _ => run_calls n fuel ks')
  end.

(** The value of the cell [c] after the calls, from the value [x] before:
    every update whose domain contains the cell is applied, in call order. *)
Fixpoint cell_after (n : nat) (ks : list call) (c : list Z) (x : Z) : Z :=
  match ks with
  | [] => x
  | Update D op :: ks' =>
    cell_after n ks' c (if Ref.inside n D c then Ref.apply op x else x)
  | Ask _ :: ks' => cell_after n ks' c x
  end.

(** ** Sums over the cells of a box *)

(** The bounds of [D] on the [n] axes. *)
Definition axes (n : nat) (D : Cube.t) : list (Z * Z) :=
  map (fun k => (nth k (Cube.l D) 0, nth k (Cube.r D) 0)) (seq 0 n).

(** The array entry the constructor stores for the cell [c]. *)
Definition entry (n : nat) (arr : list Z) (st : t) (c : list Z) : Z :=
  nth (Z.to_nat (Linear n st c)) arr 0.

(** The sum of [f] over the cells of [D]. *)
Definition box_sum (n : nat) (f : list Z -> Z) (D : Cube.t) : Z :=
  Zsum (map f (Ref.cells_of (axes n D))).

(** The sum of [h] over the integers of the interval [[fst p, snd p)]. *)
Definition isum (p : Z * Z) (h : Z -> Z) : Z :=
  Zsum (map h (map (fun k => fst p + k) (range (snd p - fst p)))).

(** [summed n f st h d v]: every node of the tree of [v] stores the sum of
    [f] over the cells of its domain. *)
Fixpoint summed (n : nat) (f : list Z -> Z) (st : t) (h : nat) (d : Cube.t)
    (v : Z) : Prop :=
  match h with
  | O => False
  | S h' =>
    vec_get (tree_ st) v = Some (box_sum n f d) /\
    (Cube.IsPoint n d = false ->
     forall i, 0 <= i < N n ->
       summed n f st h' (Cube.at_ (Cube.Subdivide n d) i) (Child n v i))
  end.

(** ** Grids with a power of two on every axis *)

(** [d] is a cube of side [s] inside [[0, B)] on the [n] axes. *)
Definition cube_of_side (n : nat) (B s : Z) (d : Cube.t) : Prop :=
  forall k, (k < n)%nat ->
    0 <= nth k (Cube.l d) 0 /\
    nth k (Cube.r d) 0 = nth k (Cube.l d) 0 + s /\
    nth k (Cube.r d) 0 <= B.

(** * The one-axis variant

    The file [unnamed/part_000] holds the structure for a single axis: a
    [Cube] is an interval [[l, r)] of two [int]s, the tree is binary
    ([Left], [Right]), and the vectors have [4 * size + 1] entries. It is
    embedded in the same way, in a module of its own. *)

Module OneDim.

Module Cube.

Record t : Type := mk { l : Z; r : Z }.

Definition Volume (c : t) : Z := r c - l c.

Definition Center (c : t) : Z := Z.quot (r c + l c) 2.

Definition Subdivide (c : t) : t * t :=
  let m := Center c in
  (mk (l c) m, mk m (r c)).

Definition IsPoint (c : t) : bool := Volume c =? 1.

(** [other.l >= r | other.r <= l]. *)
Definition IsDisjointFrom (c other : t) : bool :=
  (l other >=? r c) || (r other <=? l c).

(** The defaulted [operator==]. *)
Definition eqb (c other : t) : bool :=
  (l c =? l other) && (r c =? r other).

Definition IntersectWith (c other : t) : t :=
  mk (Z.max (l c) (l other)) (Z.min (r c) (r other)).

(** [operator&]. *)
Definition and_ (c other : t) : t := IntersectWith c other.

End Cube.

Module Operation.

Record t : Type := mk { reset_pending : bool; to_add : Z }.

Definition default : t := mk false 0.

Definition Evaluate (op : t) (val : Z) (domain : Cube.t) : Z :=
  if reset_pending op
  then Cube.Volume domain * to_add op
  else val + Cube.Volume domain * to_add op.

Definition ComposeWith (this other : t) : t :=
  if reset_pending other
  then other
  else mk (reset_pending this) (to_add this + to_add other).

Definition Reset (this : t) : t := mk false 0.

End Operation.

Module SegmentTree.

Record t : Type := mk {
  size_ : Z;
  tree_ : list Z;
  operations_ : list Operation.t
}.

Definition M (A : Type) : Type := t -> result (A * t).

Definition ret {A} (a : A) : M A := fun st => Ok (a, st).

Definition bind {A B} (m : M A) (k : A -> M B) : M B :=
  fun st => match m st with
            | Ok (a, st') => k a st'
            | Err e => Err e
            end.

Definition fail {A} (e : error) : M A := fun _ => Err e.

Declare Scope onedim_scope.
Delimit Scope onedim_scope with onedim.
Notation "x <- c1 ;; c2" := (bind c1 (fun x => c2))
  (at level 100, c1 at next level, c2 at level 200, right associativity)
  : onedim_scope.
Notation "c1 ;; c2" := (bind c1 (fun _ => c2))
  (at level 100, c2 at level 200, right associativity) : onedim_scope.
Local Open Scope onedim_scope.

Definition get_tree (v : Z) : M Z :=
  fun st => match vec_get (tree_ st) v with
            | Some x => Ok (x, st)
            | None => Err OutOfBounds
            end.

Definition set_tree (v : Z) (x : Z) : M unit :=
  fun st => match vec_set (tree_ st) v x with
            | Some tr => Ok (tt, mk (size_ st) tr (operations_ st))
            | None => Err OutOfBounds
            end.

Definition get_op (v : Z) : M Operation.t :=
  fun st => match vec_get (operations_ st) v with
            | Some o => Ok (o, st)
            | None => Err OutOfBounds
            end.

Definition set_op (v : Z) (o : Operation.t) : M unit :=
  fun st => match vec_set (operations_ st) v o with
            | Some ops => Ok (tt, mk (size_ st) (tree_ st) ops)
            | None => Err OutOfBounds
            end.

(** [arr[k]] on the constructor's argument. *)
Definition get_arr (arr : list Z) (k : Z) : M Z :=
  fun st => match vec_get arr k with
            | Some x => Ok (x, st)
            | None => Err OutOfBounds
            end.

Definition size (st : t) : Z := size_ st.

Definition AddOp (add : Z) : Operation.t := Operation.mk false add.
Definition SetOp (nv : Z) : Operation.t := Operation.mk true nv.

Definition Left (v : Z) : Z := 2 * v + 1.
Definition Right (v : Z) : Z := 2 * v + 2.

Definition UpdateValueFromBelow (v : Z) : M unit :=
  a <- get_tree (Left v) ;;
  b <- get_tree (Right v) ;;
  set_tree v (a + b).

Definition UpdateValueFromAbove (v : Z) (domain : Cube.t) : M unit :=
  o <- get_op v ;;
  x <- get_tree v ;;
  set_tree v (Operation.Evaluate o x domain).

Definition EvaluateAny (v : Z) (domain : Cube.t) (op : Operation.t) : M unit :=
  o <- get_op v ;;
  set_op v (Operation.ComposeWith o op) ;;
  UpdateValueFromAbove v domain ;;
  if Cube.IsPoint domain
  then o' <- get_op v ;; set_op v (Operation.Reset o')
  else ret tt.

(** [Push]: the pending operation of [v] is composed onto both children;
    a child whose domain is a point is evaluated, and its pending
    operation is left in place. *)
Definition Push (v : Z) (domain : Cube.t) : M unit :=
  let left_domain := fst (Cube.Subdivide domain) in
  let right_domain := snd (Cube.Subdivide domain) in
  ol <- get_op (Left v) ;;
  ov <- get_op v ;;
  set_op (Left v) (Operation.ComposeWith ol ov) ;;
  or <- get_op (Right v) ;;
  ov' <- get_op v ;;
  set_op (Right v) (Operation.ComposeWith or ov') ;;
  (if Cube.IsPoint left_domain
   then UpdateValueFromAbove (Left v) left_domain else ret tt) ;;
  (if Cube.IsPoint right_domain
   then UpdateValueFromAbove (Right v) right_domain else ret tt) ;;
  UpdateValueFromAbove v domain ;;
  ov'' <- get_op v ;;
  set_op v (Operation.Reset ov'').

Fixpoint ApplyOperationR (fuel : nat) (v : Z)
    (query_domain node_domain : Cube.t) (op : Operation.t) : M unit :=
  match fuel with
  | O => fail OutOfFuel
  | S fuel' =>
    let left_node_domain := fst (Cube.Subdivide node_domain) in
    let right_node_domain := snd (Cube.Subdivide node_domain) in
    if Cube.eqb query_domain node_domain
    then EvaluateAny v query_domain op
    else
      Push v node_domain ;;
      (if negb (Cube.IsDisjointFrom query_domain left_node_domain)
       then ApplyOperationR fuel' (Left v)
              (Cube.IntersectWith left_node_domain query_domain)
              left_node_domain op
       else ret tt) ;;
      (if negb (Cube.IsDisjointFrom query_domain right_node_domain)
       then ApplyOperationR fuel' (Right v)
              (Cube.IntersectWith right_node_domain query_domain)
              right_node_domain op
       else ret tt) ;;
      UpdateValueFromBelow v
  end.

Fixpoint QueryRangeR (fuel : nat) (v : Z)
    (query_domain node_domain : Cube.t) : M Z :=
  match fuel with
  | O => fail OutOfFuel
  | S fuel' =>
    let left_node_domain := fst (Cube.Subdivide node_domain) in
    let right_node_domain := snd (Cube.Subdivide node_domain) in
    if Cube.eqb query_domain node_domain
    then get_tree v
    else
      Push v node_domain ;;
      sum1 <- (if negb (Cube.IsDisjointFrom query_domain left_node_domain)
               then x <- QueryRangeR fuel' (Left v)
                           (Cube.IntersectWith left_node_domain query_domain)
                           left_node_domain ;;
                    ret (0 + x)
               else ret 0) ;;
      (if negb (Cube.IsDisjointFrom query_domain right_node_domain)
       then x <- QueryRangeR fuel' (Right v)
                   (Cube.IntersectWith right_node_domain query_domain)
                   right_node_domain ;;
            ret (sum1 + x)
       else ret sum1)
  end.

Fixpoint BuildTree (fuel : nat) (arr : list Z) (l r v : Z) : M unit :=
  match fuel with
  | O => fail OutOfFuel
  | S fuel' =>
    if r - l =? 1
    then x <- get_arr arr l ;; set_tree v x
    else
      BuildTree fuel' arr l (Z.quot (l + r) 2) (Left v) ;;
      BuildTree fuel' arr (Z.quot (l + r) 2) r (Right v) ;;
      UpdateValueFromBelow v
  end.

(** The constructor [SegmentTree(arr)]. *)
Definition new (fuel : nat) (arr : list Z) : result t :=
  let size := Z.of_nat (length arr) in
  let tree_size := 4 * size + 1 in
  let st := mk size (repeat 0 (Z.to_nat tree_size))
               (repeat Operation.default (Z.to_nat tree_size)) in
  match BuildTree fuel arr 0 size 0 st with
  | Ok (_, st') => Ok st'
  | Err e => Err e
  end.

Definition ApplyToRange (fuel : nat) (domain : Cube.t) (op : Operation.t)
    : M unit :=
  fun st => ApplyOperationR fuel 0 domain (Cube.mk 0 (size st)) op st.

Definition AssignRange (fuel : nat) (domain : Cube.t) (val : Z) : M unit :=
  ApplyToRange fuel domain (SetOp val).

Definition AddToRange (fuel : nat) (domain : Cube.t) (inc : Z) : M unit :=
  ApplyToRange fuel domain (AddOp inc).

Definition QueryRange (fuel : nat) (domain : Cube.t) : M Z :=
  fun st => QueryRangeR fuel 0 domain (Cube.mk 0 (size st)) st.

Definition Get (fuel : nat) (i : Z) : M Z :=
  QueryRange fuel (Cube.mk i (i + 1)).

End SegmentTree.

(** The sum of the entries [arr[a .. b)]. *)
Definition entries (arr : list Z) (a b : Z) : Z :=
  isum (a, b) (fun i => nth (Z.to_nat i) arr 0).

(** Both vectors have [len] entries. *)
Definition sized (len : nat) (st : SegmentTree.t) : Prop :=
  length (SegmentTree.tree_ st) = len /\
  length (SegmentTree.operations_ st) = len.

(** Every node of the tree of [v], over the interval [d], stores the sum
    of the array entries of [d]. *)
Fixpoint summed (arr : list Z) (st : SegmentTree.t) (h : nat) (d : Cube.t)
    (v : Z) : Prop :=
  match h with
  | O => False
  | S h' =>
    vec_get (SegmentTree.tree_ st) v = Some (entries arr (Cube.l d) (Cube.r d)) /\
    (Cube.IsPoint d = false ->
     summed arr st h' (fst (Cube.Subdivide d)) (SegmentTree.Left v) /\
     summed arr st h' (snd (Cube.Subdivide d)) (SegmentTree.Right v))
  end.

End OneDim.

(** * The arithmetic on 32-bit [int]

    The embedding above computes on [Z] and so describes the executions
    in which no [int] operation overflows.  Where an answer of the code
    depends on the sign of a result, on an order, on a division or on a
    test against a constant, the functions are given once more with the
    arithmetic of a 32-bit two's complement [int] written out: every
    [+], [-] and [*] of the source is followed by [wrap].  (Overflow of a
    signed [int] is undefined behaviour in C++; wrapping is what the
    compiled code does.)  [fits] says that a value is an [int]; under the
    [_fits] conditions, which name the intermediate values of a function,
    the two readings coincide. *)

Module Int32.

Definition INT_MIN : Z := -2147483648.
Definition INT_MAX : Z := 2147483647.

Definition fits (x : Z) : Prop := INT_MIN <= x <= INT_MAX.

Definition wrap (x : Z) : Z := (x + 2147483648) mod 4294967296 - 2147483648.

Section WithDim.
Variable n : nat.

(** [Cube<n>::Center]. *)
Definition Center (c : Cube.t) : list Z :=
  map (fun i => Z.quot (wrap (nth i (Cube.l c) 0 + nth i (Cube.r c) 0)) 2)
      (seq 0 n).

(** [Cube<n>::Subdivide]: the loop body only copies bounds. *)
Definition Subdivide (c : Cube.t) : list Cube.t :=
  let m := Center c in
  map (Cube.quadrant n c m) (range (Cube.N n)).

(** [Cube<n>::Volume]. *)
Definition Volume (c : Cube.t) : Z :=
  fold_left (fun prod i =>
               wrap (prod * wrap (nth i (Cube.r c) 0 - nth i (Cube.l c) 0)))
            (seq 0 n) 1.

Definition IsEmpty (c : Cube.t) : bool := Volume c =? 0.

Definition IsPoint (c : Cube.t) : bool := Volume c =? 1.

(** [SegmentTree<n>::Child]. *)
Definition Child (v i : Z) : Z :=
  wrap (wrap (wrap (SegmentTree.N n * v) + i) + 1).

(** No sum [l[k] + r[k]] of [Center] overflows. *)
Definition Center_fits (c : Cube.t) : Prop :=
  forall k, (k < n)%nat -> fits (nth k (Cube.l c) 0 + nth k (Cube.r c) 0).

(** No difference and no partial product of [Volume] overflows. *)
Definition Volume_fits (c : Cube.t) : Prop :=
  forall k, (k < n)%nat ->
    fits (nth k (Cube.r c) 0 - nth k (Cube.l c) 0) /\
    fits (prod_upto (fun i => nth i (Cube.r c) 0 - nth i (Cube.l c) 0) (S k)).

End WithDim.

(** The interval of the one-axis variant. *)
Module Interval.

Definition Volume (c : OneDim.Cube.t) : Z :=
  wrap (OneDim.Cube.r c - OneDim.Cube.l c).

Definition Center (c : OneDim.Cube.t) : Z :=
  Z.quot (wrap (OneDim.Cube.r c + OneDim.Cube.l c)) 2.

Definition Subdivide (c : OneDim.Cube.t) : OneDim.Cube.t * OneDim.Cube.t :=
  let m := Center c in
  (OneDim.Cube.mk (OneDim.Cube.l c) m, OneDim.Cube.mk m (OneDim.Cube.r c)).

End Interval.

End Int32.

(** [desc_fits n v w]: the slot [w] is [v] or is reached from [v] by
    [Child] computations none of which overflows. *)
Inductive desc_fits (n : nat) (v : Z) : Z -> Prop :=
| desc_fits_refl : desc_fits n v v
| desc_fits_child w i :
    desc_fits n v w -> 0 <= i < N n -> Int32.fits (N n * w + N n) ->
    desc_fits n v (Int32.Child n w i).

(** * Properties *)

Local Open Scope segtree_scope.

(** ** The monad and the loops *)

Section MonadFacts.
Context {A B : Type}.

Lemma bind_Ok (m : M A) (k : A -> M B) st a st' :
  m st = Ok (a, st') -> bind m k st = k a st'.
Proof. unfold bind. intros ->. reflexivity. Qed.

Lemma bind_Err (m : M A) (k : A -> M B) st e :
  m st = Err e -> bind m k st = Err e.
Proof. unfold bind. intros ->. reflexivity. Qed.

Lemma bind_inv (m : M A) (k : A -> M B) st b st' :
  bind m k st = Ok (b, st') ->
  exists a st1, m st = Ok (a, st1) /\ k a st1 = Ok (b, st').
Proof.
  unfold bind. destruct (m st) as [[a st1]|e]; [|discriminate].
  intros H. exists a, st1. split; [reflexivity|exact H].
Qed.

Lemma for_each_nil (body : Z -> A -> M A) acc :
  for_each [] body acc = ret acc.
Proof. reflexivity. Qed.

Lemma for_each_cons i xs (body : Z -> A -> M A) acc :
  for_each (i :: xs) body acc = (acc' <- body i acc ;; for_each xs body acc').
Proof. reflexivity. Qed.

End MonadFacts.

Lemma ret_inv {A} (a b : A) st st' : ret a st = Ok (b, st') -> b = a /\ st' = st.
Proof. unfold ret. intros H. injection H as -> ->. split; reflexivity. Qed.

(** ** The range of a loop and the branching factor *)

Lemma in_range k i : In i (range k) <-> 0 <= i < k.
Proof.
  unfold range. rewrite in_map_iff. split.
  - intros [j [<- Hj]]. apply in_seq in Hj. lia.
  - intros Hi. exists (Z.to_nat i). split; [lia|]. apply in_seq. lia.
Qed.

Lemma NoDup_range k : NoDup (range k).
Proof.
  unfold range. apply (NoDup_fmap_2 Z.of_nat), NoDup_seq.
Qed.

Lemma N_eq n : N n = 2 ^ Z.of_nat n.
Proof. unfold N. apply Z.shiftl_1_l. Qed.

Lemma N_pos n : 0 < N n.
Proof. rewrite N_eq. apply Z.pow_pos_nonneg; lia. Qed.

Lemma Cube_N_eq n : Cube.N n = N n.
Proof. reflexivity. Qed.

(** ** Vector accesses *)

Lemma vec_get_Some {A} (vec : list A) v x :
  vec_get vec v = Some x -> 0 <= v /\ vec !! Z.to_nat v = Some x.
Proof.
  unfold vec_get. destruct (v <? 0) eqn:Hv; [discriminate|].
  apply Z.ltb_ge in Hv. intros H. split; assumption.
Qed.

Lemma vec_get_bounds {A} (vec : list A) v :
  is_Some (vec_get vec v) <-> 0 <= v < Z.of_nat (length vec).
Proof.
  unfold vec_get. destruct (v <? 0) eqn:Hv.
  - apply Z.ltb_lt in Hv. split; [intros [x Hx]; discriminate|lia].
  - apply Z.ltb_ge in Hv. rewrite lookup_lt_is_Some. lia.
Qed.

Lemma vec_set_inv {A} (vec vec' : list A) v x :
  vec_set vec v x = Some vec' ->
  0 <= v < Z.of_nat (length vec) /\ vec' = <[Z.to_nat v := x]> vec.
Proof.
  unfold vec_set. destruct (vec_get vec v) as [y|] eqn:Hy; [|discriminate].
  intros H. injection H as <-. split; [|reflexivity].
  apply vec_get_bounds. exists y. exact Hy.
Qed.

Lemma vec_get_insert_eq {A} (vec : list A) v x :
  0 <= v < Z.of_nat (length vec) ->
  vec_get (<[Z.to_nat v := x]> vec) v = Some x.
Proof.
  intros Hv. unfold vec_get. destruct (v <? 0) eqn:E; [lia|].
  apply list_lookup_insert_eq. lia.
Qed.

Lemma vec_get_insert_ne {A} (vec : list A) v w x :
  0 <= v -> w <> v ->
  vec_get (<[Z.to_nat v := x]> vec) w = vec_get vec w.
Proof.
  intros Hv Hw. unfold vec_get. destruct (w <? 0) eqn:E; [reflexivity|].
  apply Z.ltb_ge in E. apply list_lookup_insert_ne. lia.
Qed.

Lemma vec_set_same {A} (vec : list A) v x :
  vec_get vec v = Some x -> vec_set vec v x = Some vec.
Proof.
  intros H. unfold vec_set. rewrite H. f_equal.
  apply vec_get_Some in H as [_ H]. apply list_insert_id. exact H.
Qed.

(** ** Footprints *)

Lemma same_shape_refl st : same_shape st st.
Proof. repeat split. Qed.

Lemma same_shape_trans st1 st2 st3 :
  same_shape st1 st2 -> same_shape st2 st3 -> same_shape st1 st3.
Proof.
  intros (E1 & T1 & O1) (E2 & T2 & O2). repeat split; congruence.
Qed.

Lemma agree_outside_refl P st : agree_outside P st st.
Proof. intros w _. split; reflexivity. Qed.

Lemma agree_outside_trans P st1 st2 st3 :
  agree_outside P st1 st2 -> agree_outside P st2 st3 ->
  agree_outside P st1 st3.
Proof.
  intros H1 H2 w Hw. destruct (H1 w Hw) as [T1 O1].
  destruct (H2 w Hw) as [T2 O2]. split; congruence.
Qed.

Lemma agree_outside_weaken (P Q : Z -> Prop) st st' :
  (forall w, P w -> Q w) -> agree_outside P st st' -> agree_outside Q st st'.
Proof. intros HPQ H w Hw. apply H. intros HP. apply Hw, HPQ, HP. Qed.

Section Touches.
Context {A B : Type}.

Lemma touches_weaken (P Q : Z -> Prop) (m : M A) :
  (forall w, P w -> Q w) -> touches P m -> touches Q m.
Proof.
  intros HPQ Hm st a st' Hrun. destruct (Hm st a st' Hrun) as [Hs Ha].
  split; [exact Hs|]. eapply agree_outside_weaken; eassumption.
Qed.

Lemma touches_ret P (a : A) : touches P (ret a).
Proof.
  intros st b st' H. apply ret_inv in H as [_ ->].
  split; [apply same_shape_refl|apply agree_outside_refl].
Qed.

Lemma touches_bind P (m : M A) (k : A -> M B) :
  touches P m -> (forall a, touches P (k a)) -> touches P (bind m k).
Proof.
  intros Hm Hk st b st' H. apply bind_inv in H as (a & st1 & H1 & H2).
  destruct (Hm _ _ _ H1) as [Hs1 Ha1]. destruct (Hk a _ _ _ H2) as [Hs2 Ha2].
  split; [eapply same_shape_trans|eapply agree_outside_trans]; eassumption.
Qed.

End Touches.

Lemma touches_for_each {A} P xs (body : Z -> A -> M A) acc :
  (forall i acc', In i xs -> touches P (body i acc')) ->
  touches P (for_each xs body acc).
Proof.
  revert acc. induction xs as [|i xs IH]; intros acc Hb.
  - apply touches_ret.
  - rewrite for_each_cons. apply touches_bind.
    + apply Hb. left. reflexivity.
    + intros a. apply IH. intros j acc' Hj. apply Hb. right. exact Hj.
Qed.


Lemma touches_get_tree P v : touches P (get_tree v).
Proof.
  intros st a st' H. unfold get_tree in H.
  destruct (vec_get (tree_ st) v); [|discriminate]. injection H as _ <-.
  split; [apply same_shape_refl|apply agree_outside_refl].
Qed.

Lemma touches_get_op P v : touches P (get_op v).
Proof.
  intros st a st' H. unfold get_op in H.
  destruct (vec_get (operations_ st) v); [|discriminate]. injection H as _ <-.
  split; [apply same_shape_refl|apply agree_outside_refl].
Qed.

Lemma touches_get_arr P arr k : touches P (get_arr arr k).
Proof.
  intros st a st' H. unfold get_arr in H.
  destruct (vec_get arr k); [|discriminate]. injection H as _ <-.
  split; [apply same_shape_refl|apply agree_outside_refl].
Qed.

Lemma set_tree_inv v x st u st' :
  set_tree v x st = Ok (u, st') ->
  0 <= v < Z.of_nat (length (tree_ st)) /\
  st' = mk (entire_domain_ st) (<[Z.to_nat v := x]> (tree_ st)) (operations_ st).
Proof.
  unfold set_tree. destruct (vec_set (tree_ st) v x) as [tr|] eqn:E; [|discriminate].
  intros H. injection H as _ <-. apply vec_set_inv in E as [Hv ->].
  split; [exact Hv|reflexivity].
Qed.

Lemma set_op_inv v o st u st' :
  set_op v o st = Ok (u, st') ->
  0 <= v < Z.of_nat (length (operations_ st)) /\
  st' = mk (entire_domain_ st) (tree_ st) (<[Z.to_nat v := o]> (operations_ st)).
Proof.
  unfold set_op. destruct (vec_set (operations_ st) v o) as [ops|] eqn:E; [|discriminate].
  intros H. injection H as _ <-. apply vec_set_inv in E as [Hv ->].
  split; [exact Hv|reflexivity].
Qed.

Lemma touches_set_tree (P : Z -> Prop) v x : P v -> touches P (set_tree v x).
Proof.
  intros HP st u st' H. apply set_tree_inv in H as [Hv ->]. split.
  - repeat split; cbn. apply length_insert.
  - intros w Hw. cbn. split; [|reflexivity].
    apply vec_get_insert_ne; [lia|]. intros ->. exact (Hw HP).
Qed.

Lemma touches_set_op (P : Z -> Prop) v o : P v -> touches P (set_op v o).
Proof.
  intros HP st u st' H. apply set_op_inv in H as [Hv ->]. split.
  - repeat split; cbn. apply length_insert.
  - intros w Hw. cbn. split; [reflexivity|].
    apply vec_get_insert_ne; [lia|]. intros ->. exact (Hw HP).
Qed.

(** ** Node addresses *)

Section Addresses.
Variable n : nat.

Lemma Child_gt v i : 0 <= v -> 0 <= i -> v < Child n v i.
Proof. intros Hv Hi. unfold Child. pose proof (N_pos n). nia. Qed.

Lemma Child_inj v w i j :
  0 <= i < N n -> 0 <= j < N n -> Child n v i = Child n w j -> v = w /\ i = j.
Proof.
  unfold Child. intros Hi Hj H.
  assert (Hvw : v = w).
  { destruct (Z.lt_trichotomy v w) as [Hlt|[Heq|Hgt]]; [|exact Heq|].
    - assert (N n * (w - v) >= N n * 1) by (apply Z.le_ge, Z.mul_le_mono_nonneg_l; lia).
      lia.
    - assert (N n * (v - w) >= N n * 1) by (apply Z.le_ge, Z.mul_le_mono_nonneg_l; lia).
      lia. }
  subst w. split; [reflexivity|lia].
Qed.

Lemma desc_ge v w : 0 <= v -> desc n v w -> v <= w.
Proof.
  intros Hv H. induction H as [|w i Hd IH Hi]; [lia|].
  pose proof (Child_gt w i). lia.
Qed.

Lemma desc_trans a b c : desc n a b -> desc n b c -> desc n a c.
Proof.
  intros Hab Hbc. induction Hbc as [|w i Hd IH Hi]; [exact Hab|].
  apply desc_child; assumption.
Qed.

Lemma desc_child_inv a w i :
  0 <= i < N n -> desc n a (Child n w i) -> a = Child n w i \/ desc n a w.
Proof.
  intros Hi H. inversion H as [Ha|w' i' Hd Hi' Heq].
  - left. reflexivity.
  - right. apply Child_inj in Heq as [-> _]; assumption.
Qed.

Lemma desc_linear a b w : desc n a w -> desc n b w -> desc n a b \/ desc n b a.
Proof.
  intros Ha. revert b. induction Ha as [|w i Hd IH Hi]; intros b Hb.
  - right. exact Hb.
  - apply desc_child_inv in Hb as [->|Hb]; [|apply IH, Hb|exact Hi].
    left. apply desc_child; assumption.
Qed.

Lemma family_desc v w : family n v w -> desc n v w.
Proof.
  intros [->|(i & Hi & ->)]; [apply desc_refl|].
  apply desc_child; [apply desc_refl|exact Hi].
Qed.

Lemma desc_Child v i w :
  0 <= i < N n -> desc n (Child n v i) w -> desc n v w.
Proof.
  intros Hi. apply desc_trans. apply desc_child; [apply desc_refl|exact Hi].
Qed.

(** A node is not below any of its children. *)
Lemma parent_not_desc v i : 0 <= v -> 0 <= i < N n -> ~ desc n (Child n v i) v.
Proof.
  intros Hv Hi H. apply desc_ge in H; pose proof (Child_gt v i); lia.
Qed.

(** The subtrees of two different children share no slot. *)
Lemma siblings_disjoint v i j w :
  0 <= v -> 0 <= i < N n -> 0 <= j < N n -> i <> j ->
  desc n (Child n v i) w -> ~ desc n (Child n v j) w.
Proof.
  intros Hv Hi Hj Hij Hwi Hwj.
  destruct (desc_linear _ _ _ Hwi Hwj) as [H|H];
    apply desc_child_inv in H as [H|H]; try assumption.
  - apply Child_inj in H as [_ H]; [|assumption..]. congruence.
  - exact (parent_not_desc v i Hv Hi H).
  - apply Child_inj in H as [_ H]; [|assumption..]. congruence.
  - exact (parent_not_desc v j Hv Hj H).
Qed.

End Addresses.

(** ** Unfolding the recursive member functions *)

Section Equations.
Variable n : nat.

Lemma BuildTreeR_S fuel arr domain v :
  BuildTreeR n (S fuel) arr domain v =
    if Cube.IsPoint n domain
    then
      fun st =>
        (x <- get_arr arr (Linear n st (Cube.l domain)) ;; set_tree v x) st
    else
      for_each (range (N n))
        (fun i _ =>
           BuildTreeR n fuel arr (Cube.at_ (Cube.Subdivide n domain) i)
                      (Child n v i)) tt ;;
      UpdateValueFromBelow n v.
Proof. reflexivity. Qed.

Lemma QueryRangeR_S fuel v query_domain domain :
  QueryRangeR n (S fuel) v query_domain domain =
    if Cube.eqb n query_domain domain
    then get_tree v
    else
      Push n v domain (Cube.Subdivide n domain) ;;
      for_each (range (N n))
        (fun i sum =>
           if negb (Cube.IsEmpty n
                      (Cube.IntersectWith n
                         (Cube.at_ (Cube.Subdivide n domain) i) query_domain))
           then x <- QueryRangeR n fuel (Child n v i)
                       (Cube.IntersectWith n
                          (Cube.at_ (Cube.Subdivide n domain) i) query_domain)
                       (Cube.at_ (Cube.Subdivide n domain) i) ;;
                ret (sum + x)
           else ret sum) 0.
Proof. reflexivity. Qed.

Lemma ApplyOperationR_S fuel v query_domain domain op :
  ApplyOperationR n (S fuel) v query_domain domain op =
    if Cube.eqb n query_domain domain
    then EvaluateAny n v query_domain op
    else
      Push n v domain (Cube.Subdivide n domain) ;;
      for_each (range (N n))
        (fun i _ =>
           if negb (Cube.IsEmpty n
                      (Cube.IntersectWith n
                         (Cube.at_ (Cube.Subdivide n domain) i) query_domain))
           then ApplyOperationR n fuel (Child n v i)
                  (Cube.IntersectWith n
                     (Cube.at_ (Cube.Subdivide n domain) i) query_domain)
                  (Cube.at_ (Cube.Subdivide n domain) i) op
           else ret tt) tt ;;
      UpdateValueFromBelow n v.
Proof. reflexivity. Qed.

End Equations.

(** ** Footprints of the member functions *)

Section MemberFootprints.
Variable n : nat.

Lemma touches_UpdateValueFromAbove v domain :
  touches (eq v) (UpdateValueFromAbove n v domain).
Proof.
  unfold UpdateValueFromAbove.
  apply touches_bind; [apply touches_get_op|]. intros o.
  apply touches_bind; [apply touches_get_tree|]. intros x.
  apply touches_set_tree. reflexivity.
Qed.

Lemma touches_UpdateValueFromBelow v :
  touches (eq v) (UpdateValueFromBelow n v).
Proof.
  unfold UpdateValueFromBelow. apply touches_bind.
  - apply touches_for_each. intros i acc _.
    apply touches_bind; [apply touches_get_tree|]. intros x. apply touches_ret.
  - intros sum. apply touches_set_tree. reflexivity.
Qed.

Lemma touches_EvaluateAny v domain op :
  touches (eq v) (EvaluateAny n v domain op).
Proof.
  unfold EvaluateAny.
  apply touches_bind; [apply touches_get_op|]. intros o.
  apply touches_bind; [apply touches_set_op; reflexivity|]. intros _.
  apply touches_bind; [apply touches_UpdateValueFromAbove|]. intros _.
  destruct (Cube.IsPoint n domain); [|apply touches_ret].
  apply touches_bind; [apply touches_get_op|]. intros o'.
  apply touches_set_op. reflexivity.
Qed.

Lemma touches_Push_child v quads i :
  touches (eq (Child n v i)) (Push_child n v quads i).
Proof.
  unfold Push_child. cbv zeta.
  apply touches_bind; [apply touches_get_op|]. intros oc.
  apply touches_bind; [apply touches_get_op|]. intros ov.
  apply touches_bind; [apply touches_set_op; reflexivity|]. intros _.
  destruct (Cube.IsPoint n (Cube.at_ quads i)); [|apply touches_ret].
  apply touches_bind; [apply touches_UpdateValueFromAbove|].
  intros _. apply touches_bind; [apply touches_get_op|]. intros oc'.
  apply touches_set_op. reflexivity.
Qed.

Lemma touches_Push v domain quads :
  touches (family n v) (Push n v domain quads).
Proof.
  unfold Push. apply touches_bind.
  - apply touches_for_each. intros i acc Hi. apply in_range in Hi.
    eapply touches_weaken; [|apply touches_Push_child].
    intros w <-. right. exists i. split; [exact Hi|reflexivity].
  - intros _. apply touches_bind.
    { eapply touches_weaken; [|apply touches_UpdateValueFromAbove].
      intros w <-. left. reflexivity. }
    intros _. apply touches_bind; [apply touches_get_op|]. intros ov.
    apply touches_set_op. left. reflexivity.
Qed.

Lemma touches_QueryRangeR fuel v query_domain domain :
  touches (desc n v) (QueryRangeR n fuel v query_domain domain).
Proof.
  revert v query_domain domain.
  induction fuel as [|fuel IH]; intros v q d; [intros st a st' H; discriminate|].
  rewrite QueryRangeR_S. destruct (Cube.eqb n q d); [apply touches_get_tree|].
  apply touches_bind.
  - eapply touches_weaken; [apply family_desc|apply touches_Push].
  - intros _. apply touches_for_each. intros i acc Hi. apply in_range in Hi.
    destruct (negb _); [|apply touches_ret].
    apply touches_bind; [|intros x; apply touches_ret].
    eapply touches_weaken; [|apply IH]. intros w. apply desc_Child, Hi.
Qed.

Lemma touches_ApplyOperationR fuel v query_domain domain op :
  touches (desc n v) (ApplyOperationR n fuel v query_domain domain op).
Proof.
  revert v query_domain domain.
  induction fuel as [|fuel IH]; intros v q d; [intros st a st' H; discriminate|].
  rewrite ApplyOperationR_S. destruct (Cube.eqb n q d).
  { eapply touches_weaken; [|apply touches_EvaluateAny].
    intros w <-. apply desc_refl. }
  apply touches_bind.
  { eapply touches_weaken; [apply family_desc|apply touches_Push]. }
  intros _. apply touches_bind.
  - apply touches_for_each. intros i acc Hi. apply in_range in Hi.
    destruct (negb _); [|apply touches_ret].
    eapply touches_weaken; [|apply IH]. intros w. apply desc_Child, Hi.
  - intros _. eapply touches_weaken; [|apply touches_UpdateValueFromBelow].
    intros w <-. apply desc_refl.
Qed.

Lemma touches_BuildTreeR fuel arr domain v :
  touches (desc n v) (BuildTreeR n fuel arr domain v).
Proof.
  revert domain v.
  induction fuel as [|fuel IH]; intros d v; [intros st a st' H; discriminate|].
  rewrite BuildTreeR_S. destruct (Cube.IsPoint n d).
  - intros st a st' H. revert H. 
    apply (touches_bind (desc n v) (get_arr arr (Linear n st (Cube.l d)))
             (fun x => set_tree v x)).
    + apply touches_get_arr.
    + intros x. apply touches_set_tree. apply desc_refl.
  - apply touches_bind.
    + apply touches_for_each. intros i acc Hi. apply in_range in Hi.
      eapply touches_weaken; [|apply IH]. intros w. apply desc_Child, Hi.
    + intros _. eapply touches_weaken; [|apply touches_UpdateValueFromBelow].
      intros w <-. apply desc_refl.
Qed.

End MemberFootprints.

(** ** Reachable states *)

Section Reachable.
Variable n : nat.

Lemma UpdateValueFromBelow_writes v st u st' :
  UpdateValueFromBelow n v st = Ok (u, st') -> is_Some (vec_get (tree_ st') v).
Proof.
  unfold UpdateValueFromBelow. intros H.
  apply bind_inv in H as (sum & st1 & _ & H).
  apply set_tree_inv in H as [Hv ->]. cbn.
  exists sum. apply vec_get_insert_eq. exact Hv.
Qed.

Lemma BuildTreeR_writes fuel arr domain v st u st' :
  BuildTreeR n fuel arr domain v st = Ok (u, st') ->
  is_Some (vec_get (tree_ st') v).
Proof.
  destruct fuel as [|fuel]; [discriminate|].
  rewrite BuildTreeR_S. destruct (Cube.IsPoint n domain); intros H.
  - apply bind_inv in H as (x & st1 & _ & H).
    apply set_tree_inv in H as [Hv ->]. cbn.
    exists x. apply vec_get_insert_eq. exact Hv.
  - apply bind_inv in H as (x & st1 & _ & H).
    eapply UpdateValueFromBelow_writes, H.
Qed.

Lemma new_inv fuel arr dims st :
  new n fuel arr dims = Ok st ->
  exists st0,
    0 <= 4 * Cube.Volume n (Cube.mk (repeat 0 n) dims) /\
    st0 = mk (Cube.mk (repeat 0 n) dims)
             (repeat 0 (Z.to_nat (4 * Cube.Volume n (Cube.mk (repeat 0 n) dims))))
             (repeat Operation.default
                (Z.to_nat (4 * Cube.Volume n (Cube.mk (repeat 0 n) dims)))) /\
    BuildTreeR n fuel arr (Cube.mk (repeat 0 n) dims) 0 st0 = Ok (tt, st).
Proof.
  unfold new, BuildTree. destruct (_ <? 0) eqn:Hsize; [discriminate|].
  apply Z.ltb_ge in Hsize. cbv zeta.
  match goal with |- context [BuildTreeR n fuel arr ?d 0 ?s] =>
    destruct (BuildTreeR n fuel arr d 0 s) as [[[] st1]|e] eqn:E end;
    [|discriminate].
  intros H. injection H as <-. eexists.
  split; [exact Hsize|]. split; [reflexivity|exact E].
Qed.

Lemma same_shape_root st st' :
  same_shape st st' -> is_Some (vec_get (tree_ st) 0) ->
  is_Some (vec_get (tree_ st') 0).
Proof.
  intros (_ & Hl & _). rewrite !vec_get_bounds. lia.
Qed.

Lemma reachable_root st :
  Client.reachable n st -> is_Some (vec_get (tree_ st) 0).
Proof.
  induction 1 as [fuel arr dims st H|fuel D op st st' _ IH H|fuel D st x st' _ IH H].
  - apply new_inv in H as (st0 & _ & _ & H). eapply BuildTreeR_writes, H.
  - apply touches_ApplyOperationR in H as [Hs _].
    eapply same_shape_root; eassumption.
  - apply touches_QueryRangeR in H as [Hs _].
    eapply same_shape_root; eassumption.
Qed.

End Reachable.

(** ** Bits, sums and products *)

Lemma nth_map_seq {A} (f : nat -> A) s n k d :
  (k < n)%nat -> nth k (map f (seq s n)) d = f (s + k)%nat.
Proof.
  revert s k. induction n as [|n IH]; intros s k Hk; [lia|].
  destruct k as [|k]; cbn.
  - f_equal. lia.
  - rewrite IH by lia. f_equal. lia.
Qed.

Lemma length_range k : length (range k) = Z.to_nat k.
Proof. unfold range. rewrite length_map, length_seq. reflexivity. Qed.

Lemma nth_range k i d : 0 <= i < k -> nth (Z.to_nat i) (range k) d = i.
Proof.
  intros Hi. unfold range.
  rewrite (nth_map_seq Z.of_nat 0 (Z.to_nat k) (Z.to_nat i) d) by lia. lia.
Qed.

(** The test [i & (1 << k)] of [Subdivide] reads bit [k] of [i]. *)
Lemma land_shiftl_testbit i k :
  negb (Z.land i (Z.shiftl 1 (Z.of_nat k)) =? 0) = Z.testbit i (Z.of_nat k).
Proof.
  rewrite Z.shiftl_1_l.
  destruct (Z.testbit i (Z.of_nat k)) eqn:Hb.
  - apply negb_true_iff, Z.eqb_neq. intros H0.
    assert (Hk : Z.testbit (Z.land i (2 ^ Z.of_nat k)) (Z.of_nat k) = true).
    { rewrite Z.land_spec, Hb, Z.pow2_bits_true by lia. reflexivity. }
    rewrite H0, Z.bits_0 in Hk. discriminate.
  - apply negb_false_iff, Z.eqb_eq. apply Z.bits_inj'. intros j Hj.
    rewrite Z.land_spec, Z.bits_0, Z.pow2_bits_eqb by lia.
    destruct (Z.eqb_spec (Z.of_nat k) j) as [<-|Hne].
    + rewrite Hb. reflexivity.
    + apply andb_false_r.
Qed.

Lemma testbit_small i k m :
  0 <= i < 2 ^ k -> 0 <= k <= m -> Z.testbit i m = false.
Proof.
  intros Hi Hk. rewrite <- (Z.mod_small i (2 ^ k)) by exact Hi.
  apply Z.mod_pow2_bits_high. exact Hk.
Qed.

Lemma testbit_add_pow2_low i k m :
  0 <= m < k -> Z.testbit (i + 2 ^ k) m = Z.testbit i m.
Proof.
  intros Hm.
  rewrite <- (Z.mod_pow2_bits_low (i + 2 ^ k) k m) by lia.
  rewrite <- (Z.mod_pow2_bits_low i k m) by lia.
  f_equal. rewrite <- (Z.mul_1_l (2 ^ k)) at 1. apply Z_mod_plus_full.
Qed.

Lemma testbit_add_pow2_high i k :
  0 <= k -> 0 <= i < 2 ^ k -> Z.testbit (i + 2 ^ k) k = true.
Proof.
  intros Hk Hi. apply Z.testbit_true; [exact Hk|].
  rewrite <- (Z.mul_1_l (2 ^ k)) at 1.
  rewrite Z.div_add by lia. rewrite Z.div_small by exact Hi. reflexivity.
Qed.

(** Two indices below [2^n] with the same [n] low bits are equal. *)
Lemma testbit_inj_below n i j :
  0 <= i < 2 ^ Z.of_nat n -> 0 <= j < 2 ^ Z.of_nat n ->
  (forall k, (k < n)%nat -> Z.testbit i (Z.of_nat k) = Z.testbit j (Z.of_nat k)) ->
  i = j.
Proof.
  intros Hi Hj Hb. apply Z.bits_inj'. intros m Hm.
  destruct (Z.lt_ge_cases m (Z.of_nat n)) as [Hlt|Hge].
  - specialize (Hb (Z.to_nat m)). rewrite Z2Nat.id in Hb by exact Hm.
    apply Hb. lia.
  - rewrite (testbit_small i (Z.of_nat n) m), (testbit_small j (Z.of_nat n) m);
      [reflexivity|lia..].
Qed.

Lemma prod_upto_S f n : prod_upto f (S n) = prod_upto f n * f n.
Proof.
  unfold prod_upto. rewrite seq_S, fold_left_app. reflexivity.
Qed.

Lemma prod_upto_ext f g n :
  (forall k, (k < n)%nat -> f k = g k) -> prod_upto f n = prod_upto g n.
Proof.
  induction n as [|n IH]; intros H; [reflexivity|].
  rewrite !prod_upto_S, IH by (intros; apply H; lia).
  rewrite (H n) by lia. reflexivity.
Qed.

Lemma Zsum_cons x xs : Zsum (x :: xs) = x + Zsum xs.
Proof. reflexivity. Qed.

Lemma Zsum_app xs ys : Zsum (xs ++ ys) = Zsum xs + Zsum ys.
Proof.
  induction xs as [|x xs IH]; [reflexivity|].
  rewrite <- app_comm_cons, !Zsum_cons, IH. lia.
Qed.

Lemma Zsum_map_mul_r {A} (f : A -> Z) c xs :
  Zsum (map (fun x => f x * c) xs) = Zsum (map f xs) * c.
Proof.
  induction xs as [|x xs IH]; [reflexivity|].
  cbn [map]. rewrite !Zsum_cons, IH. lia.
Qed.

Lemma Zsum_map_ext {A} (f g : A -> Z) xs :
  (forall x, In x xs -> f x = g x) -> Zsum (map f xs) = Zsum (map g xs).
Proof.
  induction xs as [|x xs IH]; intros H; [reflexivity|].
  cbn [map]. rewrite !Zsum_cons, H by (left; reflexivity).
  rewrite IH; [reflexivity|]. intros y Hy. apply H. right. exact Hy.
Qed.

Lemma range_double k :
  0 <= k -> range (k + k) = range k ++ map (fun i => i + k) (range k).
Proof.
  intros Hk. unfold range.
  replace (Z.to_nat (k + k)) with (Z.to_nat k + Z.to_nat k)%nat by lia.
  rewrite seq_app, map_app. f_equal.
  replace (0 + Z.to_nat k)%nat with (Z.to_nat k + 0)%nat by lia.
  rewrite <- (fmap_add_seq (Z.to_nat k) 0).
  change (Nat.add (Z.to_nat k) <$> seq 0 (Z.to_nat k))
    with (map (Nat.add (Z.to_nat k)) (seq 0 (Z.to_nat k))).
  rewrite !map_map. apply map_ext. intros a. lia.
Qed.

(** Choosing one of two factors on every axis in all [2^n] ways and adding
    the products up gives the product of the sums. *)
Lemma Zsum_orthant_products (f g : nat -> Z) n :
  Zsum (map (fun i => prod_upto (fun k => if Z.testbit i (Z.of_nat k)
                                          then f k else g k) n)
            (range (2 ^ Z.of_nat n)))
  = prod_upto (fun k => f k + g k) n.
Proof.
  induction n as [|n IH]; [reflexivity|].
  assert (Hpos : 0 <= 2 ^ Z.of_nat n) by (apply Z.pow_nonneg; lia).
  replace (2 ^ Z.of_nat (S n)) with (2 ^ Z.of_nat n + 2 ^ Z.of_nat n)
    by (rewrite Nat2Z.inj_succ, Z.pow_succ_r; lia).
  rewrite range_double, map_app, Zsum_app, map_map by exact Hpos.
  rewrite prod_upto_S, <- IH.
  rewrite (Zsum_map_ext _ (fun i => prod_upto (fun k => if Z.testbit i (Z.of_nat k)
                                          then f k else g k) n * g n)).
  2:{ intros i Hi. apply in_range in Hi. rewrite prod_upto_S.
      rewrite (testbit_small i (Z.of_nat n) (Z.of_nat n)) by lia. reflexivity. }
  rewrite (Zsum_map_ext (fun i => prod_upto _ (S n))
             (fun i => prod_upto (fun k => if Z.testbit i (Z.of_nat k)
                                          then f k else g k) n * f n)).
  2:{ intros i Hi. apply in_range in Hi. rewrite prod_upto_S.
      rewrite testbit_add_pow2_high by lia. f_equal.
      apply prod_upto_ext. intros k Hk.
      rewrite testbit_add_pow2_low by lia. reflexivity. }
  rewrite !Zsum_map_mul_r. lia.
Qed.

(** ** Geometry of [Cube] *)

Section Geometry.
Variable n : nat.

Lemma Volume_prod c :
  Cube.Volume n c = prod_upto (fun i => nth i (Cube.r c) 0 - nth i (Cube.l c) 0) n.
Proof. reflexivity. Qed.

Lemma Center_nth c k :
  (k < n)%nat ->
  nth k (Cube.Center n c) 0 = Z.quot (nth k (Cube.l c) 0 + nth k (Cube.r c) 0) 2.
Proof. intros Hk. unfold Cube.Center. rewrite nth_map_seq by exact Hk. reflexivity. Qed.

Lemma midpoint_between a b : a <= b -> a <= Z.quot (a + b) 2 <= b.
Proof. intros Hab. Z.to_euclidean_division_equations. lia. Qed.

Lemma length_Subdivide c :
  length (Cube.Subdivide n c) = Z.to_nat (2 ^ Z.of_nat n).
Proof.
  unfold Cube.Subdivide. rewrite length_map, length_range, Cube_N_eq, N_eq.
  reflexivity.
Qed.

Lemma at_Subdivide c i :
  0 <= i < N n ->
  Cube.at_ (Cube.Subdivide n c) i = Cube.quadrant n c (Cube.Center n c) i.
Proof.
  intros Hi. unfold Cube.at_, Cube.Subdivide. cbv zeta.
  rewrite (nth_indep _ _ (Cube.quadrant n c (Cube.Center n c) 0)).
  - rewrite map_nth, nth_range; [reflexivity|exact Hi].
  - rewrite length_map, length_range. rewrite Cube_N_eq. lia.
Qed.

(** Orthant [i] takes the low half of axis [k] when bit [k] of [i] is set
    and the high half otherwise. *)
Lemma orthant_axis c i k :
  0 <= i < N n -> (k < n)%nat ->
  nth k (Cube.l (Cube.at_ (Cube.Subdivide n c) i)) 0 =
    (if Z.testbit i (Z.of_nat k) then nth k (Cube.l c) 0
     else Z.quot (nth k (Cube.l c) 0 + nth k (Cube.r c) 0) 2) /\
  nth k (Cube.r (Cube.at_ (Cube.Subdivide n c) i)) 0 =
    (if Z.testbit i (Z.of_nat k)
     then Z.quot (nth k (Cube.l c) 0 + nth k (Cube.r c) 0) 2
     else nth k (Cube.r c) 0).
Proof.
  intros Hi Hk. rewrite at_Subdivide by exact Hi. unfold Cube.quadrant.
  cbn [Cube.l Cube.r]. rewrite !nth_map_seq by exact Hk. cbn [Nat.add].
  rewrite land_shiftl_testbit, Center_nth by exact Hk. split; reflexivity.
Qed.

Lemma inside_spec D p :
  Ref.inside n D p = true <->
  forall k, (k < n)%nat -> nth k (Cube.l D) 0 <= nth k p 0 < nth k (Cube.r D) 0.
Proof.
  unfold Ref.inside. rewrite forallb_forall. split.
  - intros H k Hk. specialize (H k). rewrite in_seq in H.
    specialize (H ltac:(lia)). apply andb_true_iff in H as [H1 H2]. lia.
  - intros H k Hk. apply in_seq in Hk. specialize (H k ltac:(lia)).
    apply andb_true_iff. split; lia.
Qed.

Lemma exists_index (b : nat -> bool) m :
  exists i, 0 <= i < 2 ^ Z.of_nat m /\
            forall k, (k < m)%nat -> Z.testbit i (Z.of_nat k) = b k.
Proof.
  induction m as [|m (i & Hi & Hb)].
  - exists 0. split; [cbn; lia|]. intros k Hk. lia.
  - assert (Hpow : 2 ^ Z.of_nat (S m) = 2 ^ Z.of_nat m + 2 ^ Z.of_nat m)
      by (rewrite Nat2Z.inj_succ, Z.pow_succ_r; lia).
    destruct (b m) eqn:Hm.
    + exists (i + 2 ^ Z.of_nat m). split; [lia|]. intros k Hk.
      destruct (Nat.eq_dec k m) as [->|Hne].
      * rewrite testbit_add_pow2_high by lia. symmetry. exact Hm.
      * rewrite testbit_add_pow2_low by lia. apply Hb. lia.
    + exists i. split; [lia|]. intros k Hk.
      destruct (Nat.eq_dec k m) as [->|Hne].
      * rewrite (testbit_small i (Z.of_nat m)) by lia. symmetry. exact Hm.
      * apply Hb. lia.
Qed.

(** A cell of the parent lies in orthant [i] exactly when, on every axis,
    bit [k] of [i] says on which side of the midpoint the cell is. *)
Lemma inside_orthant c i p :
  (forall k, (k < n)%nat -> nth k (Cube.l c) 0 <= nth k (Cube.r c) 0) ->
  0 <= i < N n ->
  Ref.inside n (Cube.at_ (Cube.Subdivide n c) i) p = true <->
  Ref.inside n c p = true /\
  forall k, (k < n)%nat ->
    Z.testbit i (Z.of_nat k)
    = (nth k p 0 <? Z.quot (nth k (Cube.l c) 0 + nth k (Cube.r c) 0) 2).
Proof.
  intros Hwf Hi. rewrite !inside_spec. split.
  - intros H. split; intros k Hk; specialize (H k Hk);
      destruct (orthant_axis c i k Hi Hk) as [El Er]; rewrite El, Er in H;
      pose proof (midpoint_between _ _ (Hwf k Hk));
      destruct (Z.testbit i (Z.of_nat k)); lia.
  - intros [H Hb] k Hk. specialize (H k Hk). specialize (Hb k Hk).
    destruct (orthant_axis c i k Hi Hk) as [-> ->].
    destruct (Z.testbit i (Z.of_nat k)); symmetry in Hb.
    + apply Z.ltb_lt in Hb. lia.
    + apply Z.ltb_ge in Hb. lia.
Qed.

End Geometry.

(** On [Z]: for a cube with [l[k] <= r[k]] on every axis the orthants of
    [Subdivide] are as the bits of their index say, every cell of the
    parent lies in exactly one of them, and their volumes add up. *)
Lemma Subdivide_splits n c :
  (forall k, (k < n)%nat -> nth k (Cube.l c) 0 <= nth k (Cube.r c) 0) ->
  length (Cube.Subdivide n c) = Z.to_nat (2 ^ Z.of_nat n) /\
  (forall i k, 0 <= i < 2 ^ Z.of_nat n -> (k < n)%nat ->
     let m := Z.quot (nth k (Cube.l c) 0 + nth k (Cube.r c) 0) 2 in
     let q := Cube.at_ (Cube.Subdivide n c) i in
     nth k (Cube.l c) 0 <= m <= nth k (Cube.r c) 0 /\
     if Z.testbit i (Z.of_nat k)
     then nth k (Cube.l q) 0 = nth k (Cube.l c) 0 /\ nth k (Cube.r q) 0 = m
     else nth k (Cube.l q) 0 = m /\ nth k (Cube.r q) 0 = nth k (Cube.r c) 0) /\
  (forall p, Ref.inside n c p = true ->
     exists i, 0 <= i < 2 ^ Z.of_nat n /\
       Ref.inside n (Cube.at_ (Cube.Subdivide n c) i) p = true /\
       forall j, 0 <= j < 2 ^ Z.of_nat n ->
         Ref.inside n (Cube.at_ (Cube.Subdivide n c) j) p = true -> j = i) /\
  (forall i p, 0 <= i < 2 ^ Z.of_nat n ->
     Ref.inside n (Cube.at_ (Cube.Subdivide n c) i) p = true ->
     Ref.inside n c p = true) /\
  Zsum (map (Cube.Volume n) (Cube.Subdivide n c)) = Cube.Volume n c.
Proof.
  intros Hwf. rewrite <- N_eq. repeat split.
  - rewrite N_eq. apply length_Subdivide.
  - apply midpoint_between, Hwf. assumption.
  - apply midpoint_between, Hwf. assumption.
  - destruct (orthant_axis n c i k) as [El Er]; [assumption..|].
    rewrite El, Er. destruct (Z.testbit i (Z.of_nat k)); split; reflexivity.
  - intros p Hp.
    destruct (exists_index
                (fun k => nth k p 0
                          <? Z.quot (nth k (Cube.l c) 0 + nth k (Cube.r c) 0) 2) n)
      as (i & Hi & Hb).
    rewrite <- N_eq in Hi. exists i. split; [exact Hi|]. split.
    + apply inside_orthant; [exact Hwf|exact Hi|]. split; [exact Hp|exact Hb].
    + intros j Hj Hin. apply inside_orthant in Hin as [_ Hbj]; [|assumption..].
      rewrite N_eq in Hi, Hj. apply (testbit_inj_below n); [assumption..|].
      intros k Hk. rewrite Hb, Hbj by exact Hk. reflexivity.
  - intros i p Hi Hin. apply inside_orthant in Hin as [Hp _]; assumption.
  - unfold Cube.Subdivide. cbv zeta. rewrite map_map, Cube_N_eq.
    rewrite (Zsum_map_ext _
      (fun i => prod_upto
         (fun k => if Z.testbit i (Z.of_nat k)
                   then Z.quot (nth k (Cube.l c) 0 + nth k (Cube.r c) 0) 2
                        - nth k (Cube.l c) 0
                   else nth k (Cube.r c) 0
                        - Z.quot (nth k (Cube.l c) 0 + nth k (Cube.r c) 0) 2) n)).
    + rewrite N_eq, Zsum_orthant_products, Volume_prod.
      apply prod_upto_ext. intros k Hk. lia.
    + intros i Hi. apply in_range in Hi. rewrite Volume_prod.
      apply prod_upto_ext. intros k Hk.
      rewrite <- at_Subdivide by exact Hi.
      destruct (orthant_axis n c i k Hi Hk) as [-> ->].
      destruct (Z.testbit i (Z.of_nat k)); reflexivity.
Qed.


(** ** Containment, points and intersections *)

Lemma prod_upto_nonzero f n :
  prod_upto f n <> 0 -> forall k, (k < n)%nat -> f k <> 0.
Proof.
  induction n as [|n IH]; intros H k Hk; [lia|].
  rewrite prod_upto_S in H.
  destruct (Nat.eq_dec k n) as [->|Hne]; [nia|].
  apply IH; [nia|lia].
Qed.

Lemma prod_upto_ge_1 f n :
  (forall k, (k < n)%nat -> 1 <= f k) -> 1 <= prod_upto f n.
Proof.
  induction n as [|n IH]; intros H; [reflexivity|].
  rewrite prod_upto_S. specialize (IH ltac:(intros; apply H; lia)).
  specialize (H n ltac:(lia)). nia.
Qed.

Lemma prod_upto_eq_1 f n :
  (forall k, (k < n)%nat -> 1 <= f k) -> prod_upto f n = 1 ->
  forall k, (k < n)%nat -> f k = 1.
Proof.
  induction n as [|n IH]; intros H H1 k Hk; [lia|].
  rewrite prod_upto_S in H1.
  pose proof (prod_upto_ge_1 f n ltac:(intros; apply H; lia)) as Hp.
  pose proof (H n ltac:(lia)) as Hn.
  destruct (Nat.eq_dec k n) as [->|Hne]; [nia|].
  apply IH; [intros; apply H; lia|nia|lia].
Qed.

Lemma prod_upto_zero f n k : (k < n)%nat -> f k = 0 -> prod_upto f n = 0.
Proof.
  induction n as [|n IH]; intros Hk H0; [lia|].
  rewrite prod_upto_S. destruct (Nat.eq_dec k n) as [->|Hne].
  - rewrite H0. lia.
  - rewrite IH by (assumption || lia). reflexivity.
Qed.

Lemma prod_upto_zero_inv f n :
  prod_upto f n = 0 -> exists k, (k < n)%nat /\ f k = 0.
Proof.
  induction n as [|n IH]; intros H; [discriminate|].
  rewrite prod_upto_S in H. apply Z.mul_eq_0 in H as [H|H].
  - destruct (IH H) as (k & Hk & H0). exists k. split; [lia|exact H0].
  - exists n. split; [lia|exact H].
Qed.

Section Containment.
Variable n : nat.

(** The orthant number 0 of a zero-volume domain has volume zero. *)
Lemma first_orthant_of_empty d :
  Cube.Volume n d = 0 ->
  Cube.Volume n (Cube.at_ (Cube.Subdivide n d) 0) = 0.
Proof.
  intros H. rewrite Volume_prod in H.
  apply prod_upto_zero_inv in H as (k & Hk & H).
  rewrite Volume_prod. apply (prod_upto_zero _ n k Hk).
  destruct (orthant_axis n d 0 k) as [El Er]; [pose proof (N_pos n); lia|exact Hk|].
  rewrite El, Er, Z.bits_0.
  replace (nth k (Cube.r d) 0) with (nth k (Cube.l d) 0) by lia.
  Z.to_euclidean_division_equations. lia.
Qed.

Lemma eqb_axes q d :
  (forall k, (k < n)%nat ->
     nth k (Cube.l q) 0 = nth k (Cube.l d) 0 /\
     nth k (Cube.r q) 0 = nth k (Cube.r d) 0) ->
  Cube.eqb n q d = true.
Proof.
  intros H. unfold Cube.eqb. apply forallb_forall. intros k Hk.
  apply in_seq in Hk. destruct (H k ltac:(lia)) as [-> ->].
  rewrite !Z.eqb_refl. reflexivity.
Qed.

(** A non-empty domain inside a point domain is that point domain. *)
Lemma contained_in_point q d :
  Client.contained n q d -> Cube.Volume n q <> 0 ->
  Cube.IsPoint n d = true -> Cube.eqb n q d = true.
Proof.
  intros Hc Hq Hd. apply Z.eqb_eq in Hd. rewrite Volume_prod in Hq, Hd.
  pose proof (prod_upto_nonzero _ _ Hq) as Hq'. cbv beta in Hq'.
  assert (Hge : forall k, (k < n)%nat ->
            1 <= nth k (Cube.r d) 0 - nth k (Cube.l d) 0).
  { intros k Hk. specialize (Hc k Hk). specialize (Hq' k Hk). lia. }
  pose proof (prod_upto_eq_1 _ _ Hge Hd) as Hd'. cbv beta in Hd'.
  apply eqb_axes. intros k Hk.
  specialize (Hc k Hk). specialize (Hq' k Hk). specialize (Hd' k Hk). lia.
Qed.

(** A non-empty intersection lies within the first operand. *)
Lemma IntersectWith_contained a b :
  Cube.Volume n (Cube.IntersectWith n a b) <> 0 ->
  Client.contained n (Cube.IntersectWith n a b) a.
Proof.
  intros H. rewrite Volume_prod in H.
  pose proof (prod_upto_nonzero _ _ H) as H'. cbv beta in H'.
  intros k Hk. specialize (H' k Hk). revert H'.
  unfold Cube.IntersectWith. cbn [Cube.l Cube.r].
  rewrite !nth_map_seq by exact Hk. cbn [Nat.add].
  unfold Cube.intersect_axis. cbv zeta.
  destruct (Z.max _ _ >=? Z.min _ _) eqn:E; cbn [fst snd]; lia.
Qed.

End Containment.

(** ** Whole-domain queries *)

(** C10. In every reachable state a query whose domain is structurally
    equal to the entire domain returns [values[0]] at once and leaves every
    entry of [values[]] and [pending[]] as it was: the state after the call
    is the state before it. *)
Theorem QueryRange_entire_domain_reads_root n st D fuel :
  Client.reachable n st ->
  Cube.eqb n D (entire_domain_ st) = true ->
  exists x, vec_get (tree_ st) 0 = Some x /\
            QueryRange n (S fuel) D st = Ok (x, st).
Proof.
  intros Hr HD. destruct (reachable_root n st Hr) as [x Hx].
  exists x. split; [exact Hx|].
  unfold QueryRange. rewrite QueryRangeR_S, HD.
  unfold get_tree. rewrite Hx. reflexivity.
Qed.

Lemma QueryRange_entire_domain_reads_root_witness :
  exists x,
    vec_get (tree_ (mk (Cube.mk [0] [2]) [12; 7; 5; 0; 0; 0; 0; 0]
                       (repeat Operation.default 8))) 0 = Some x /\
    QueryRange 1 1 (Cube.mk [0] [2])
      (mk (Cube.mk [0] [2]) [12; 7; 5; 0; 0; 0; 0; 0]
          (repeat Operation.default 8))
    = Ok (x, mk (Cube.mk [0] [2]) [12; 7; 5; 0; 0; 0; 0; 0]
                (repeat Operation.default 8)).
Proof.
  apply (QueryRange_entire_domain_reads_root 1 _ (Cube.mk [0] [2]) 0).
  - apply (Client.reach_new 1 2 [5; 7] [2]). reflexivity.
  - reflexivity.
Defined.

(** ** Lazy propagation on concrete grids *)

(** C1. One axis, four cells all zero, [AddToRange([0,4), 1)], then
    [QueryRange([0,2))]: the two cells hold 1 each, so the sum is 2, and
    the code returns 0.  [Push] at the root hands the pending add to the
    child over [[0,2)] without refreshing that child's stored value, and
    the exact-cover case of the query returns the stale value. *)
Theorem QueryRange_half_after_add_whole fuel :
  Client.answer
    (Client.after 1 (S (S (S fuel))) [0; 0; 0; 0] [4]
       [(Cube.mk [0] [4], Operation.mk false 1)]
       (QueryRange 1 (S (S (S fuel))) (Cube.mk [0] [2]))) = Ok 0 /\
  Ref.sum_over 1 [0; 0; 0; 0] [4]
    [(Cube.mk [0] [4], Operation.mk false 1)] (Cube.mk [0] [2]) = 2.
Proof. split; reflexivity. Qed.

(** C2. Same grid: after [AddToRange([0,4), 1)] and [Get(0)] the root has
    no pending operation left and the cells sum to 4, and [values[0]] is
    8: [Push] applies the root's pending add to the root's value a second
    time. *)
Theorem root_value_after_add_and_get fuel :
  exists st,
    Client.after 1 (S (S (S fuel))) [0; 0; 0; 0] [4]
      [(Cube.mk [0] [4], Operation.mk false 1)]
      (Get 1 (S (S (S fuel))) [0]) = Ok (1, st) /\
    vec_get (tree_ st) 0 = Some 8 /\
    vec_get (operations_ st) 0 = Some (Operation.mk false 0) /\
    Ref.sum_over 1 [0; 0; 0; 0] [4]
      [(Cube.mk [0] [4], Operation.mk false 1)] (entire_domain_ st) = 4.
Proof.
  exists (mk (Cube.mk [0] [4])
             [8; 0; 2; 0; 0; 1; 1; 0; 0; 0; 0; 0; 0; 0; 0; 0]
             (<[1%nat := Operation.mk false 1]> (repeat Operation.default 16))).
  repeat split; reflexivity.
Qed.

(** C6. One axis, two cells all zero.  After [AddToRange([0,2), 3)] the
    query of [[0,2)] returns 6; after a further [AddToRange([0,2), 2)] it
    returns 16, not 6 + 2 * 2 = 10: [EvaluateAny] evaluates the composed
    pending operation (add 5) on a value that already contains the first
    add. *)
Theorem QueryRange_after_second_add fuel :
  exists st0 st1 st2,
    new 1 (S (S fuel)) [0; 0] [2] = Ok st0 /\
    AddToRange 1 (S fuel) (Cube.mk [0] [2]) 3 st0 = Ok (tt, st1) /\
    QueryRange 1 (S fuel) (Cube.mk [0] [2]) st1 = Ok (6, st1) /\
    AddToRange 1 (S fuel) (Cube.mk [0] [2]) 2 st1 = Ok (tt, st2) /\
    QueryRange 1 (S fuel) (Cube.mk [0] [2]) st2 = Ok (16, st2) /\
    6 + 2 * Cube.Volume 1 (Cube.mk [0] [2]) = 10.
Proof.
  exists (mk (Cube.mk [0] [2]) (repeat 0 8) (repeat Operation.default 8)).
  exists (mk (Cube.mk [0] [2]) (6 :: repeat 0 7)
             (Operation.mk false 3 :: repeat Operation.default 7)).
  exists (mk (Cube.mk [0] [2]) (16 :: repeat 0 7)
             (Operation.mk false 5 :: repeat Operation.default 7)).
  repeat split; reflexivity.
Qed.

(** C7. One axis, four cells all zero, [AddToRange([0,4), 1)].  The
    query of the whole grid returns 4, the sum of the cells.  [Get(0)], a
    query, then returns 1, and the query of the whole grid, asked again
    with no update in between, returns 8: the pushdown done by [Get]
    has altered a sum that the next query observes ([Push] applies the
    root's pending add to the root's value a second time), while the
    cells still sum to 4. *)
Theorem QueryRange_altered_by_query fuel :
  exists st0 st1 st2,
    new 1 (S (S (S fuel))) [0; 0; 0; 0] [4] = Ok st0 /\
    AddToRange 1 (S (S (S fuel))) (Cube.mk [0] [4]) 1 st0 = Ok (tt, st1) /\
    QueryRange 1 (S (S (S fuel))) (Cube.mk [0] [4]) st1 = Ok (4, st1) /\
    Get 1 (S (S (S fuel))) [0] st1 = Ok (1, st2) /\
    QueryRange 1 (S (S (S fuel))) (Cube.mk [0] [4]) st2 = Ok (8, st2) /\
    Ref.sum_over 1 [0; 0; 0; 0] [4]
      [(Cube.mk [0] [4], Operation.mk false 1)] (Cube.mk [0] [4]) = 4.
Proof.
  exists (mk (Cube.mk [0] [4]) (repeat 0 16) (repeat Operation.default 16)).
  exists (mk (Cube.mk [0] [4]) (4 :: repeat 0 15)
             (Operation.mk false 1 :: repeat Operation.default 15)).
  exists (mk (Cube.mk [0] [4])
             [8; 0; 2; 0; 0; 1; 1; 0; 0; 0; 0; 0; 0; 0; 0; 0]
             (<[1%nat := Operation.mk false 1]> (repeat Operation.default 16))).
  repeat split; reflexivity.
Qed.

(** ** Construction on grids with unequal extents *)

(** C3. Two axes, extents [2; 1], a two-entry array: the leaf of cell
    (1, 0) reads [arr[Linear(1, 0)]] with [Linear(1, 0) = dims[0] * 1 + 0 = 2],
    outside the array, where the row-major index of the cell is 1.  No
    amount of fuel makes the construction return a structure. *)
Theorem new_2x1_reads_outside_arr fuel a b :
  new 2 (S (S fuel)) [a; b] [2; 1] = Err OutOfBounds /\
  Linear 2 (mk (Cube.mk [0; 0] [2; 1]) (repeat 0 8)
               (repeat Operation.default 8)) [1; 0] = 2 /\
  Ref.row_major 2 [2; 1] [1; 0] = 1.
Proof. repeat split; reflexivity. Qed.

(** [BuildTreeR] on a zero-volume domain never returns, whatever the
    number of axes: the domain is not a point, and the first orthant the
    loop recurses into has volume zero again. *)
Lemma BuildTreeR_empty_never_returns n fuel arr d v st :
  Cube.Volume n d = 0 -> BuildTreeR n fuel arr d v st = Err OutOfFuel.
Proof.
  revert d v st. induction fuel as [|fuel IH]; intros d v st Hd; [reflexivity|].
  rewrite BuildTreeR_S. unfold Cube.IsPoint. rewrite Hd. cbn [Z.eqb].
  apply bind_Err.
  assert (Hr : range (N n) = 0 :: tl (range (N n))).
  { unfold range. pose proof (N_pos n).
    destruct (Z.to_nat (N n)) as [|k] eqn:E; [lia|reflexivity]. }
  rewrite Hr, for_each_cons. apply bind_Err. apply IH.
  apply first_orthant_of_empty, Hd.
Qed.

(** C4. Two axes, extents [1; 2], a two-entry array: positive extents and
    a matching array length, and the constructor's recursion does not
    terminate.  [BuildTreeR] recurses into every orthant, also the
    zero-volume orthant [[0,0) x [1,2)], which is not a point and whose
    orthants have volume zero for ever. *)
Theorem new_1x2_never_returns fuel a b :
  new 2 fuel [a; b] [1; 2] = Err OutOfFuel.
Proof.
  destruct fuel as [|[|fuel]]; try reflexivity.
  unfold new. change (4 * Cube.Volume 2 _ <? 0) with false. cbv iota zeta.
  unfold BuildTree. rewrite BuildTreeR_S.
  set (st := mk _ _ _).
  change (Cube.IsPoint 2 _) with false. cbv iota.
  rewrite (bind_Err _ _ _ OutOfFuel); [reflexivity|].
  change (range (N 2)) with [0; 1; 2; 3]. rewrite for_each_cons.
  erewrite bind_Ok by reflexivity.
  rewrite for_each_cons. apply bind_Err.
  apply BuildTreeR_empty_never_returns. reflexivity.
Qed.

(** C5. Two axes, extents [1; 1]: the structure has 4 * 1 = 4 slots.  The
    query of the empty domain [[0,0) x [0,0)], which lies within the entire
    domain, is not an exact cover of the root, so [Push] addresses the
    root's four children, and [Child(0, 3) = 4] is outside both vectors.
    And on extents [1; 2], with 4 * 2 = 8 slots, the build enters the
    zero-volume orthant [[0,0) x [1,2)] at node [Child(0, 1) = 2] (the
    call before it, on a point, returns) and from there its first orthant
    at node [Child(2, 0) = 9]. *)
Theorem allocation_of_4_volume_slots_exceeded fuel fuel' a :
  (exists st,
     new 2 (S fuel) [a] [1; 1] = Ok st /\
     length (tree_ st) = 4%nat /\ length (operations_ st) = 4%nat /\
     Client.contained 2 (Cube.mk [0; 0] [0; 0]) (entire_domain_ st) /\
     Child 2 0 3 = 4 /\
     QueryRange 2 (S fuel') (Cube.mk [0; 0] [0; 0]) st = Err OutOfBounds) /\
  (build_calls 2 (Cube.mk [0; 0] [1; 2]) (Cube.mk [0; 1] [0; 2]) 9 /\
   4 * Cube.Volume 2 (Cube.mk [0; 0] [1; 2]) = 8).
Proof.
  split.
  - exists (mk (Cube.mk [0; 0] [1; 1]) [a; 0; 0; 0] (repeat Operation.default 4)).
    repeat split; try reflexivity.
    all: destruct i as [|[|i]]; cbn in *; lia.
  - split; [|reflexivity].
    apply (call_orthant 2 _ (Cube.mk [0; 1] [0; 2]) 2 0);
      [|reflexivity|change (N 2) with 4; lia].
    apply (call_orthant 2 _ (Cube.mk [0; 0] [1; 2]) 0 1);
      [|reflexivity|change (N 2) with 4; lia].
    apply call_root.
Qed.

(** ** The length of the initial array *)

Lemma for_each_mono {A} xs (body1 body2 : Z -> A -> M A) :
  (forall i acc st r, In i xs ->
     body1 i acc st = Ok r -> body2 i acc st = Ok r) ->
  forall acc st r,
    for_each xs body1 acc st = Ok r -> for_each xs body2 acc st = Ok r.
Proof.
  induction xs as [|i xs IH]; intros Hb acc st r H; [exact H|].
  rewrite for_each_cons in *. destruct r as [a st'].
  apply bind_inv in H as (a1 & st1 & H1 & H2).
  erewrite bind_Ok by (apply Hb; [left; reflexivity|exact H1]).
  apply IH; [|exact H2]. intros j acc' st2 r Hj. apply Hb. right. exact Hj.
Qed.

Lemma get_arr_app arr extra k st r :
  get_arr arr k st = Ok r -> get_arr (arr ++ extra) k st = Ok r.
Proof.
  unfold get_arr. destruct (vec_get arr k) as [x|] eqn:E; [|discriminate].
  apply vec_get_Some in E as [Hk E]. unfold vec_get.
  destruct (k <? 0) eqn:Hk'; [lia|].
  rewrite (lookup_app_l_Some _ _ _ _ E). intros H. exact H.
Qed.

Lemma BuildTreeR_app n fuel arr extra domain v st r :
  BuildTreeR n fuel arr domain v st = Ok r ->
  BuildTreeR n fuel (arr ++ extra) domain v st = Ok r.
Proof.
  revert domain v st r.
  induction fuel as [|fuel IH]; intros d v st r; [discriminate|].
  rewrite !BuildTreeR_S. destruct (Cube.IsPoint n d); intros H; destruct r as [u st'].
  - apply bind_inv in H as (x & st1 & H1 & H2).
    erewrite bind_Ok by (apply get_arr_app, H1). exact H2.
  - apply bind_inv in H as (x & st1 & H1 & H2).
    erewrite bind_Ok; [exact H2|].
    eapply for_each_mono; [|exact H1].
    intros i acc st2 r _. apply IH.
Qed.

(** C9, as the code has it.  The constructor never looks at the length of
    the initial array: whenever an array builds a structure, the same
    array followed by any further entries builds the same structure, with
    no failure reported. *)
Theorem new_ignores_extra_entries n fuel arr extra dims st :
  new n fuel arr dims = Ok st ->
  new n fuel (arr ++ extra) dims = Ok st.
Proof.
  intros H. apply new_inv in H as (st0 & Hsize & -> & H).
  unfold new, BuildTree.
  destruct (4 * Cube.Volume n (Cube.mk (repeat 0 n) dims) <? 0) eqn:E;
    [apply Z.ltb_lt in E; lia|].
  cbv zeta. unfold SegmentTree.dims. cbn [entire_domain_ Cube.r].
  rewrite (BuildTreeR_app _ _ _ extra _ _ _ _ H). reflexivity.
Qed.

Lemma new_ignores_extra_entries_witness :
  new 1 2 ([5; 7] ++ [9]) [2]
  = Ok (mk (Cube.mk [0] [2]) [12; 7; 5; 0; 0; 0; 0; 0]
           (repeat Operation.default 8)).
Proof.
  apply (new_ignores_extra_entries 1 2 [5; 7] [9] [2]). reflexivity.
Defined.

(** C9, as the specification words it, fails: a three-entry array with a
    single axis of extent 2 is a length mismatch, and the constructor
    returns a structure. *)
Lemma new_accepts_length_mismatch :
  Z.of_nat (length [5; 7; 9]) <> Cube.Volume 1 (Cube.mk [0] [2]) /\
  exists st, new 1 2 [5; 7; 9] [2] = Ok st.
Proof. split; [discriminate|]. eexists. reflexivity. Qed.

(** ** Pushing where nothing is pending *)

Lemma get_tree_Ok v st x :
  vec_get (tree_ st) v = Some x -> get_tree v st = Ok (x, st).
Proof. unfold get_tree. intros ->. reflexivity. Qed.

Lemma get_op_Ok v st o :
  vec_get (operations_ st) v = Some o -> get_op v st = Ok (o, st).
Proof. unfold get_op. intros ->. reflexivity. Qed.

Lemma get_tree_inv v st x st' :
  get_tree v st = Ok (x, st') -> vec_get (tree_ st) v = Some x /\ st' = st.
Proof.
  unfold get_tree. destruct (vec_get (tree_ st) v); [|discriminate].
  intros H. injection H as -> ->. split; reflexivity.
Qed.

Lemma get_op_inv v st o st' :
  get_op v st = Ok (o, st') -> vec_get (operations_ st) v = Some o /\ st' = st.
Proof.
  unfold get_op. destruct (vec_get (operations_ st) v); [|discriminate].
  intros H. injection H as -> ->. split; reflexivity.
Qed.

Lemma set_tree_same v st x :
  vec_get (tree_ st) v = Some x -> set_tree v x st = Ok (tt, st).
Proof.
  intros H. unfold set_tree. rewrite (vec_set_same _ _ _ H).
  destruct st. reflexivity.
Qed.

Lemma set_op_same v st o :
  vec_get (operations_ st) v = Some o -> set_op v o st = Ok (tt, st).
Proof.
  intros H. unfold set_op. rewrite (vec_set_same _ _ _ H).
  destruct st. reflexivity.
Qed.

Lemma ComposeWith_identity o :
  Operation.ComposeWith o (Operation.mk false 0) = o.
Proof.
  destruct o as [b a]. unfold Operation.ComposeWith. cbn. f_equal. lia.
Qed.

Lemma Evaluate_identity n x domain :
  Operation.Evaluate n (Operation.mk false 0) x domain = x.
Proof. unfold Operation.Evaluate. cbn. lia. Qed.

Lemma for_each_unit_noop xs (body : Z -> unit -> M unit) st :
  (forall i, In i xs -> body i tt st = Ok (tt, st)) ->
  for_each xs body tt st = Ok (tt, st).
Proof.
  induction xs as [|i xs IH]; intros H; [reflexivity|].
  rewrite for_each_cons. erewrite bind_Ok by (apply H; left; reflexivity).
  apply IH. intros j Hj. apply H. right. exact Hj.
Qed.

Section PushNoop.
Variable n : nat.

Lemma UpdateValueFromAbove_noop v domain st :
  vec_get (operations_ st) v = Some (Operation.mk false 0) ->
  is_Some (vec_get (tree_ st) v) ->
  UpdateValueFromAbove n v domain st = Ok (tt, st).
Proof.
  intros Ho [x Hx]. unfold UpdateValueFromAbove.
  erewrite bind_Ok by (apply get_op_Ok, Ho).
  erewrite bind_Ok by (apply get_tree_Ok, Hx).
  rewrite Evaluate_identity. apply set_tree_same, Hx.
Qed.

(** [Push] on a pushed node changes nothing. *)
Lemma Push_noop v domain quads st :
  PushedAt n st v quads -> Push n v domain quads st = Ok (tt, st).
Proof.
  intros (Hv & Htv & Hc). unfold Push.
  erewrite bind_Ok.
  2:{ apply for_each_unit_noop. intros i Hi. apply in_range in Hi.
      destruct (Hc i Hi) as [[oc Hoc] Hpt]. unfold Push_child. cbv zeta.
      erewrite bind_Ok by (apply get_op_Ok, Hoc).
      erewrite bind_Ok by (apply get_op_Ok, Hv).
      rewrite ComposeWith_identity.
      erewrite bind_Ok by (apply set_op_same, Hoc).
      destruct (Cube.IsPoint n (Cube.at_ quads i)); [|reflexivity].
      destruct (Hpt eq_refl) as [Hid Ht].
      erewrite bind_Ok by (apply UpdateValueFromAbove_noop; assumption).
      erewrite bind_Ok by (apply get_op_Ok, Hid).
      apply set_op_same, Hid. }
  erewrite bind_Ok by (apply UpdateValueFromAbove_noop; assumption).
  erewrite bind_Ok by (apply get_op_Ok, Hv).
  apply set_op_same, Hv.
Qed.

End PushNoop.

(** ** A settled subtree is read without being changed *)

Lemma sum_where_mono cond (P P' : Z -> Z -> Prop) xs acc x :
  (forall i y, In i xs -> cond i = true -> P i y -> P' i y) ->
  sum_where cond P xs acc x -> sum_where cond P' xs acc x.
Proof.
  revert acc. induction xs as [|i xs IH]; intros acc HP H; [exact H|].
  cbn [sum_where] in *. destruct (cond i) eqn:Hc.
  - destruct H as (y & Hy & H). exists y. split.
    + apply HP; [left; reflexivity|exact Hc|exact Hy].
    + apply IH; [|exact H]. intros j z Hj. apply HP. right. exact Hj.
  - apply IH; [|exact H]. intros j z Hj. apply HP. right. exact Hj.
Qed.

Lemma sum_where_run cond (P : Z -> Z -> Prop) (code : Z -> M Z) xs acc x st :
  (forall i y, In i xs -> cond i = true -> P i y -> code i st = Ok (y, st)) ->
  sum_where cond P xs acc x ->
  for_each xs
    (fun i sum => if cond i then y <- code i ;; ret (sum + y) else ret sum)
    acc st = Ok (x, st).
Proof.
  revert acc. induction xs as [|i xs IH]; intros acc Hc H.
  - cbn in *. subst x. reflexivity.
  - rewrite for_each_cons. cbn [sum_where] in H.
    destruct (cond i) eqn:Hi.
    + destruct H as (y & Hy & H).
      erewrite bind_Ok.
      2:{ erewrite bind_Ok by (apply (Hc i y); [left; reflexivity|exact Hi|exact Hy]).
          reflexivity. }
      apply IH; [|exact H]. intros j z Hj. apply Hc. right. exact Hj.
    + erewrite bind_Ok by reflexivity.
      apply IH; [|exact H]. intros j z Hj. apply Hc. right. exact Hj.
Qed.

Lemma Settled_reads n fuel v q d x st :
  Settled n fuel v q d x st -> QueryRangeR n fuel v q d st = Ok (x, st).
Proof.
  revert v q d x. induction fuel as [|fuel IH]; intros v q d x H; [destruct H|].
  rewrite QueryRangeR_S. cbn [Settled] in H. destruct (Cube.eqb n q d).
  - apply get_tree_Ok, H.
  - destruct H as [Hp Hs]. erewrite bind_Ok by (apply Push_noop, Hp).
    apply (sum_where_run _ _
             (fun i => QueryRangeR n fuel (Child n v i)
                         (Cube.IntersectWith n
                            (Cube.at_ (Cube.Subdivide n d) i) q)
                         (Cube.at_ (Cube.Subdivide n d) i))
             _ _ _ _ (fun i y _ _ Hy => IH _ _ _ _ Hy) Hs).
Qed.

(** ** What [Push] leaves behind *)

Lemma for_each_preserve {A} (R : t -> Prop) xs (body : Z -> A -> M A) :
  (forall j acc st a st', In j xs ->
     body j acc st = Ok (a, st') -> R st -> R st') ->
  forall acc st a st',
    for_each xs body acc st = Ok (a, st') -> R st -> R st'.
Proof.
  induction xs as [|j xs IH]; intros Hb acc st a st' H HR.
  - apply ret_inv in H as [_ ->]. exact HR.
  - rewrite for_each_cons in H. apply bind_inv in H as (a1 & st1 & H1 & H2).
    eapply IH; [|exact H2|].
    + intros k acc' s b s' Hk. apply Hb. right. exact Hk.
    + eapply Hb; [left; reflexivity|exact H1|exact HR].
Qed.

Lemma for_each_establish {A} (Q : Z -> t -> Prop) xs (body : Z -> A -> M A) :
  NoDup xs ->
  (forall i acc st a st', In i xs -> body i acc st = Ok (a, st') -> Q i st') ->
  (forall i j acc st a st', In i xs -> In j xs -> i <> j ->
     body j acc st = Ok (a, st') -> Q i st -> Q i st') ->
  forall acc st a st',
    for_each xs body acc st = Ok (a, st') -> forall i, In i xs -> Q i st'.
Proof.
  induction xs as [|i0 xs IH]; intros Hnd He Hp acc st a st' H i Hi;
    [destruct Hi|].
  apply NoDup_cons in Hnd as [Hnotin Hnd]. rewrite list_elem_of_In in Hnotin.
  rewrite for_each_cons in H. apply bind_inv in H as (a1 & st1 & H1 & H2).
  destruct Hi as [<-|Hi].
  - eapply (for_each_preserve (Q i0)); [|exact H2|].
    + intros j acc' s b s' Hj. apply Hp; [left; reflexivity|right; exact Hj|].
      intros ->. exact (Hnotin Hj).
    + eapply He; [left; reflexivity|exact H1].
  - eapply IH; [exact Hnd| | |exact H2|exact Hi].
    + intros k acc' s b s' Hk. apply He. right. exact Hk.
    + intros k j acc' s b s' Hk Hj. apply Hp; right; assumption.
Qed.

Section PushEstablishes.
Variable n : nat.

Lemma UpdateValueFromAbove_writes v domain st u st' :
  UpdateValueFromAbove n v domain st = Ok (u, st') ->
  is_Some (vec_get (tree_ st') v) /\ operations_ st' = operations_ st.
Proof.
  unfold UpdateValueFromAbove. intros H.
  apply bind_inv in H as (o & s1 & H1 & H). apply get_op_inv in H1 as [_ ->].
  apply bind_inv in H as (x & s2 & H2 & H). apply get_tree_inv in H2 as [_ ->].
  apply set_tree_inv in H as [Hv ->]. cbn. split; [|reflexivity].
  eexists. apply vec_get_insert_eq. exact Hv.
Qed.

Lemma child_pushed_agree v quads i st st' :
  vec_get (tree_ st') (Child n v i) = vec_get (tree_ st) (Child n v i) ->
  vec_get (operations_ st') (Child n v i)
  = vec_get (operations_ st) (Child n v i) ->
  child_pushed n v quads i st -> child_pushed n v quads i st'.
Proof. unfold child_pushed. intros -> ->. exact id. Qed.

Lemma Push_child_establishes v quads i st u st' :
  Push_child n v quads i st = Ok (u, st') -> child_pushed n v quads i st'.
Proof.
  unfold Push_child. cbv zeta. intros H.
  apply bind_inv in H as (oc & s1 & H1 & H). apply get_op_inv in H1 as [_ ->].
  apply bind_inv in H as (ov & s2 & H2 & H). apply get_op_inv in H2 as [_ ->].
  apply bind_inv in H as ([] & s3 & H3 & H). apply set_op_inv in H3 as [Hc ->].
  unfold child_pushed. destruct (Cube.IsPoint n (Cube.at_ quads i)).
  - apply bind_inv in H as ([] & s4 & H4 & H).
    apply UpdateValueFromAbove_writes in H4 as [Ht Ho].
    apply bind_inv in H as (oc' & s5 & H5 & H). apply get_op_inv in H5 as [_ ->].
    apply set_op_inv in H as [Hc' ->]. cbn [operations_ tree_].
    assert (Hid : vec_get (<[Z.to_nat (Child n v i) := Operation.Reset oc']>
                            (operations_ s4)) (Child n v i)
                  = Some (Operation.mk false 0))
      by (apply vec_get_insert_eq; exact Hc').
    split; [rewrite Hid; eexists; reflexivity|].
    intros _. split; [exact Hid|exact Ht].
  - apply ret_inv in H as [_ ->]. cbn [operations_]. split; [|discriminate].
    eexists. apply vec_get_insert_eq. exact Hc.
Qed.

Lemma Push_establishes v domain quads st u st' :
  Push n v domain quads st = Ok (u, st') -> PushedAt n st' v quads.
Proof.
  unfold Push. intros H.
  apply bind_inv in H as ([] & s1 & Hloop & H).
  apply bind_inv in H as ([] & s2 & Hup & H).
  apply bind_inv in H as (ov & s3 & Hget & H). apply get_op_inv in Hget as [_ ->].
  pose proof (touches_UpdateValueFromAbove n v domain _ _ _ Hup) as [_ Ha2].
  pose proof (touches_set_op (eq v) v _ eq_refl _ _ _ H) as [_ Ha3].
  apply UpdateValueFromAbove_writes in Hup as [Ht _].
  apply set_op_inv in H as [Hv ->]. cbn [operations_ tree_] in *.
  split; [apply vec_get_insert_eq; exact Hv|]. split; [exact Ht|].
  intros i Hi.
  assert (Hne : Child n v i <> v) by (pose proof (Child_gt n v i); lia).
  assert (Hq : child_pushed n v quads i s1).
  { apply (for_each_establish (child_pushed n v quads) (range (N n))
             (fun i _ => Push_child n v quads i) (NoDup_range _))
      with (acc := tt) (st := st) (a := tt); [| |exact Hloop|apply in_range, Hi].
    - intros j acc s a s' _. apply Push_child_establishes.
    - intros j k acc s a s' Hj Hk Hjk Hrun.
      apply in_range in Hj, Hk.
      apply touches_Push_child in Hrun as [_ Hag].
      destruct (Hag (Child n v j)) as [Et Eo].
      { intros Heq. apply Child_inj in Heq as [_ Heq]; [|assumption..].
        congruence. }
      apply child_pushed_agree; assumption. }
  destruct (Ha2 (Child n v i)) as [Et2 Eo2]; [congruence|].
  destruct (Ha3 (Child n v i)) as [Et3 Eo3]; [congruence|].
  cbn [operations_ tree_] in *.
  eapply child_pushed_agree; [| |exact Hq]; cbn [operations_ tree_]; congruence.
Qed.

End PushEstablishes.

(** ** A query settles the subtree it traverses *)

Section QuerySettles.
Variable n : nat.

Lemma child_pushed_agree_at v quads i st st' :
  agree_at st st' (Child n v i) ->
  child_pushed n v quads i st -> child_pushed n v quads i st'.
Proof. intros [Et Eo]. apply child_pushed_agree; assumption. Qed.

(** [Settled] only looks at the slots of the subtree of [v]. *)
Lemma Settled_frame fuel v q d x st st' :
  (forall w, desc n v w -> agree_at st st' w) ->
  Settled n fuel v q d x st -> Settled n fuel v q d x st'.
Proof.
  revert v q d x. induction fuel as [|fuel IH]; intros v q d x Hag H;
    [destruct H|].
  cbn [Settled] in *. destruct (Cube.eqb n q d).
  - destruct (Hag v (desc_refl n v)) as [-> _]. exact H.
  - destruct H as [(Hv & Ht & Hc) Hs]. split.
    + destruct (Hag v (desc_refl n v)) as [Et Eo]. split; [congruence|].
      split; [congruence|]. intros i Hi.
      apply (child_pushed_agree_at v _ i st); [|apply Hc, Hi].
      apply Hag. apply desc_child; [apply desc_refl|exact Hi].
    + revert Hs. apply sum_where_mono. intros i y Hi _. apply in_range in Hi.
      apply IH. intros w Hw. apply Hag. eapply desc_Child; eassumption.
Qed.

(** The loop of [QueryRangeR] over the children [xs] of [v], given that
    the recursive calls settle their subtrees. *)
Lemma query_loop_settles fuel v q quads :
  (forall c qs quad s y s',
     QueryRangeR n fuel c qs quad s = Ok (y, s') ->
     Settled n fuel c qs quad y s' /\
     (vec_get (operations_ s') c = vec_get (operations_ s) c \/
      vec_get (operations_ s') c = Some (Operation.mk false 0))) ->
  0 <= v ->
  forall xs, NoDup xs -> (forall i, In i xs -> 0 <= i < N n) ->
  forall acc s x s',
    for_each xs
      (fun i sum =>
         if negb (Cube.IsEmpty n (Cube.IntersectWith n (Cube.at_ quads i) q))
         then y <- QueryRangeR n fuel (Child n v i)
                     (Cube.IntersectWith n (Cube.at_ quads i) q)
                     (Cube.at_ quads i) ;;
              ret (sum + y)
         else ret sum) acc s = Ok (x, s') ->
    sum_where
      (fun i => negb (Cube.IsEmpty n (Cube.IntersectWith n (Cube.at_ quads i) q)))
      (fun i y => Settled n fuel (Child n v i)
                    (Cube.IntersectWith n (Cube.at_ quads i) q)
                    (Cube.at_ quads i) y s')
      xs acc x /\
    same_shape s s' /\
    agree_outside (fun w => exists i, In i xs /\ desc n (Child n v i) w) s s' /\
    (forall i, In i xs ->
       vec_get (operations_ s') (Child n v i)
       = vec_get (operations_ s) (Child n v i) \/
       vec_get (operations_ s') (Child n v i) = Some (Operation.mk false 0)).
Proof.
  intros IHf Hv. induction xs as [|i xs IHxs]; intros Hnd Hr acc s x s' H.
  - apply ret_inv in H as [-> ->]. split; [reflexivity|].
    split; [apply same_shape_refl|]. split; [apply agree_outside_refl|].
    intros i [].
  - apply NoDup_cons in Hnd as [Hnotin Hnd]. rewrite list_elem_of_In in Hnotin.
    assert (Hi : 0 <= i < N n) by (apply Hr; left; reflexivity).
    assert (Hr' : forall j, In j xs -> 0 <= j < N n)
      by (intros j Hj; apply Hr; right; exact Hj).
    rewrite for_each_cons in H. apply bind_inv in H as (acc1 & s1 & H1 & H2).
    destruct (IHxs Hnd Hr' _ _ _ _ H2) as (Hsum & Hsh & Hag & Hops).
    (* slots of the subtree of child [i] are not touched by the rest *)
    assert (Hrest : forall w, desc n (Child n v i) w -> agree_at s1 s' w).
    { intros w Hw. apply Hag. intros (j & Hj & Hwj).
      refine (siblings_disjoint n v i j w Hv Hi (Hr' j Hj) _ Hw Hwj).
      intros ->. exact (Hnotin Hj). }
    cbn [sum_where].
    destruct (negb (Cube.IsEmpty n (Cube.IntersectWith n (Cube.at_ quads i) q)))
      eqn:Hc.
    + apply bind_inv in H1 as (y & s1' & Hq & Hret).
      apply ret_inv in Hret as [-> ->].
      destruct (IHf _ _ _ _ _ _ Hq) as [Hset Hop].
      destruct (touches_QueryRangeR n _ _ _ _ _ _ _ Hq) as [Hsh1 Hag1].
      split; [|split; [|split]].
      * exists y. split; [|exact Hsum].
        eapply Settled_frame; [exact Hrest|exact Hset].
      * eapply same_shape_trans; eassumption.
      * eapply agree_outside_trans.
        -- eapply agree_outside_weaken; [|exact Hag1].
           intros w Hw. exists i. split; [left; reflexivity|exact Hw].
        -- eapply agree_outside_weaken; [|exact Hag].
           intros w (j & Hj & Hw). exists j. split; [right; exact Hj|exact Hw].
      * intros j [<-|Hj].
        -- destruct (Hrest (Child n v i) (desc_refl _ _)) as [_ ->]. exact Hop.
        -- destruct (Hag1 (Child n v j)) as [_ <-]; [|apply Hops, Hj].
           intros Hd.
           refine (siblings_disjoint n v j i (Child n v j) Hv (Hr' j Hj) Hi _
                     (desc_refl _ _) Hd).
           intros ->. exact (Hnotin Hj).
    + apply ret_inv in H1 as [-> ->].
      split; [exact Hsum|]. split; [exact Hsh|]. split.
      * eapply agree_outside_weaken; [|exact Hag].
        intros w (j & Hj & Hw). exists j. split; [right; exact Hj|exact Hw].
      * intros j [<-|Hj]; [|apply Hops, Hj].
        left. apply (Hrest (Child n v i) (desc_refl _ _)).
Qed.

Lemma QueryRangeR_settles fuel v q d st x st' :
  QueryRangeR n fuel v q d st = Ok (x, st') ->
  Settled n fuel v q d x st' /\
  (vec_get (operations_ st') v = vec_get (operations_ st) v \/
   vec_get (operations_ st') v = Some (Operation.mk false 0)).
Proof.
  revert v q d st x st'.
  induction fuel as [|fuel IH]; intros v q d st x st' H; [discriminate|].
  rewrite QueryRangeR_S in H. cbn [Settled]. destruct (Cube.eqb n q d).
  - apply get_tree_inv in H as [Hx ->]. split; [exact Hx|left; reflexivity].
  - apply bind_inv in H as ([] & s1 & Hpush & Hloop).
    apply Push_establishes in Hpush as (Hov & Htv & Hc).
    assert (Hv : 0 <= v) by (apply vec_get_Some in Hov; lia).
    destruct (query_loop_settles fuel v q (Cube.Subdivide n d) IH Hv
                (range (N n)) (NoDup_range _) (fun i Hi => proj1 (in_range _ _) Hi)
                _ _ _ _ Hloop) as (Hsum & Hsh & Hag & Hops).
    assert (Hroot : agree_at s1 st' v).
    { apply Hag. intros (i & Hi & Hd). apply in_range in Hi.
      exact (parent_not_desc n v i Hv Hi Hd). }
    destruct Hroot as [Et Eo].
    split; [|right; congruence]. split; [|exact Hsum].
    split; [congruence|]. split; [congruence|].
    intros i Hi. destruct (Hc i Hi) as [Hsome Hpt]. split.
    + destruct (Hops i (proj2 (in_range _ _) Hi)) as [->| ->];
        [exact Hsome|eexists; reflexivity].
    + intros Hpoint. destruct (Hpt Hpoint) as [Hid Ht]. split.
      * destruct (Hops i (proj2 (in_range _ _) Hi)) as [->| ->];
          [exact Hid|reflexivity].
      * destruct Hsh as (_ & Hlen & _).
        apply vec_get_bounds. apply vec_get_bounds in Ht. lia.
Qed.

End QuerySettles.

(** A query that returns leaves a state on which the same query is a pure
    read of the same value. *)
Lemma QueryRange_twice n fuel D st x st' :
  QueryRange n fuel D st = Ok (x, st') ->
  QueryRange n fuel D st' = Ok (x, st').
Proof.
  unfold QueryRange. intros H.
  destruct (touches_QueryRangeR n _ _ _ _ _ _ _ H) as [(-> & _) _].
  apply Settled_reads. apply QueryRangeR_settles in H as [H _]. exact H.
Qed.

(** ** Calls inside the two vectors return *)

Lemma for_each_total {A} (I : t -> Prop) xs (body : Z -> A -> M A) :
  (forall i acc st, In i xs -> I st ->
     exists a st', body i acc st = Ok (a, st') /\ I st') ->
  forall acc st, I st ->
    exists a st', for_each xs body acc st = Ok (a, st') /\ I st'.
Proof.
  induction xs as [|i xs IH]; intros Hb acc st HI.
  - exists acc, st. split; [reflexivity|exact HI].
  - destruct (Hb i acc st (or_introl eq_refl) HI) as (a1 & st1 & H1 & HI1).
    destruct (IH (fun j acc' s Hj => Hb j acc' s (or_intror Hj)) a1 st1 HI1)
      as (a & st' & H & HI').
    exists a, st'. split; [|exact HI'].
    rewrite for_each_cons. erewrite bind_Ok by exact H1. exact H.
Qed.

Section Totality.
Variable n : nat.
Variable len : nat.

Lemma get_tree_total v st :
  sized len st -> 0 <= v < Z.of_nat len ->
  exists x, get_tree v st = Ok (x, st).
Proof.
  intros [Ht _] Hv. destruct (proj2 (vec_get_bounds (tree_ st) v)) as [x Hx];
    [lia|]. exists x. apply get_tree_Ok, Hx.
Qed.

Lemma get_op_total v st :
  sized len st -> 0 <= v < Z.of_nat len ->
  exists o, get_op v st = Ok (o, st).
Proof.
  intros [_ Ho] Hv. destruct (proj2 (vec_get_bounds (operations_ st) v)) as [o Hx];
    [lia|]. exists o. apply get_op_Ok, Hx.
Qed.

Lemma set_tree_total v x st :
  sized len st -> 0 <= v < Z.of_nat len ->
  exists st', set_tree v x st = Ok (tt, st') /\ sized len st'.
Proof.
  intros Hs Hv. destruct (get_tree_total v st Hs Hv) as [y Hy].
  apply get_tree_inv in Hy as [Hy _].
  unfold set_tree, vec_set. rewrite Hy. eexists. split; [reflexivity|].
  destruct Hs as [Ht Ho]. split; cbn; [rewrite length_insert|]; assumption.
Qed.

Lemma set_op_total v o st :
  sized len st -> 0 <= v < Z.of_nat len ->
  exists st', set_op v o st = Ok (tt, st') /\ sized len st'.
Proof.
  intros Hs Hv. destruct (get_op_total v st Hs Hv) as [y Hy].
  apply get_op_inv in Hy as [Hy _].
  unfold set_op, vec_set. rewrite Hy. eexists. split; [reflexivity|].
  destruct Hs as [Ht Ho]. split; cbn; [|rewrite length_insert]; assumption.
Qed.

Lemma UpdateValueFromAbove_total v domain st :
  sized len st -> 0 <= v < Z.of_nat len ->
  exists st', UpdateValueFromAbove n v domain st = Ok (tt, st') /\ sized len st'.
Proof.
  intros Hs Hv. unfold UpdateValueFromAbove.
  destruct (get_op_total v st Hs Hv) as [o Ho].
  destruct (get_tree_total v st Hs Hv) as [x Hx].
  destruct (set_tree_total v (Operation.Evaluate n o x domain) st Hs Hv)
    as (st' & Hset & Hs').
  exists st'. split; [|exact Hs'].
  erewrite bind_Ok by exact Ho. erewrite bind_Ok by exact Hx. exact Hset.
Qed.

Lemma Push_child_total v quads i st :
  sized len st -> 0 <= v < Z.of_nat len ->
  0 <= Child n v i < Z.of_nat len ->
  exists st', Push_child n v quads i st = Ok (tt, st') /\ sized len st'.
Proof.
  intros Hs Hv Hc. unfold Push_child. cbv zeta.
  destruct (get_op_total _ st Hs Hc) as [oc Hoc].
  destruct (get_op_total _ st Hs Hv) as [ov Hov].
  destruct (set_op_total _ (Operation.ComposeWith oc ov) st Hs Hc)
    as (s1 & H1 & Hs1).
  erewrite bind_Ok by exact Hoc. erewrite bind_Ok by exact Hov.
  erewrite bind_Ok by exact H1.
  destruct (Cube.IsPoint n (Cube.at_ quads i)).
  - destruct (UpdateValueFromAbove_total _ (Cube.at_ quads i) s1 Hs1 Hc)
      as (s2 & H2 & Hs2).
    destruct (get_op_total _ s2 Hs2 Hc) as [oc' Hoc'].
    destruct (set_op_total _ (Operation.Reset oc') s2 Hs2 Hc) as (s3 & H3 & Hs3).
    exists s3. split; [|exact Hs3].
    erewrite bind_Ok by exact H2. erewrite bind_Ok by exact Hoc'. exact H3.
  - exists s1. split; [reflexivity|exact Hs1].
Qed.

Lemma Push_total v domain quads st :
  sized len st -> 0 <= v < Z.of_nat len ->
  (forall i, 0 <= i < N n -> 0 <= Child n v i < Z.of_nat len) ->
  exists st', Push n v domain quads st = Ok (tt, st') /\ sized len st'.
Proof.
  intros Hs Hv Hc. unfold Push.
  destruct (for_each_total (sized len) (range (N n))
              (fun i (_ : unit) => Push_child n v quads i)) with (acc := tt) (st := st)
    as ([] & s1 & H1 & Hs1); [|exact Hs|].
  { intros i [] s Hi Hsz. apply in_range in Hi.
    destruct (Push_child_total v quads i s Hsz Hv (Hc i Hi)) as (s' & H & Hs').
    exists tt, s'. split; assumption. }
  destruct (UpdateValueFromAbove_total v domain s1 Hs1 Hv) as (s2 & H2 & Hs2).
  destruct (get_op_total v s2 Hs2 Hv) as [ov Hov].
  destruct (set_op_total v (Operation.Reset ov) s2 Hs2 Hv) as (s3 & H3 & Hs3).
  exists s3. split; [|exact Hs3].
  erewrite bind_Ok by exact H1. erewrite bind_Ok by exact H2.
  erewrite bind_Ok by exact Hov. exact H3.
Qed.

Lemma built_bounds h d v : built n len h d v -> 0 <= v < Z.of_nat len.
Proof. intros H. destruct H; assumption. Qed.

(** On a laid-out tree, a query of a non-empty domain inside the node's
    domain returns, with fuel equal to the depth of the layout. *)
Lemma QueryRangeR_total h d v q st :
  built n len h d v -> sized len st ->
  Client.contained n q d -> Cube.Volume n q <> 0 ->
  exists x st', QueryRangeR n h v q d st = Ok (x, st') /\ sized len st'.
Proof.
  revert d v q st. induction h as [|h IH]; intros d v q st Hb Hs Hc Hq;
    [inversion Hb|].
  rewrite QueryRangeR_S. destruct (Cube.eqb n q d) eqn:Heq.
  - destruct (get_tree_total v st Hs (built_bounds _ _ _ Hb)) as [x Hx].
    exists x, st. split; assumption.
  - inversion Hb as [h' d' v' Hpt Hv|h' d' v' Hpt Hv Hch]; subst.
    { rewrite (contained_in_point n q d Hc Hq Hpt) in Heq. discriminate. }
    destruct (Push_total v d (Cube.Subdivide n d) st Hs Hv
                (fun i Hi => built_bounds _ _ _ (Hch i Hi)))
      as (s1 & H1 & Hs1).
    erewrite bind_Ok by exact H1.
    apply for_each_total; [|exact Hs1].
    intros i acc s Hi Hsz. apply in_range in Hi.
    destruct (negb (Cube.IsEmpty n _)) eqn:Hne.
    + apply negb_true_iff, Z.eqb_neq in Hne.
      destruct (IH _ _ _ s (Hch i Hi) Hsz
                  (IntersectWith_contained n _ _ Hne) Hne) as (y & s' & Hy & Hs').
      exists (acc + y), s'. split; [|exact Hs'].
      erewrite bind_Ok by exact Hy. reflexivity.
    + exists acc, s. split; [reflexivity|exact Hsz].
Qed.

End Totality.

(** ** Reachable states are laid out *)

Lemma for_each_inv_each {A} (I : t -> Prop) xs (body : Z -> A -> M A) :
  (forall j acc st a st', In j xs ->
     body j acc st = Ok (a, st') -> I st -> I st') ->
  forall acc st a st',
    for_each xs body acc st = Ok (a, st') -> I st ->
    forall i, In i xs ->
      exists acc_i st_i a_i st_i',
        I st_i /\ body i acc_i st_i = Ok (a_i, st_i').
Proof.
  induction xs as [|j xs IH]; intros Hb acc st a st' H HI i Hi; [destruct Hi|].
  rewrite for_each_cons in H. apply bind_inv in H as (a1 & st1 & H1 & H2).
  destruct Hi as [<-|Hi].
  - exists acc, st, a1, st1. split; assumption.
  - eapply IH; [|exact H2| |exact Hi].
    + intros k acc' s b s' Hk. apply Hb. right. exact Hk.
    + eapply Hb; [left; reflexivity|exact H1|exact HI].
Qed.

Section LaidOut.
Variable n : nat.

Lemma BuildTreeR_built fuel arr d v st u st' :
  BuildTreeR n fuel arr d v st = Ok (u, st') ->
  built n (length (tree_ st)) fuel d v.
Proof.
  revert d v st u st'.
  induction fuel as [|fuel IH]; intros d v st u st' H; [discriminate|].
  assert (Hv : 0 <= v < Z.of_nat (length (tree_ st))).
  { destruct (touches_BuildTreeR n _ _ _ _ _ _ _ H) as [(_ & Hl & _) _].
    apply BuildTreeR_writes, vec_get_bounds in H. lia. }
  rewrite BuildTreeR_S in H. destruct (Cube.IsPoint n d) eqn:Hpt.
  - apply built_point; assumption.
  - apply built_node; [assumption..|]. intros i Hi.
    apply bind_inv in H as ([] & s1 & Hloop & _).
    destruct (for_each_inv_each
                (fun s => length (tree_ s) = length (tree_ st)) _ _
                (fun j acc s a s' _ Hrun Hlen =>
                   eq_trans (proj1 (proj2 (proj1
                               (touches_BuildTreeR n _ _ _ _ _ _ _ Hrun)))) Hlen)
                _ _ _ _ Hloop eq_refl i (proj2 (in_range _ _) Hi))
      as (acc_i & s_i & a_i & s_i' & Hlen & Hrun).
    rewrite <- Hlen. destruct a_i. eapply IH. exact Hrun.
Qed.

Lemma laid_out_same_shape st st' :
  same_shape st st' -> laid_out n st -> laid_out n st'.
Proof.
  intros (He & Ht & Ho) (h & Hb & _ & Hs). exists h.
  rewrite He, Ht. split; [exact Hb|]. split; congruence.
Qed.

Lemma reachable_laid_out st : Client.reachable n st -> laid_out n st.
Proof.
  induction 1 as [fuel arr dims st H|fuel D op st st' _ IH H|fuel D st x st' _ IH H].
  - apply new_inv in H as (st0 & _ & -> & H).
    destruct (touches_BuildTreeR n _ _ _ _ _ _ _ H) as [Hsh _].
    apply BuildTreeR_built in H.
    eapply laid_out_same_shape; [exact Hsh|].
    exists fuel. split; [exact H|]. split; [reflexivity|].
    cbn. rewrite !repeat_length. reflexivity.
  - apply touches_ApplyOperationR in H as [Hsh _].
    eapply laid_out_same_shape; eassumption.
  - apply touches_QueryRangeR in H as [Hsh _].
    eapply laid_out_same_shape; eassumption.
Qed.

End LaidOut.

(** ** Asking twice *)



(** * Further properties of the code *)

(** ** Operations *)

(** X1. [ComposeWith] is associative and the default-constructed operation,
    which is also what [Reset] leaves, is its identity on both sides:
    pending operations form a monoid. *)
Theorem ComposeWith_monoid a b c :
  Operation.ComposeWith (Operation.ComposeWith a b) c
  = Operation.ComposeWith a (Operation.ComposeWith b c) /\
  Operation.ComposeWith a Operation.default = a /\
  Operation.ComposeWith Operation.default a = a /\
  Operation.Reset a = Operation.default.
Proof.
  destruct a as [ra xa], b as [rb xb], c as [rc xc].
  unfold Operation.ComposeWith, Operation.default, Operation.Reset.
  cbn [Operation.reset_pending Operation.to_add].
  repeat split.
  - destruct rc, rb; cbn [Operation.reset_pending Operation.to_add];
      try reflexivity; f_equal; lia.
  - f_equal. lia.
  - destruct ra; reflexivity.
Qed.

(** X2. Evaluating a composed operation is evaluating its two parts one
    after the other, and the default operation evaluates to the value it
    is given. *)
Theorem Evaluate_ComposeWith n a b val domain :
  Operation.Evaluate n (Operation.ComposeWith a b) val domain
  = Operation.Evaluate n b (Operation.Evaluate n a val domain) domain /\
  Operation.Evaluate n Operation.default val domain = val.
Proof.
  destruct a as [ra xa], b as [rb xb].
  unfold Operation.Evaluate, Operation.ComposeWith, Operation.default.
  cbn [Operation.reset_pending Operation.to_add].
  split; [|lia].
  destruct rb, ra; cbn [Operation.reset_pending Operation.to_add]; lia.
Qed.

Lemma Zsum_map_apply op xs :
  Zsum (map (Ref.apply op) xs)
  = if Operation.reset_pending op
    then Z.of_nat (length xs) * Operation.to_add op
    else Zsum xs + Z.of_nat (length xs) * Operation.to_add op.
Proof.
  unfold Ref.apply. induction xs as [|x xs IH].
  - destruct (Operation.reset_pending op); reflexivity.
  - cbn [map length]. rewrite !Zsum_cons, IH.
    destruct (Operation.reset_pending op); lia.
Qed.

(** X3. On an aggregate that is the sum of as many cell values as the
    domain has cells, [Evaluate] returns the sum of the cell values after
    the operation has been applied to each cell (assign: every cell becomes
    the constant; add: every cell grows by it). *)
Theorem Evaluate_sums_cells n op domain xs :
  Z.of_nat (length xs) = Cube.Volume n domain ->
  Operation.Evaluate n op (Zsum xs) domain = Zsum (map (Ref.apply op) xs).
Proof.
  intros H. rewrite Zsum_map_apply, H. unfold Operation.Evaluate.
  destruct (Operation.reset_pending op); reflexivity.
Qed.

Lemma Evaluate_sums_cells_witness :
  Operation.Evaluate 1 (Operation.mk true 7) (Zsum [1; 2; 3]) (Cube.mk [2] [5])
  = Zsum (map (Ref.apply (Operation.mk true 7)) [1; 2; 3]).
Proof.
  apply (Evaluate_sums_cells 1 (Operation.mk true 7) (Cube.mk [2] [5]) [1; 2; 3]).
  reflexivity.
Defined.

(** ** Boxes *)

Lemma prod_upto_nonneg f n :
  (forall k, (k < n)%nat -> 0 <= f k) -> 0 <= prod_upto f n.
Proof.
  induction n as [|n IH]; intros H; [cbn; lia|].
  rewrite prod_upto_S. specialize (IH ltac:(intros; apply H; lia)).
  specialize (H n ltac:(lia)). nia.
Qed.

Lemma prod_upto_ones f n :
  (forall k, (k < n)%nat -> f k = 1) -> prod_upto f n = 1.
Proof.
  induction n as [|n IH]; intros H; [reflexivity|].
  rewrite prod_upto_S, IH, (H n) by (intros; apply H || idtac; lia). reflexivity.
Qed.

Section Boxes.
Variable n : nat.

Lemma IntersectWith_axis a b k :
  (k < n)%nat ->
  nth k (Cube.l (Cube.IntersectWith n a b)) 0
  = fst (Cube.intersect_axis a b k) /\
  nth k (Cube.r (Cube.IntersectWith n a b)) 0
  = snd (Cube.intersect_axis a b k).
Proof.
  intros Hk. unfold Cube.IntersectWith. cbn [Cube.l Cube.r].
  rewrite !nth_map_seq by exact Hk. split; reflexivity.
Qed.

End Boxes.

Lemma inside_both_iff n a b p :
  Ref.inside n (Cube.IntersectWith n a b) p = true <->
  Ref.inside n a p = true /\ Ref.inside n b p = true.
Proof.
  rewrite !inside_spec. split.
  - intros H. split; intros k Hk; specialize (H k Hk);
      destruct (IntersectWith_axis n a b k Hk) as [El Er];
      rewrite El, Er in H; unfold Cube.intersect_axis in H; cbv zeta in H;
      destruct (Z.max _ _ >=? Z.min _ _) eqn:E; cbn [fst snd] in H; lia.
  - intros [Ha Hb] k Hk. specialize (Ha k Hk). specialize (Hb k Hk).
    destruct (IntersectWith_axis n a b k Hk) as [-> ->].
    unfold Cube.intersect_axis. cbv zeta.
    destruct (Z.max _ _ >=? Z.min _ _) eqn:E; cbn [fst snd]; lia.
Qed.

(** X4. A cell lies in [IntersectWith(a, b)] exactly when it lies in both
    [a] and [b]: replacing an inverted axis by [[0, 0)] loses no cell. *)
Theorem IntersectWith_inside n a b p :
  Ref.inside n (Cube.IntersectWith n a b) p
  = Ref.inside n a p && Ref.inside n b p.
Proof.
  apply eq_true_iff_eq. rewrite andb_true_iff. apply inside_both_iff.
Qed.

(** On [Z]: the volume of an intersection is never negative, and it is
    zero exactly when no cell lies in both boxes. *)
Lemma IntersectWith_empty_iff n a b :
  0 <= Cube.Volume n (Cube.IntersectWith n a b) /\
  (Cube.IsEmpty n (Cube.IntersectWith n a b) = true <->
   forall p, ~ (Ref.inside n a p = true /\ Ref.inside n b p = true)).
Proof.
  split.
  - rewrite Volume_prod. apply prod_upto_nonneg. intros k Hk.
    destruct (IntersectWith_axis n a b k Hk) as [-> ->].
    unfold Cube.intersect_axis. cbv zeta.
    destruct (Z.max _ _ >=? Z.min _ _) eqn:E; cbn [fst snd]; lia.
  - unfold Cube.IsEmpty. rewrite Z.eqb_eq. split.
    + intros H p Hp. apply inside_both_iff in Hp.
      rewrite inside_spec in Hp. rewrite Volume_prod in H.
      apply prod_upto_zero_inv in H as (k & Hk & H). specialize (Hp k Hk). lia.
    + intros H.
      destruct (Z.eq_dec (Cube.Volume n (Cube.IntersectWith n a b)) 0)
        as [E|E]; [exact E|]. exfalso.
      apply (H (Cube.l (Cube.IntersectWith n a b))).
      apply inside_both_iff. apply inside_spec.
      intros k Hk. rewrite Volume_prod in E.
      pose proof (prod_upto_nonzero _ _ E k Hk) as Ek. cbv beta in Ek.
      revert Ek. destruct (IntersectWith_axis n a b k Hk) as [-> ->].
      unfold Cube.intersect_axis. cbv zeta.
      destruct (Z.max _ _ >=? Z.min _ _) eqn:E'; cbn [fst snd]; lia.
Qed.

(** X6. [operator==] on two cubes of [n] axes is true exactly when they
    are the same cube (the bitwise [|] of the two comparisons misses no
    bound). *)
Theorem eqb_reflects_equality n c d :
  length (Cube.l c) = n -> length (Cube.r c) = n ->
  length (Cube.l d) = n -> length (Cube.r d) = n ->
  (Cube.eqb n c d = true <-> c = d).
Proof.
  intros Hlc Hrc Hld Hrd. split.
  - unfold Cube.eqb. rewrite forallb_forall. intros H.
    destruct c as [lc rc], d as [ld rd]. cbn [Cube.l Cube.r] in *.
    assert (Hax : forall k, (k < n)%nat ->
              nth k lc 0 = nth k ld 0 /\ nth k rc 0 = nth k rd 0).
    { intros k Hk. specialize (H k). rewrite in_seq in H.
      specialize (H ltac:(lia)). lia. }
    f_equal; apply (nth_ext _ _ 0 0); try congruence; intros k Hk;
      apply Hax; lia.
  - intros ->. apply eqb_axes. intros k _. split; reflexivity.
Qed.

Lemma eqb_reflects_equality_witness :
  Cube.eqb 2 (Cube.mk [0; 1] [2; 3]) (Cube.mk [0; 1] [2; 3]) = true <->
  Cube.mk [0; 1] [2; 3] = Cube.mk [0; 1] [2; 3].
Proof.
  apply (eqb_reflects_equality 2 (Cube.mk [0; 1] [2; 3]) (Cube.mk [0; 1] [2; 3]));
    reflexivity.
Defined.

(** On [Z]: for a cube with [l[k] <= r[k]] on every axis the volume is not
    negative, it is one exactly when every axis has extent one, and zero
    exactly when some axis has extent zero. *)
Lemma Volume_point_empty n d :
  (forall k, (k < n)%nat -> nth k (Cube.l d) 0 <= nth k (Cube.r d) 0) ->
  0 <= Cube.Volume n d /\
  (Cube.IsPoint n d = true <->
   forall k, (k < n)%nat -> nth k (Cube.r d) 0 = nth k (Cube.l d) 0 + 1) /\
  (Cube.IsEmpty n d = true <->
   exists k, (k < n)%nat /\ nth k (Cube.r d) 0 = nth k (Cube.l d) 0).
Proof.
  intros Hwf. unfold Cube.IsPoint, Cube.IsEmpty.
  rewrite !Z.eqb_eq, Volume_prod. split; [|split].
  - apply prod_upto_nonneg. intros k Hk. specialize (Hwf k Hk). lia.
  - split.
    + intros H k Hk.
      assert (Hne : prod_upto (fun i => nth i (Cube.r d) 0 - nth i (Cube.l d) 0) n
                    <> 0) by lia.
      pose proof (prod_upto_nonzero _ _ Hne) as Hnz. cbv beta in Hnz.
      assert (Hge : forall j, (j < n)%nat ->
                1 <= nth j (Cube.r d) 0 - nth j (Cube.l d) 0).
      { intros j Hj. specialize (Hwf j Hj). specialize (Hnz j Hj). lia. }
      pose proof (prod_upto_eq_1 _ _ Hge H k Hk) as H1. cbv beta in H1. lia.
    + intros H. apply prod_upto_ones. intros k Hk. specialize (H k Hk). lia.
  - split.
    + intros H. apply prod_upto_zero_inv in H as (k & Hk & H).
      exists k. split; [exact Hk|lia].
    + intros (k & Hk & H). apply (prod_upto_zero _ n k Hk). lia.
Qed.


Lemma array_lt_head x a y b : Cube.array_lt (x :: a) (y :: b) = false -> y <= x.
Proof.
  cbn [Cube.array_lt]. destruct (x <? y) eqn:E; [discriminate|]. lia.
Qed.

(** X8. [IsDisjointFrom] on cubes of [n] axes compares the bound arrays as
    wholes, in lexicographic order.  When it answers true the two boxes are
    apart on the first axis and share no cell; with a single axis and two
    non-empty boxes it answers false only when they do share a cell.  (With
    more axes it can answer false for boxes that share no cell.) *)
Theorem IsDisjointFrom_sound n c other :
  length (Cube.l c) = n -> length (Cube.r c) = n ->
  length (Cube.l other) = n -> length (Cube.r other) = n ->
  (Cube.IsDisjointFrom n c other = true ->
   forall p, ~ (Ref.inside n c p = true /\ Ref.inside n other p = true)) /\
  (n = 1%nat ->
   nth 0 (Cube.l c) 0 < nth 0 (Cube.r c) 0 ->
   nth 0 (Cube.l other) 0 < nth 0 (Cube.r other) 0 ->
   Cube.IsDisjointFrom n c other = false ->
   exists p, Ref.inside n c p = true /\ Ref.inside n other p = true).
Proof.
  intros Hlc Hrc Hlo Hro. destruct c as [lc rc], other as [lo ro].
  cbn [Cube.l Cube.r] in *. unfold Cube.IsDisjointFrom. cbn [Cube.l Cube.r].
  split.
  - intros H p [Hc Ho]. apply existsb_exists in H as (x & Hx & H).
    apply in_seq in Hx. rewrite inside_spec in Hc, Ho.
    specialize (Hc 0%nat ltac:(lia)). specialize (Ho 0%nat ltac:(lia)).
    cbn [Cube.l Cube.r] in Hc, Ho.
    destruct lc as [|lc0 lc], rc as [|rc0 rc], lo as [|lo0 lo], ro as [|ro0 ro];
      cbn [length] in *; try lia.
    cbn [nth] in Hc, Ho. apply orb_true_iff in H as [H|H];
      apply negb_true_iff, array_lt_head in H; lia.
  - intros -> Hc Ho H.
    destruct lc as [|lc0 [|? ?]], rc as [|rc0 [|? ?]], lo as [|lo0 [|? ?]],
             ro as [|ro0 [|? ?]]; try discriminate.
    cbn [nth] in Hc, Ho. unfold Cube.array_ge, Cube.array_le in H. cbn in H.
    assert (Hlt : lo0 < rc0 /\ lc0 < ro0).
    { destruct (lo0 <? rc0) eqn:E1, (rc0 <? lo0) eqn:E2,
               (lc0 <? ro0) eqn:E3, (ro0 <? lc0) eqn:E4;
        cbn in H; try discriminate; lia. }
    exists [Z.max lc0 lo0].
    split; apply inside_spec; intros k Hk; destruct k as [|k]; try lia;
      cbn [nth Cube.l Cube.r]; lia.
Qed.

Lemma IsDisjointFrom_sound_witness :
  Cube.IsDisjointFrom 2 (Cube.mk [0; 0] [2; 2]) (Cube.mk [3; 0] [5; 2]) = true /\
  forall p, ~ (Ref.inside 2 (Cube.mk [0; 0] [2; 2]) p = true /\
               Ref.inside 2 (Cube.mk [3; 0] [5; 2]) p = true).
Proof.
  split; [reflexivity|].
  apply (IsDisjointFrom_sound 2 (Cube.mk [0; 0] [2; 2])
           (Cube.mk [3; 0] [5; 2])); reflexivity.
Defined.

(** ** Construction *)

Lemma fold_left_ext_in {A B} (f g : A -> B -> A) xs a :
  (forall acc x, In x xs -> f acc x = g acc x) ->
  fold_left f xs a = fold_left g xs a.
Proof.
  revert a. induction xs as [|x xs IH]; intros a H; [reflexivity|].
  cbn [fold_left]. rewrite H by (left; reflexivity).
  apply IH. intros acc y Hy. apply H. right. exact Hy.
Qed.

Lemma fold_left_map {A B C} (f : A -> B -> A) (g : C -> B) xs a :
  fold_left f (map g xs) a = fold_left (fun acc x => f acc (g x)) xs a.
Proof.
  revert a. induction xs as [|x xs IH]; intros a; [reflexivity|].
  cbn [map fold_left]. apply IH.
Qed.

(** X9. With at least one axis, and every extent equal to the next one
    (a single axis, or a grid with the same extent on all axes), [Linear]
    is the row-major index; in general it multiplies by [dims[i]] where
    row-major order multiplies by [dims[i+1]]. *)
Theorem Linear_row_major n st coords :
  (1 <= n)%nat ->
  (forall i, (S i < n)%nat -> nth i (dims st) 0 = nth (S i) (dims st) 0) ->
  Linear n st coords = Ref.row_major n (dims st) coords.
Proof.
  intros Hn Heq. destruct n as [|m]; [lia|].
  unfold Linear, Ref.row_major.
  replace (S m - 1)%nat with m by lia.
  rewrite <- cons_seq. cbn [fold_left]. rewrite <- seq_shift, fold_left_map.
  rewrite Z.mul_0_l, Z.add_0_l.
  apply fold_left_ext_in. intros acc i Hi. apply in_seq in Hi.
  rewrite (Heq i) by lia. replace (i + 1)%nat with (S i) by lia. lia.
Qed.

Lemma Linear_row_major_witness :
  Linear 2 (mk (Cube.mk [0; 0] [4; 4]) [] []) [3; 1]
  = Ref.row_major 2 (dims (mk (Cube.mk [0; 0] [4; 4]) [] [])) [3; 1].
Proof.
  apply (Linear_row_major 2 (mk (Cube.mk [0; 0] [4; 4]) [] []) [3; 1]).
  - lia.
  - intros i Hi. destruct i as [|i]; [reflexivity|lia].
Defined.





(** ** Updates and queries that return *)

Section ApplyTotal.
Variable n : nat.
Variable len : nat.

Lemma UpdateValueFromBelow_total v st :
  sized len st -> 0 <= v < Z.of_nat len ->
  (forall i, 0 <= i < N n -> 0 <= Child n v i < Z.of_nat len) ->
  exists st', UpdateValueFromBelow n v st = Ok (tt, st') /\ sized len st'.
Proof.
  intros Hs Hv Hc. unfold UpdateValueFromBelow.
  destruct (for_each_total (fun s => s = st) (range (N n))
              (fun i sum => x <- get_tree (Child n v i) ;; ret (sum + x)))
    with (acc := 0) (st := st) as (sum & s1 & H1 & ->); [|reflexivity|].
  { intros i acc s Hi ->. apply in_range in Hi.
    destruct (get_tree_total len _ st Hs (Hc i Hi)) as [x Hx].
    exists (acc + x), st. split; [|reflexivity].
    erewrite bind_Ok by exact Hx. reflexivity. }
  destruct (set_tree_total len v sum st Hs Hv) as (st' & H2 & Hs').
  exists st'. split; [|exact Hs']. erewrite bind_Ok by exact H1. exact H2.
Qed.

Lemma EvaluateAny_total v domain op st :
  sized len st -> 0 <= v < Z.of_nat len ->
  exists st', EvaluateAny n v domain op st = Ok (tt, st') /\ sized len st'.
Proof.
  intros Hs Hv. unfold EvaluateAny.
  destruct (get_op_total len v st Hs Hv) as [o Ho].
  destruct (set_op_total len v (Operation.ComposeWith o op) st Hs Hv)
    as (s1 & H1 & Hs1).
  destruct (UpdateValueFromAbove_total n len v domain s1 Hs1 Hv)
    as (s2 & H2 & Hs2).
  erewrite bind_Ok by exact Ho. erewrite bind_Ok by exact H1.
  erewrite bind_Ok by exact H2.
  destruct (Cube.IsPoint n domain).
  - destruct (get_op_total len v s2 Hs2 Hv) as [o' Ho'].
    destruct (set_op_total len v (Operation.Reset o') s2 Hs2 Hv)
      as (s3 & H3 & Hs3).
    exists s3. split; [|exact Hs3]. erewrite bind_Ok by exact Ho'. exact H3.
  - exists s2. split; [reflexivity|exact Hs2].
Qed.

Lemma ApplyOperationR_total h d v q op st :
  built n len h d v -> sized len st ->
  Client.contained n q d -> Cube.Volume n q <> 0 ->
  exists st', ApplyOperationR n h v q d op st = Ok (tt, st') /\ sized len st'.
Proof.
  revert d v q st. induction h as [|h IH]; intros d v q st Hb Hs Hc Hq;
    [inversion Hb|].
  rewrite ApplyOperationR_S. destruct (Cube.eqb n q d) eqn:Heq.
  - apply EvaluateAny_total; [exact Hs|]. eapply built_bounds, Hb.
  - inversion Hb as [h' d' v' Hpt Hv|h' d' v' Hpt Hv Hch]; subst.
    { rewrite (contained_in_point n q d Hc Hq Hpt) in Heq. discriminate. }
    assert (Hcb : forall i, 0 <= i < N n -> 0 <= Child n v i < Z.of_nat len)
      by (intros i Hi; eapply built_bounds, Hch, Hi).
    destruct (Push_total n len v d (Cube.Subdivide n d) st Hs Hv Hcb)
      as (s1 & H1 & Hs1).
    erewrite bind_Ok by exact H1.
    destruct (for_each_total (sized len) (range (N n))
      (fun i (_ : unit) =>
         if negb (Cube.IsEmpty n
                    (Cube.IntersectWith n (Cube.at_ (Cube.Subdivide n d) i) q))
         then ApplyOperationR n h (Child n v i)
                (Cube.IntersectWith n (Cube.at_ (Cube.Subdivide n d) i) q)
                (Cube.at_ (Cube.Subdivide n d) i) op
         else ret tt)) with (acc := tt) (st := s1)
      as ([] & s2 & H2 & Hs2); [|exact Hs1|].
    { intros i [] s Hi Hsz. apply in_range in Hi.
      destruct (negb (Cube.IsEmpty n _)) eqn:Hne.
      - apply negb_true_iff, Z.eqb_neq in Hne.
        destruct (IH _ _ _ s (Hch i Hi) Hsz
                    (IntersectWith_contained n _ _ Hne) Hne) as (s' & Hy & Hs').
        exists tt, s'. split; assumption.
      - exists tt, s. split; [reflexivity|exact Hsz]. }
    erewrite bind_Ok by exact H2.
    apply UpdateValueFromBelow_total; assumption.
Qed.

End ApplyTotal.



Lemma eqb_Volume n q d :
  Cube.eqb n q d = true -> Cube.Volume n q = Cube.Volume n d.
Proof.
  unfold Cube.eqb. rewrite forallb_forall. intros H.
  rewrite !Volume_prod. apply prod_upto_ext. intros k Hk.
  specialize (H k). rewrite in_seq in H. specialize (H ltac:(lia)). lia.
Qed.

Lemma IntersectWith_empty_operand n a q :
  Cube.Volume n q = 0 -> Cube.Volume n (Cube.IntersectWith n a q) = 0.
Proof.
  intros H. rewrite Volume_prod in H.
  apply prod_upto_zero_inv in H as (k & Hk & H).
  rewrite Volume_prod. apply (prod_upto_zero _ n k Hk).
  destruct (IntersectWith_axis n a q k Hk) as [-> ->].
  unfold Cube.intersect_axis. cbv zeta.
  destruct (Z.max _ _ >=? Z.min _ _) eqn:E; cbn [fst snd]; lia.
Qed.

Lemma for_each_skip_all {A} (cond : Z -> bool) (code : Z -> A -> M A) xs acc st :
  (forall i, In i xs -> cond i = false) ->
  for_each xs (fun i a => if cond i then code i a else ret a) acc st
  = Ok (acc, st).
Proof.
  induction xs as [|i xs IH]; intros H; [reflexivity|].
  rewrite for_each_cons, (H i) by (left; reflexivity).
  erewrite bind_Ok by reflexivity.
  apply IH. intros j Hj. apply H. right. exact Hj.
Qed.

Lemma reachable_Volume_pos n st :
  Client.reachable n st -> 0 < Cube.Volume n (entire_domain_ st).
Proof.
  induction 1 as [fuel arr dims st H|fuel D op st st' _ IH H|fuel D st x st' _ IH H].
  - apply new_inv in H as (st0 & Hsize & -> & H).
    destruct (touches_BuildTreeR n _ _ _ _ _ _ _ H) as [(He & _) _].
    rewrite He. cbn [entire_domain_].
    destruct (Z.eq_dec (Cube.Volume n (Cube.mk (repeat 0 n) dims)) 0) as [E|E];
      [|lia].
    rewrite BuildTreeR_empty_never_returns in H by exact E. discriminate.
  - apply touches_ApplyOperationR in H as [(He & _) _]. rewrite He. exact IH.
  - apply touches_QueryRangeR in H as [(He & _) _]. rewrite He. exact IH.
Qed.



(** ** Reading the cells back after construction *)

Lemma get_arr_inv arr k st x st' :
  get_arr arr k st = Ok (x, st') -> vec_get arr k = Some x /\ st' = st.
Proof.
  unfold get_arr. destruct (vec_get arr k); [|discriminate].
  intros H. injection H as -> ->. split; reflexivity.
Qed.

Lemma vec_get_repeat {A} (x : A) k v :
  0 <= v < Z.of_nat k -> vec_get (repeat x k) v = Some x.
Proof.
  intros Hv. unfold vec_get. destruct (v <? 0) eqn:E; [lia|].
  assert (Hi : (Z.to_nat v < k)%nat) by lia. clear Hv E.
  revert k Hi. induction (Z.to_nat v) as [|i IH]; intros [|k] Hi; try lia.
  - reflexivity.
  - cbn. apply IH. lia.
Qed.

Lemma sum_where_one cond (P : Z -> Z -> Prop) xs i0 y acc :
  In i0 xs -> cond i0 = true -> P i0 y ->
  (forall i, In i xs -> i <> i0 -> cond i = false) ->
  NoDup xs ->
  sum_where cond P xs acc (acc + y).
Proof.
  revert acc. induction xs as [|i xs IH]; intros acc Hin Hc HP Hoth Hnd;
    [destruct Hin|].
  apply NoDup_cons in Hnd as [Hnotin Hnd]. rewrite list_elem_of_In in Hnotin.
  cbn [sum_where]. destruct (Z.eq_dec i i0) as [->|Hne].
  - rewrite Hc. exists y. split; [exact HP|].
    clear IH Hin. revert Hoth Hnotin. generalize (acc + y).
    induction xs as [|j xs IHxs]; intros a Hoth Hnotin; [reflexivity|].
    cbn [sum_where]. rewrite (Hoth j).
    + apply IHxs.
      * apply NoDup_cons in Hnd as [_ Hnd]. exact Hnd.
      * intros k Hk. apply Hoth. destruct Hk as [<-|Hk];
          [left; reflexivity|right; right; exact Hk].
      * intros Hk. apply Hnotin. right. exact Hk.
    + right. left. reflexivity.
    + intros ->. apply Hnotin. left. reflexivity.
  - rewrite (Hoth i) by first [left; reflexivity | exact Hne].
    destruct Hin as [Heq|Hin]; [congruence|].
    apply IH; try assumption.
    intros k Hk. apply Hoth. right. exact Hk.
Qed.

Section ReadBack.
Variable n : nat.

Lemma Linear_entire st st' coords :
  entire_domain_ st' = entire_domain_ st ->
  Linear n st' coords = Linear n st coords.
Proof. intros H. unfold Linear, dims. rewrite H. reflexivity. Qed.

Lemma Linear_ext st a b :
  (1 <= n)%nat -> (forall k, (k < n)%nat -> nth k a 0 = nth k b 0) ->
  Linear n st a = Linear n st b.
Proof.
  intros Hn H. unfold Linear. rewrite (H 0%nat) by lia.
  apply fold_left_ext_in. intros acc i Hi. apply in_seq in Hi.
  rewrite (H (i + 1)%nat) by lia. reflexivity.
Qed.

Lemma grown_root arr st h d v :
  grown n arr st h d v -> is_Some (vec_get (tree_ st) v).
Proof. intros H. destruct H as [h d v x _ _ Hx|h d v _ Hv _]; [eauto|exact Hv]. Qed.

(** [grown] looks at the extents and at the values in the subtree of [v]. *)
Lemma grown_frame arr st st' h d v :
  entire_domain_ st' = entire_domain_ st ->
  (forall w, desc n v w -> vec_get (tree_ st') w = vec_get (tree_ st) w) ->
  grown n arr st h d v -> grown n arr st' h d v.
Proof.
  intros He. revert d v. induction h as [|h IH]; intros d v Hag H;
    inversion H as [h' d' v' x Hpt Hx Hv|h' d' v' Hpt Hv Hch]; subst.
  - apply grown_point with (x := x); [exact Hpt| |].
    + rewrite (Linear_entire st st' _ He). exact Hx.
    + rewrite (Hag v (desc_refl n v)). exact Hv.
  - apply grown_node; [exact Hpt| |].
    + rewrite (Hag v (desc_refl n v)). exact Hv.
    + intros i Hi. apply IH; [|apply Hch, Hi].
      intros w Hw. apply Hag. eapply desc_Child; eassumption.
Qed.

Lemma UpdateValueFromBelow_operations v st u st' :
  UpdateValueFromBelow n v st = Ok (u, st') -> operations_ st' = operations_ st.
Proof.
  unfold UpdateValueFromBelow. intros H.
  apply bind_inv in H as (sum & s1 & H1 & H2).
  apply set_tree_inv in H2 as [_ ->]. cbn [operations_].
  eapply (for_each_preserve (fun s => operations_ s = operations_ st));
    [|exact H1|reflexivity].
  intros j acc s a s' _ Hrun Hs.
  apply bind_inv in Hrun as (x & s2 & Hg & Hr).
  apply get_tree_inv in Hg as [_ ->]. apply ret_inv in Hr as [_ ->]. exact Hs.
Qed.

(** The constructor's recursion leaves every pending operation alone. *)
Lemma BuildTreeR_operations fuel arr d v st u st' :
  BuildTreeR n fuel arr d v st = Ok (u, st') -> operations_ st' = operations_ st.
Proof.
  revert d v st u st'. induction fuel as [|fuel IH]; intros d v st u st' H;
    [discriminate|].
  rewrite BuildTreeR_S in H. destruct (Cube.IsPoint n d).
  - apply bind_inv in H as (x & s1 & H1 & H2).
    apply get_arr_inv in H1 as [_ ->]. apply set_tree_inv in H2 as [_ ->].
    reflexivity.
  - apply bind_inv in H as ([] & s1 & H1 & H2).
    apply UpdateValueFromBelow_operations in H2. rewrite H2.
    eapply (for_each_preserve (fun s => operations_ s = operations_ st));
      [|exact H1|reflexivity].
    intros j acc s a s' _ Hrun Hs. destruct a.
    rewrite (IH _ _ _ _ _ Hrun). exact Hs.
Qed.

(** What the constructor's recursion has written when it returns. *)
Lemma BuildTreeR_grown fuel arr d v st u st' :
  BuildTreeR n fuel arr d v st = Ok (u, st') -> grown n arr st' fuel d v.
Proof.
  revert d v st u st'. induction fuel as [|fuel IH]; intros d v st u st' H;
    [discriminate|].
  pose proof (BuildTreeR_writes n _ _ _ _ _ _ _ H) as Hroot.
  assert (Hv : 0 <= v) by (apply vec_get_bounds in Hroot; lia).
  rewrite BuildTreeR_S in H. destruct (Cube.IsPoint n d) eqn:Hpt.
  - apply bind_inv in H as (x & s1 & H1 & H2).
    apply get_arr_inv in H1 as [Hx ->]. apply set_tree_inv in H2 as [Hb ->].
    apply grown_point with (x := x); [exact Hpt|exact Hx|].
    cbn [tree_]. apply vec_get_insert_eq, Hb.
  - apply bind_inv in H as ([] & s1 & Hloop & Hup).
    destruct (touches_UpdateValueFromBelow n v _ _ _ Hup) as [(He & _) Hag].
    apply grown_node; [exact Hpt|exact Hroot|]. intros i Hi.
    apply (grown_frame arr s1 st'); [exact He| |].
    { intros w Hw. apply Hag. intros <-.
      exact (parent_not_desc n v i Hv Hi Hw). }
    apply (for_each_establish
             (fun i s => grown n arr s fuel
                           (Cube.at_ (Cube.Subdivide n d) i) (Child n v i))
             (range (N n))
             (fun i (_ : unit) =>
                BuildTreeR n fuel arr (Cube.at_ (Cube.Subdivide n d) i)
                           (Child n v i)) (NoDup_range _))
      with (acc := tt) (st := st) (a := tt);
      [| |exact Hloop|apply in_range, Hi].
    + intros j acc s a s' _ Hrun. destruct a. eapply IH, Hrun.
    + intros j k acc s a s' Hj Hk Hjk Hrun.
      apply in_range in Hj, Hk.
      destruct (touches_BuildTreeR n _ _ _ _ _ _ _ Hrun) as [(He' & _) Hag'].
      apply grown_frame; [exact He'|].
      intros w Hw. apply Hag'.
      exact (siblings_disjoint n v j k w Hv Hj Hk Hjk Hw).
Qed.

Lemma unit_at_Volume c q : unit_at n c q -> Cube.Volume n q = 1.
Proof.
  intros H. rewrite Volume_prod. apply prod_upto_ones.
  intros k Hk. destruct (H k Hk) as [-> ->]. lia.
Qed.

Lemma unit_at_contained c q d :
  unit_at n c q -> Ref.inside n d c = true -> Client.contained n q d.
Proof.
  intros Hq Hd k Hk. rewrite inside_spec in Hd.
  specialize (Hd k Hk). destruct (Hq k Hk) as [-> ->]. lia.
Qed.

Lemma unit_at_IntersectWith c q a :
  unit_at n c q -> Ref.inside n a c = true ->
  unit_at n c (Cube.IntersectWith n a q).
Proof.
  intros Hq Ha k Hk. rewrite inside_spec in Ha. specialize (Ha k Hk).
  destruct (Hq k Hk) as [El Er].
  destruct (IntersectWith_axis n a q k Hk) as [-> ->].
  unfold Cube.intersect_axis. cbv zeta. rewrite El, Er.
  destruct (Z.max _ _ >=? Z.min _ _) eqn:E; cbn [fst snd]; lia.
Qed.

Lemma unit_at_IntersectWith_nonempty c q a :
  unit_at n c q -> Cube.Volume n (Cube.IntersectWith n a q) <> 0 ->
  Ref.inside n a c = true.
Proof.
  intros Hq Hne. apply inside_spec. intros k Hk.
  rewrite Volume_prod in Hne.
  pose proof (prod_upto_nonzero _ _ Hne k Hk) as Ek. cbv beta in Ek.
  revert Ek. destruct (Hq k Hk) as [El Er].
  destruct (IntersectWith_axis n a q k Hk) as [-> ->].
  unfold Cube.intersect_axis. cbv zeta. rewrite El, Er.
  destruct (Z.max _ _ >=? Z.min _ _) eqn:E; cbn [fst snd]; lia.
Qed.

(** The orthant in which a cell of a well-formed cube lies. *)
Lemma orthant_of_cell d p :
  Ref.inside n d p = true ->
  exists i0, 0 <= i0 < N n /\
    Ref.inside n (Cube.at_ (Cube.Subdivide n d) i0) p = true /\
    forall j, 0 <= j < N n ->
      Ref.inside n (Cube.at_ (Cube.Subdivide n d) j) p = true -> j = i0.
Proof.
  intros Hp.
  assert (Hwf : forall k, (k < n)%nat -> nth k (Cube.l d) 0 <= nth k (Cube.r d) 0).
  { intros k Hk. rewrite inside_spec in Hp. specialize (Hp k Hk). lia. }
  destruct (exists_index
              (fun k => nth k p 0
                        <? Z.quot (nth k (Cube.l d) 0 + nth k (Cube.r d) 0) 2) n)
    as (i & Hi & Hb).
  rewrite <- N_eq in Hi. exists i. split; [exact Hi|]. split.
  - apply inside_orthant; [exact Hwf|exact Hi|]. split; [exact Hp|exact Hb].
  - intros j Hj Hin. apply inside_orthant in Hin as [_ Hbj]; [|assumption..].
    rewrite N_eq in Hi, Hj. apply (testbit_inj_below n); [assumption..|].
    intros k Hk. rewrite Hb, Hbj by exact Hk. reflexivity.
Qed.

(** On a freshly built tree with no pending operation anywhere, the query
    of the unit cube at a cell of the node's domain is settled on the
    array entry the build stored for that cell. *)
Lemma grown_unit_settled arr st c :
  (1 <= n)%nat ->
  (forall w, is_Some (vec_get (tree_ st) w) ->
     vec_get (operations_ st) w = Some (Operation.mk false 0)) ->
  forall h d v q,
    grown n arr st h d v -> unit_at n c q -> Ref.inside n d c = true ->
    exists x, vec_get arr (Linear n st c) = Some x /\ Settled n h v q d x st.
Proof.
  intros Hn Hops. induction h as [|h IH]; intros d v q Hg Hq Hd;
    [inversion Hg|].
  cbn [Settled]. destruct (Cube.eqb n q d) eqn:Heq.
  - assert (Hax : forall k, (k < n)%nat ->
              nth k (Cube.l d) 0 = nth k c 0 /\ nth k (Cube.r d) 0 = nth k c 0 + 1).
    { intros k Hk. destruct (Hq k Hk) as [El Er].
      unfold Cube.eqb in Heq. rewrite forallb_forall in Heq.
      specialize (Heq k). rewrite in_seq in Heq. specialize (Heq ltac:(lia)). lia. }
    inversion Hg as [h' d' v' x Hpt Hx Hv|h' d' v' Hpt Hv Hch]; subst.
    + exists x. split; [|exact Hv].
      rewrite <- (Linear_ext st (Cube.l d) c Hn); [exact Hx|].
      intros k Hk. apply Hax, Hk.
    + unfold Cube.IsPoint in Hpt. rewrite (unit_at_Volume c d Hax) in Hpt.
      discriminate.
  - inversion Hg as [h' d' v' x Hpt Hx Hv|h' d' v' Hpt Hv Hch]; subst.
    { rewrite (contained_in_point n q d (unit_at_contained c q d Hq Hd)) in Heq;
        [discriminate| |exact Hpt].
      rewrite (unit_at_Volume c q Hq). discriminate. }
    destruct (orthant_of_cell d c Hd) as (i0 & Hi0 & Hin0 & Huniq).
    destruct (IH _ _ (Cube.IntersectWith n (Cube.at_ (Cube.Subdivide n d) i0) q)
                (Hch i0 Hi0) (unit_at_IntersectWith c q _ Hq Hin0) Hin0)
      as (x & Hx & Hset).
    exists x. split; [exact Hx|]. split.
    + split; [apply Hops, Hv|]. split; [exact Hv|].
      intros i Hi. pose proof (grown_root _ _ _ _ _ (Hch i Hi)) as Hc.
      split; [rewrite (Hops _ Hc); eexists; reflexivity|].
      intros _. split; [apply Hops, Hc|exact Hc].
    + apply (sum_where_one _ _ (range (N n)) i0 x 0).
      * apply in_range, Hi0.
      * apply negb_true_iff, Z.eqb_neq.
        rewrite (unit_at_Volume c _ (unit_at_IntersectWith c q _ Hq Hin0)).
        discriminate.
      * exact Hset.
      * intros i Hi Hne. apply in_range in Hi.
        apply negb_false_iff, Z.eqb_eq.
        destruct (Z.eq_dec (Cube.Volume n
                    (Cube.IntersectWith n (Cube.at_ (Cube.Subdivide n d) i) q)) 0)
          as [E|E]; [exact E|].
        exfalso. apply Hne, Huniq; [exact Hi|].
        eapply unit_at_IntersectWith_nonempty; eassumption.
      * apply NoDup_range.
Qed.

End ReadBack.

(** [Get] on the structure just built reads the stored entry. *)
Lemma Get_after_new n fuel arr dims st c :
  (1 <= n)%nat ->
  new n fuel arr dims = Ok st ->
  Ref.inside n (entire_domain_ st) c = true ->
  exists x, vec_get arr (Linear n st c) = Some x /\
            Get n fuel c st = Ok (x, st).
Proof.
  intros Hn Hnew Hc. apply new_inv in Hnew as (st0 & Hsize & -> & H).
  pose proof (BuildTreeR_operations n _ _ _ _ _ _ _ H) as Hops.
  destruct (touches_BuildTreeR n _ _ _ _ _ _ _ H) as [(He & Ht & _) _].
  pose proof (BuildTreeR_grown n _ _ _ _ _ _ _ H) as Hg.
  cbn [entire_domain_ tree_ operations_] in *.
  destruct (grown_unit_settled n arr st c Hn) with
    (h := fuel) (d := entire_domain_ st) (v := 0)
    (q := Cube.mk c (map (fun i => nth i c 0 + 1) (seq 0 n)))
    as (x & Hx & Hset).
  - intros w Hw. rewrite Hops. apply vec_get_repeat.
    apply vec_get_bounds in Hw. rewrite Ht, repeat_length in Hw. exact Hw.
  - rewrite He. exact Hg.
  - intros k Hk. cbn [Cube.l Cube.r]. split; [reflexivity|].
    rewrite nth_map_seq by exact Hk. reflexivity.
  - exact Hc.
  - exists x. split; [exact Hx|]. unfold Get, QueryRange. cbv zeta.
    apply Settled_reads, Hset.
Qed.



(** ** A single axis *)

Lemma Subdivide_interval a b :
  Cube.at_ (Cube.Subdivide 1 (Cube.mk [a] [b])) 0
  = Cube.mk [Z.quot (a + b) 2] [b] /\
  Cube.at_ (Cube.Subdivide 1 (Cube.mk [a] [b])) 1
  = Cube.mk [a] [Z.quot (a + b) 2].
Proof. split; reflexivity. Qed.

(** With one axis the build over [[a, b)] returns when the node [v] sits
    at a level of [K] nodes that the interval is short enough to reach:
    [K] bounds the index, and the length of the interval bounds [K]. *)
Lemma BuildTreeR_interval_returns arr len size :
  Z.of_nat len = 4 * size ->
  forall fuel a b v K st,
    0 <= a < b -> b <= Z.of_nat (length arr) ->
    b - a <= Z.of_nat fuel ->
    1 <= K -> K < 2 * size -> (b - a - 1) * K < size ->
    0 <= v -> v + 2 <= 2 * K ->
    sized len st ->
    exists st', BuildTreeR 1 fuel arr (Cube.mk [a] [b]) v st = Ok (tt, st') /\
                sized len st'.
Proof.
  intros Hlen. induction fuel as [|fuel IH];
    intros a b v K st Hab Hb Hfuel HK HK2 Hsz Hv HvK Hs; [lia|].
  assert (Hvb : 0 <= v < Z.of_nat len) by lia.
  rewrite BuildTreeR_S. unfold Cube.IsPoint.
  change (Cube.Volume 1 (Cube.mk [a] [b])) with (1 * (b - a)).
  destruct (1 * (b - a) =? 1) eqn:Hpt.
  - assert (Hlin : Linear 1 st (Cube.l (Cube.mk [a] [b])) = a) by reflexivity.
    rewrite Hlin.
    destruct (proj2 (vec_get_bounds arr a)) as [x Hx]; [lia|].
    destruct (set_tree_total len v x st Hs Hvb) as (st' & Hset & Hs').
    exists st'. split; [|exact Hs'].
    erewrite bind_Ok by (unfold get_arr; rewrite Hx; reflexivity). exact Hset.
  - assert (Hm : a + 1 <= Z.quot (a + b) 2 <= b - 1 /\
                 2 * (b - Z.quot (a + b) 2 - 1) <= b - a - 1 /\
                 2 * (Z.quot (a + b) 2 - a - 1) <= b - a - 1).
    { Z.to_euclidean_division_equations. lia. }
    destruct Hm as (Hm & Hhi & Hlo).
    assert (HKs : K < size) by nia.
    destruct (Subdivide_interval a b) as [E0 E1].
    change (range (N 1)) with [0; 1].
    destruct (IH (Z.quot (a + b) 2) b (Child 1 v 0) (2 * K) st) as (s1 & H1 & Hs1);
      try (unfold Child; change (N 1) with 2; lia); try assumption; try lia; try nia.
    destruct (IH a (Z.quot (a + b) 2) (Child 1 v 1) (2 * K) s1) as (s2 & H2 & Hs2);
      try (unfold Child; change (N 1) with 2; lia); try assumption; try lia; try nia.
    destruct (UpdateValueFromBelow_total 1 len v s2 Hs2 Hvb) as (s3 & H3 & Hs3).
    { intros i Hi. unfold Child. change (N 1) with 2 in *. lia. }
    exists s3. split; [|exact Hs3].
    erewrite bind_Ok; [exact H3|].
    rewrite for_each_cons.
    erewrite bind_Ok by (cbv beta; rewrite E0; exact H1).
    rewrite for_each_cons.
    erewrite bind_Ok by (cbv beta; rewrite E1; exact H2). reflexivity.
Qed.

Lemma new_single_axis d arr :
  1 <= d -> d <= Z.of_nat (length arr) ->
  exists st, new 1 (Z.to_nat d) arr [d] = Ok st.
Proof.
  intros Hd Harr. unfold new.
  change (Cube.Volume 1 (Cube.mk (repeat 0 1) [d])) with (1 * (d - 0)).
  destruct (4 * (1 * (d - 0)) <? 0) eqn:E; [lia|]. cbv zeta.
  unfold BuildTree, dims. cbn [entire_domain_ Cube.r].
  change (repeat 0 1) with [0].
  destruct (BuildTreeR_interval_returns arr (Z.to_nat (4 * (1 * (d - 0)))) d
              ltac:(lia) (Z.to_nat d) 0 d 0 1
              (mk (Cube.mk [0] [d])
                  (repeat 0 (Z.to_nat (4 * (1 * (d - 0)))))
                  (repeat Operation.default (Z.to_nat (4 * (1 * (d - 0)))))))
    as (st' & H & _); try lia.
  { split; cbn [tree_ operations_]; apply repeat_length. }
  exists st'. rewrite H. reflexivity.
Qed.



(** ** Assigning and asking *)

Lemma sum_where_all cond (P : Z -> Z -> Prop) (g : Z -> Z) xs acc :
  (forall i, In i xs -> cond i = true -> P i (g i)) ->
  sum_where cond P xs acc
    (acc + Zsum (map (fun i => if cond i then g i else 0) xs)).
Proof.
  revert acc. induction xs as [|i xs IH]; intros acc H.
  - cbn. lia.
  - cbn [sum_where map]. rewrite Zsum_cons. destruct (cond i) eqn:Hc.
    + exists (g i). split; [apply H; [left; reflexivity|exact Hc]|].
      replace (acc + (g i + Zsum (map (fun i => if cond i then g i else 0) xs)))
        with (acc + g i + Zsum (map (fun i => if cond i then g i else 0) xs))
        by lia.
      apply IH. intros j Hj. apply H. right. exact Hj.
    + replace (acc + (0 + Zsum (map (fun i => if cond i then g i else 0) xs)))
        with (acc + Zsum (map (fun i => if cond i then g i else 0) xs)) by lia.
      apply IH. intros j Hj. apply H. right. exact Hj.
Qed.

Section AssignSettles.
Variable n : nat.

(** The parts of a domain in the orthants of a cube that contains it have
    volumes that add up to the volume of the domain. *)
Lemma Volume_split q d :
  Client.contained n q d ->
  Zsum (map (fun i => Cube.Volume n
                        (Cube.IntersectWith n
                           (Cube.at_ (Cube.Subdivide n d) i) q))
            (range (N n)))
  = Cube.Volume n q.
Proof.
  intros Hc.
  rewrite (Zsum_map_ext _
    (fun i => prod_upto
       (fun k =>
          if Z.testbit i (Z.of_nat k)
          then Z.max 0 (Z.min (Z.quot (nth k (Cube.l d) 0 + nth k (Cube.r d) 0) 2)
                              (nth k (Cube.r q) 0)
                        - Z.max (nth k (Cube.l d) 0) (nth k (Cube.l q) 0))
          else Z.max 0 (Z.min (nth k (Cube.r d) 0) (nth k (Cube.r q) 0)
                        - Z.max (Z.quot (nth k (Cube.l d) 0 + nth k (Cube.r d) 0) 2)
                                (nth k (Cube.l q) 0))) n)).
  - rewrite N_eq, Zsum_orthant_products, Volume_prod.
    apply prod_upto_ext. intros k Hk. specialize (Hc k Hk).
    pose proof (midpoint_between (nth k (Cube.l d) 0) (nth k (Cube.r d) 0)
                  ltac:(lia)).
    lia.
  - intros i Hi. apply in_range in Hi. rewrite Volume_prod.
    apply prod_upto_ext. intros k Hk.
    destruct (IntersectWith_axis n (Cube.at_ (Cube.Subdivide n d) i) q k Hk)
      as [-> ->].
    unfold Cube.intersect_axis. cbv zeta.
    destruct (orthant_axis n d i k Hi Hk) as [-> ->].
    destruct (Z.testbit i (Z.of_nat k));
      destruct (Z.max _ _ >=? Z.min _ _) eqn:E; cbn [fst snd]; lia.
Qed.

Lemma EvaluateAny_assign v q val st u st' :
  EvaluateAny n v q (Operation.mk true val) st = Ok (u, st') ->
  vec_get (tree_ st') v = Some (val * Cube.Volume n q) /\
  (Cube.IsPoint n q = true ->
   vec_get (operations_ st') v = Some (Operation.mk false 0)).
Proof.
  unfold EvaluateAny. intros H.
  apply bind_inv in H as (o & s1 & H1 & H). apply get_op_inv in H1 as [_ ->].
  apply bind_inv in H as ([] & s2 & H2 & H). apply set_op_inv in H2 as [Hv ->].
  apply bind_inv in H as ([] & s3 & H3 & H).
  unfold UpdateValueFromAbove in H3.
  apply bind_inv in H3 as (o' & s4 & H4 & H3). apply get_op_inv in H4 as [Ho' ->].
  apply bind_inv in H3 as (x & s5 & H5 & H3). apply get_tree_inv in H5 as [_ ->].
  apply set_tree_inv in H3 as [Hvt ->].
  cbn [operations_ tree_ entire_domain_] in *.
  rewrite vec_get_insert_eq in Ho' by exact Hv. injection Ho' as <-.
  assert (Ht : vec_get
            (<[Z.to_nat v := Operation.Evaluate n
                               (Operation.ComposeWith o (Operation.mk true val))
                               x q]> (tree_ st)) v
          = Some (val * Cube.Volume n q)).
  { rewrite vec_get_insert_eq by exact Hvt. unfold Operation.Evaluate,
      Operation.ComposeWith. cbn. f_equal. lia. }
  destruct (Cube.IsPoint n q).
  - apply bind_inv in H as (o2 & s6 & H6 & H). apply get_op_inv in H6 as [_ ->].
    apply set_op_inv in H as [Hv' ->]. cbn [operations_ tree_].
    split; [exact Ht|]. intros _. apply vec_get_insert_eq. exact Hv'.
  - apply ret_inv in H as [_ ->]. cbn [operations_ tree_].
    split; [exact Ht|discriminate].
Qed.

(** The loop of [ApplyOperationR] over the children [xs] of [v], given
    what the recursive calls leave behind. *)
Lemma assign_loop_settles fuel v q quads val :
  (forall c qs quad s s',
     ApplyOperationR n fuel c qs quad (Operation.mk true val) s = Ok (tt, s') ->
     Client.contained n qs quad ->
     Settled n fuel c qs quad (val * Cube.Volume n qs) s' /\
     (Cube.IsPoint n quad = true ->
      vec_get (operations_ s') c = Some (Operation.mk false 0))) ->
  0 <= v ->
  forall xs, NoDup xs -> (forall i, In i xs -> 0 <= i < N n) ->
  forall s s',
    for_each xs
      (fun i (_ : unit) =>
         if negb (Cube.IsEmpty n (Cube.IntersectWith n (Cube.at_ quads i) q))
         then ApplyOperationR n fuel (Child n v i)
                (Cube.IntersectWith n (Cube.at_ quads i) q)
                (Cube.at_ quads i) (Operation.mk true val)
         else ret tt) tt s = Ok (tt, s') ->
    same_shape s s' /\
    agree_outside (fun w => exists i, In i xs /\ desc n (Child n v i) w) s s' /\
    forall i, In i xs ->
      (negb (Cube.IsEmpty n (Cube.IntersectWith n (Cube.at_ quads i) q)) = true ->
       Settled n fuel (Child n v i)
         (Cube.IntersectWith n (Cube.at_ quads i) q) (Cube.at_ quads i)
         (val * Cube.Volume n (Cube.IntersectWith n (Cube.at_ quads i) q)) s') /\
      (child_pushed n v quads i s -> child_pushed n v quads i s').
Proof.
  intros IHf Hv. induction xs as [|i xs IHxs]; intros Hnd Hr s s' H.
  - apply ret_inv in H as [_ ->].
    split; [apply same_shape_refl|]. split; [apply agree_outside_refl|].
    intros i [].
  - apply NoDup_cons in Hnd as [Hnotin Hnd]. rewrite list_elem_of_In in Hnotin.
    assert (Hi : 0 <= i < N n) by (apply Hr; left; reflexivity).
    assert (Hr' : forall j, In j xs -> 0 <= j < N n)
      by (intros j Hj; apply Hr; right; exact Hj).
    rewrite for_each_cons in H. apply bind_inv in H as ([] & s1 & H1 & H2).
    destruct (IHxs Hnd Hr' _ _ H2) as (Hsh & Hag & Hrest).
    assert (Hframe : forall w, desc n (Child n v i) w -> agree_at s1 s' w).
    { intros w Hw. apply Hag. intros (j & Hj & Hwj).
      refine (siblings_disjoint n v i j w Hv Hi (Hr' j Hj) _ Hw Hwj).
      intros ->. exact (Hnotin Hj). }
    assert (Hhead : same_shape s s1 /\
              agree_outside (desc n (Child n v i)) s s1 /\
              (negb (Cube.IsEmpty n (Cube.IntersectWith n (Cube.at_ quads i) q))
               = true ->
               Settled n fuel (Child n v i)
                 (Cube.IntersectWith n (Cube.at_ quads i) q) (Cube.at_ quads i)
                 (val * Cube.Volume n (Cube.IntersectWith n (Cube.at_ quads i) q))
                 s1) /\
              (child_pushed n v quads i s -> child_pushed n v quads i s1)).
    { destruct (negb (Cube.IsEmpty n (Cube.IntersectWith n (Cube.at_ quads i) q)))
        eqn:Hc.
      - destruct (touches_ApplyOperationR n _ _ _ _ _ _ _ _ H1) as [Hsh1 Hag1].
        assert (Hne : Cube.Volume n (Cube.IntersectWith n (Cube.at_ quads i) q) <> 0)
          by (apply negb_true_iff, Z.eqb_neq in Hc; exact Hc).
        destruct (IHf _ _ _ _ _ H1 (IntersectWith_contained n _ _ Hne))
          as [Hset Hop].
        split; [exact Hsh1|]. split; [exact Hag1|]. split; [intros _; exact Hset|].
        intros [Hsome Hpt]. destruct Hsh1 as (_ & Hlt & Hlo). split.
        + apply vec_get_bounds. apply vec_get_bounds in Hsome. lia.
        + intros Hpoint. destruct (Hpt Hpoint) as [_ Ht].
          split; [apply Hop, Hpoint|].
          apply vec_get_bounds. apply vec_get_bounds in Ht. lia.
      - apply ret_inv in H1 as [_ ->].
        split; [apply same_shape_refl|]. split; [apply agree_outside_refl|].
        split; [discriminate|exact id]. }
    destruct Hhead as (Hsh1 & Hag1 & Hset1 & Hcp1).
    split; [eapply same_shape_trans; eassumption|]. split.
    + eapply agree_outside_trans.
      * eapply agree_outside_weaken; [|exact Hag1].
        intros w Hw. exists i. split; [left; reflexivity|exact Hw].
      * eapply agree_outside_weaken; [|exact Hag].
        intros w (j & Hj & Hw). exists j. split; [right; exact Hj|exact Hw].
    + intros j [<-|Hj].
      * split.
        -- intros Hc. eapply Settled_frame; [exact Hframe|exact (Hset1 Hc)].
        -- intros Hcp. eapply child_pushed_agree_at;
             [apply Hframe, desc_refl|exact (Hcp1 Hcp)].
      * destruct (Hrest j Hj) as [Hsetj Hcpj]. split; [exact Hsetj|].
        intros Hcp. apply Hcpj.
        eapply child_pushed_agree_at; [|exact Hcp].
        apply Hag1. intros Hd.
        refine (siblings_disjoint n v j i (Child n v j) Hv (Hr' j Hj) Hi _
                  (desc_refl _ _) Hd).
        intros ->. exact (Hnotin Hj).
Qed.

Lemma ApplyOperationR_assign_settles fuel v q d val st st' :
  ApplyOperationR n fuel v q d (Operation.mk true val) st = Ok (tt, st') ->
  Client.contained n q d ->
  Settled n fuel v q d (val * Cube.Volume n q) st' /\
  (Cube.IsPoint n d = true ->
   vec_get (operations_ st') v = Some (Operation.mk false 0)).
Proof.
  revert v q d st st'.
  induction fuel as [|fuel IH]; intros v q d st st' H Hc; [discriminate|].
  rewrite ApplyOperationR_S in H. cbn [Settled].
  destruct (Cube.eqb n q d) eqn:Heq.
  - apply EvaluateAny_assign in H as [Ht Ho]. split; [exact Ht|].
    intros Hpt. apply Ho. unfold Cube.IsPoint in *.
    rewrite (eqb_Volume n q d Heq). exact Hpt.
  - apply bind_inv in H as ([] & s1 & Hpush & H).
    apply bind_inv in H as ([] & s2 & Hloop & Hup).
    apply Push_establishes in Hpush as (Hov & Htv & Hcp).
    assert (Hv : 0 <= v) by (apply vec_get_Some in Hov; lia).
    destruct (assign_loop_settles fuel v q (Cube.Subdivide n d) val IH Hv
                (range (N n)) (NoDup_range _)
                (fun i Hi => proj1 (in_range _ _) Hi) _ _ Hloop)
      as (Hsh & Hag & Hch).
    destruct (touches_UpdateValueFromBelow n v _ _ _ Hup) as [_ Hag2].
    pose proof (UpdateValueFromBelow_operations n v _ _ _ Hup) as Hops2.
    pose proof (UpdateValueFromBelow_writes n v _ _ _ Hup) as Htv2.
    assert (Hroot : agree_at s1 s2 v).
    { apply Hag. intros (i & Hi & Hd). apply in_range in Hi.
      exact (parent_not_desc n v i Hv Hi Hd). }
    assert (Hov' : vec_get (operations_ st') v = Some (Operation.mk false 0)).
    { rewrite Hops2. destruct Hroot as [_ ->]. exact Hov. }
    assert (Hbelow : forall i w, 0 <= i < N n -> desc n (Child n v i) w ->
              agree_at s2 st' w).
    { intros i w Hi Hw. apply Hag2. intros <-.
      exact (parent_not_desc n v i Hv Hi Hw). }
    split; [|intros _; exact Hov']. split.
    + split; [exact Hov'|]. split; [exact Htv2|]. intros i Hi.
      destruct (Hch i (proj2 (in_range _ _) Hi)) as [_ Hcpi].
      eapply child_pushed_agree_at;
        [exact (Hbelow i _ Hi (desc_refl _ _))|apply Hcpi, Hcp, Hi].
    + replace (val * Cube.Volume n q)
        with (0 + Zsum (map
                (fun i => if negb (Cube.IsEmpty n
                                     (Cube.IntersectWith n
                                        (Cube.at_ (Cube.Subdivide n d) i) q))
                          then val * Cube.Volume n
                                       (Cube.IntersectWith n
                                          (Cube.at_ (Cube.Subdivide n d) i) q)
                          else 0) (range (N n)))).
      * apply (sum_where_all _ _
                 (fun i => val * Cube.Volume n
                                   (Cube.IntersectWith n
                                      (Cube.at_ (Cube.Subdivide n d) i) q))
                 (range (N n)) 0).
        intros i Hi Hcond. apply in_range in Hi.
        destruct (Hch i (proj2 (in_range _ _) Hi)) as [Hset _].
        eapply Settled_frame;
          [intros w Hw; exact (Hbelow i w Hi Hw)|exact (Hset Hcond)].
      * rewrite <- (Volume_split q d Hc), Z.add_0_l.
        generalize (range (N n)). intros xs.
        induction xs as [|x xs IHx]; [cbn; lia|].
        cbn [map]. rewrite !Zsum_cons, IHx. unfold Cube.IsEmpty.
        destruct (Z.eqb_spec
                    (Cube.Volume n
                       (Cube.IntersectWith n
                          (Cube.at_ (Cube.Subdivide n d) x) q)) 0) as [->|_];
          cbn [negb]; lia.
Qed.

End AssignSettles.

(** X16. Whenever [AssignRange(D, val)] on a domain contained in the entire
    domain returns, [QueryRange(D)] called next returns
    [val * volume(D)], whatever the structure held before, and changes
    nothing. *)
Theorem AssignRange_then_QueryRange n fuel D val st st' :
  AssignRange n fuel D val st = Ok (tt, st') ->
  Client.contained n D (entire_domain_ st) ->
  QueryRange n fuel D st' = Ok (val * Cube.Volume n D, st').
Proof.
  unfold AssignRange, ApplyToRange, QueryRange. intros H Hc.
  destruct (touches_ApplyOperationR n _ _ _ _ _ _ _ _ H) as [(-> & _) _].
  apply Settled_reads.
  apply (ApplyOperationR_assign_settles n _ _ _ _ _ _ _ H Hc).
Qed.

Lemma AssignRange_then_QueryRange_witness :
  QueryRange 1 3 (Cube.mk [1] [3])
    (mk (Cube.mk [0] [4])
        [20; 10; 10; 1; 9; 9; 1; 0; 0; 0; 0; 0; 0; 0; 0; 0]
        (repeat Operation.default 16))
  = Ok (9 * Cube.Volume 1 (Cube.mk [1] [3]),
        mk (Cube.mk [0] [4])
           [20; 10; 10; 1; 9; 9; 1; 0; 0; 0; 0; 0; 0; 0; 0; 0]
           (repeat Operation.default 16)).
Proof.
  apply (AssignRange_then_QueryRange 1 3 (Cube.mk [1] [3]) 9
           (mk (Cube.mk [0] [4]) (4 :: repeat 0 15)
               (Operation.mk false 1 :: repeat Operation.default 15))).
  - reflexivity.
  - intros i Hi. destruct i as [|i]; [cbn; lia|lia].
Defined.

(** ** The value of a cell *)

Lemma apply_ComposeWith a b x :
  Ref.apply (Operation.ComposeWith a b) x = Ref.apply b (Ref.apply a x).
Proof.
  destruct a as [ra xa], b as [rb xb].
  unfold Ref.apply, Operation.ComposeWith.
  cbn [Operation.reset_pending Operation.to_add].
  destruct rb, ra; cbn [Operation.reset_pending Operation.to_add]; lia.
Qed.

Lemma apply_identity x : Ref.apply (Operation.mk false 0) x = x.
Proof. unfold Ref.apply. cbn. lia. Qed.

Lemma Evaluate_point n o x d :
  Cube.IsPoint n d = true -> Operation.Evaluate n o x d = Ref.apply o x.
Proof.
  unfold Cube.IsPoint. intros H. apply Z.eqb_eq in H.
  unfold Operation.Evaluate, Ref.apply. rewrite H.
  destruct (Operation.reset_pending o); lia.
Qed.

Lemma for_each_update {A} (Pre Post : t -> Prop) xs (body : Z -> A -> M A) i0 :
  NoDup xs -> In i0 xs ->
  (forall j acc s a s', In j xs -> j <> i0 ->
     body j acc s = Ok (a, s') -> (Pre s -> Pre s') /\ (Post s -> Post s')) ->
  (forall acc s a s', body i0 acc s = Ok (a, s') -> Pre s -> Post s') ->
  forall acc st a st',
    for_each xs body acc st = Ok (a, st') -> Pre st -> Post st'.
Proof.
  induction xs as [|i xs IH]; intros Hnd Hin Hoth Hi0 acc st a st' H HPre;
    [destruct Hin|].
  apply NoDup_cons in Hnd as [Hnotin Hnd]. rewrite list_elem_of_In in Hnotin.
  rewrite for_each_cons in H. apply bind_inv in H as (a1 & s1 & H1 & H2).
  destruct (Z.eq_dec i i0) as [->|Hne].
  - eapply (for_each_preserve Post); [|exact H2|eapply Hi0; eassumption].
    intros j acc' s b s' Hj Hrun.
    apply (Hoth j acc' s b s'); [right; exact Hj| |exact Hrun].
    intros ->. exact (Hnotin Hj).
  - destruct Hin as [Heq|Hin]; [congruence|].
    eapply IH; [exact Hnd|exact Hin| |exact Hi0|exact H2|].
    + intros j acc' s b s' Hj. apply Hoth. right. exact Hj.
    + eapply (Hoth i); [left; reflexivity|exact Hne|exact H1|exact HPre].
Qed.

Section CellValue.
Variable n : nat.

(** [cellval] looks at the slots of the subtree of [v] only. *)
Lemma cellval_frame st st' h d v c x :
  (forall w, desc n v w -> agree_at st st' w) ->
  cellval n st h d v c x -> cellval n st' h d v c x.
Proof.
  revert d v x. induction h as [|h IH]; intros d v x Hag H; [exact H|].
  cbn [cellval] in H |- *. destruct (Hag v (desc_refl n v)) as [Et Eo].
  destruct (Cube.IsPoint n d).
  - rewrite Et, Eo. exact H.
  - destruct H as (o & y & i & Ho & Ht & Hi & Hin & Hch & Hx).
    exists o, y, i. rewrite Et, Eo.
    split; [exact Ho|]. split; [exact Ht|]. split; [exact Hi|].
    split; [exact Hin|]. split; [|exact Hx].
    apply IH; [|exact Hch]. intros w Hw. apply Hag.
    eapply desc_Child; eassumption.
Qed.

(** What [Push] does to the value of a cell as read from child [i]: the
    pending operation [o] of the parent is applied to it. *)
Lemma Push_child_cellval v quads i s u s' o h c y :
  Push_child n v quads i s = Ok (u, s') ->
  vec_get (operations_ s) v = Some o ->
  0 <= i < N n ->
  cellval n s h (Cube.at_ quads i) (Child n v i) c y ->
  cellval n s' h (Cube.at_ quads i) (Child n v i) c (Ref.apply o y).
Proof.
  intros H Ho Hi Hcv. destruct h as [|h]; [exact Hcv|].
  assert (Hv : 0 <= v) by (apply vec_get_Some in Ho; lia).
  pose proof (Child_gt n v i Hv ltac:(lia)) as Hgt.
  unfold Push_child in H. cbv zeta in H.
  apply bind_inv in H as (oc & s1 & H1 & H). apply get_op_inv in H1 as [Hoc ->].
  apply bind_inv in H as (ov & s2 & H2 & H). apply get_op_inv in H2 as [Hov ->].
  rewrite Ho in Hov. injection Hov as <-.
  apply bind_inv in H as ([] & s3 & H3 & H). apply set_op_inv in H3 as [Hc ->].
  cbn [cellval] in *. destruct (Cube.IsPoint n (Cube.at_ quads i)) eqn:Hpt.
  - destruct Hcv as [Hy Hid]. rewrite Hoc in Hid. injection Hid as ->.
    apply bind_inv in H as ([] & s4 & H4 & H).
    unfold UpdateValueFromAbove in H4.
    apply bind_inv in H4 as (o' & s5 & H5 & H4). apply get_op_inv in H5 as [Ho' ->].
    apply bind_inv in H4 as (x & s6 & H6 & H4). apply get_tree_inv in H6 as [Hx ->].
    apply set_tree_inv in H4 as [Hct ->].
    apply bind_inv in H as (o2 & s7 & H7 & H). apply get_op_inv in H7 as [_ ->].
    apply set_op_inv in H as [Hc' ->].
    cbn [operations_ tree_ entire_domain_] in *.
    rewrite vec_get_insert_eq in Ho' by exact Hc. injection Ho' as <-.
    rewrite Hy in Hx. injection Hx as <-.
    split; [|apply vec_get_insert_eq; exact Hc'].
    rewrite vec_get_insert_eq by exact Hct. f_equal.
    rewrite (Evaluate_point n _ _ _ Hpt), apply_ComposeWith, apply_identity.
    reflexivity.
  - apply ret_inv in H as [_ ->]. cbn [operations_ tree_ entire_domain_].
    destruct Hcv as (o1 & y1 & i1 & Ho1 & Ht1 & Hi1 & Hin1 & Hch1 & ->).
    rewrite Hoc in Ho1. injection Ho1 as ->.
    exists (Operation.ComposeWith o1 o), y1, i1.
    split; [apply vec_get_insert_eq; exact Hc|]. split; [exact Ht1|].
    split; [exact Hi1|]. split; [exact Hin1|]. split.
    + eapply cellval_frame; [|exact Hch1].
      intros w Hw. split; cbn [operations_ tree_]; [reflexivity|].
      apply vec_get_insert_ne; [lia|]. intros ->.
      exact (parent_not_desc n (Child n v i) i1 ltac:(lia) Hi1 Hw).
    + symmetry. apply apply_ComposeWith.
Qed.

(** [Push] keeps the value of every cell as read from [v]; afterwards
    nothing is pending at [v], so the value is the one read from the
    child in whose orthant the cell lies. *)
Lemma Push_cellval v d st u st' h c x :
  Push n v d (Cube.Subdivide n d) st = Ok (u, st') ->
  Cube.IsPoint n d = false ->
  cellval n st (S h) d v c x ->
  vec_get (operations_ st') v = Some (Operation.mk false 0) /\
  is_Some (vec_get (tree_ st') v) /\
  exists i, 0 <= i < N n /\
    Ref.inside n (Cube.at_ (Cube.Subdivide n d) i) c = true /\
    cellval n st' h (Cube.at_ (Cube.Subdivide n d) i) (Child n v i) c x.
Proof.
  intros H Hpt Hcv.
  destruct (Push_establishes n _ _ _ _ _ _ H) as (Hid & Htv & _).
  split; [exact Hid|]. split; [exact Htv|].
  cbn [cellval] in Hcv. rewrite Hpt in Hcv.
  destruct Hcv as (o & y & i & Ho & Ht & Hi & Hin & Hch & ->).
  assert (Hv : 0 <= v) by (apply vec_get_Some in Ho; lia).
  exists i. split; [exact Hi|]. split; [exact Hin|].
  unfold Push in H.
  apply bind_inv in H as ([] & s1 & Hloop & H).
  apply bind_inv in H as ([] & s2 & Hup & H).
  apply bind_inv in H as (ov & s3 & Hget & H). apply get_op_inv in Hget as [_ ->].
  pose proof (touches_UpdateValueFromAbove n v d _ _ _ Hup) as [_ Ha2].
  pose proof (touches_set_op (eq v) v _ eq_refl _ _ _ H) as [_ Ha3].
  assert (Hnotv : forall w, desc n (Child n v i) w -> v <> w).
  { intros w Hw <-. exact (parent_not_desc n v i Hv Hi Hw). }
  eapply cellval_frame; [intros w Hw; apply Ha3, Hnotv, Hw|].
  eapply cellval_frame; [intros w Hw; apply Ha2, Hnotv, Hw|].
  refine (proj1 (for_each_update
            (fun s => cellval n s h (Cube.at_ (Cube.Subdivide n d) i)
                        (Child n v i) c y /\
                      vec_get (operations_ s) v = Some o)
            (fun s => cellval n s h (Cube.at_ (Cube.Subdivide n d) i)
                        (Child n v i) c (Ref.apply o y) /\
                      vec_get (operations_ s) v = Some o)
            (range (N n)) (fun i (_ : unit) => Push_child n v _ i) i
            (NoDup_range _) (proj2 (in_range _ _) Hi) _ _ tt st tt s1 Hloop
            (conj Hch Ho))).
  - intros j acc s a s' Hj Hne Hrun. apply in_range in Hj.
    apply touches_Push_child in Hrun as [_ Hag].
    assert (Hvj : agree_at s s' v).
    { apply Hag. intros Heq. pose proof (Child_gt n v j Hv ltac:(lia)). lia. }
    assert (Hsub : forall w, desc n (Child n v i) w -> agree_at s s' w).
    { intros w Hw. apply Hag. intros <-.
      exact (siblings_disjoint n v j i (Child n v j) Hv Hj Hi Hne
               (desc_refl _ _) Hw). }
    destruct Hvj as [_ Eo].
    split; intros [Hc1 Hc2]; (split; [eapply cellval_frame; eassumption|congruence]).
  - intros acc s a s' Hrun [Hc1 Hc2]. split.
    + eapply Push_child_cellval; eassumption.
    + apply touches_Push_child in Hrun as [_ Hag].
      destruct (Hag v) as [_ ->]; [|exact Hc2].
      intros Heq. pose proof (Child_gt n v i Hv ltac:(lia)). lia.
Qed.

End CellValue.


Section CellValueCalls.
Variable n : nat.

Lemma inside_IntersectWith a b p :
  Ref.inside n (Cube.IntersectWith n a b) p = true <->
  Ref.inside n a p = true /\ Ref.inside n b p = true.
Proof. apply inside_both_iff. Qed.

Lemma inside_Volume D p : Ref.inside n D p = true -> Cube.Volume n D <> 0.
Proof.
  rewrite inside_spec, Volume_prod. intros H.
  enough (1 <= prod_upto (fun i => nth i (Cube.r D) 0 - nth i (Cube.l D) 0) n)
    by lia.
  apply prod_upto_ge_1. intros k Hk. specialize (H k Hk). lia.
Qed.

Lemma eqb_inside q d p :
  Cube.eqb n q d = true -> Ref.inside n q p = Ref.inside n d p.
Proof.
  intros Heq. apply eq_true_iff_eq. rewrite !inside_spec.
  assert (Hax : forall k, (k < n)%nat ->
            nth k (Cube.l q) 0 = nth k (Cube.l d) 0 /\
            nth k (Cube.r q) 0 = nth k (Cube.r d) 0).
  { intros k Hk. unfold Cube.eqb in Heq. rewrite forallb_forall in Heq.
    specialize (Heq k). rewrite in_seq in Heq. specialize (Heq ltac:(lia)). lia. }
  split; intros H k Hk; specialize (H k Hk); destruct (Hax k Hk); lia.
Qed.

Lemma eqb_IsPoint q d :
  Cube.eqb n q d = true -> Cube.IsPoint n q = Cube.IsPoint n d.
Proof. intros H. unfold Cube.IsPoint. rewrite (eqb_Volume n q d H). reflexivity. Qed.

Lemma EvaluateAny_inv v q op st u st' :
  EvaluateAny n v q op st = Ok (u, st') ->
  exists o x,
    vec_get (operations_ st) v = Some o /\
    vec_get (tree_ st) v = Some x /\
    vec_get (tree_ st') v
    = Some (Operation.Evaluate n (Operation.ComposeWith o op) x q) /\
    vec_get (operations_ st') v
    = Some (if Cube.IsPoint n q then Operation.mk false 0
            else Operation.ComposeWith o op).
Proof.
  intros H. unfold EvaluateAny in H.
  apply bind_inv in H as (o & s1 & H1 & H). apply get_op_inv in H1 as [Ho ->].
  apply bind_inv in H as ([] & s2 & H2 & H). apply set_op_inv in H2 as [Hv ->].
  apply bind_inv in H as ([] & s3 & H3 & H).
  unfold UpdateValueFromAbove in H3.
  apply bind_inv in H3 as (o' & s4 & H4 & H3). apply get_op_inv in H4 as [Ho' ->].
  apply bind_inv in H3 as (x & s5 & H5 & H3). apply get_tree_inv in H5 as [Hx ->].
  apply set_tree_inv in H3 as [Hvt ->].
  cbn [operations_ tree_ entire_domain_] in *.
  rewrite vec_get_insert_eq in Ho' by exact Hv. injection Ho' as <-.
  exists o, x. split; [exact Ho|]. split; [exact Hx|].
  destruct (Cube.IsPoint n q).
  - apply bind_inv in H as (o2 & s6 & H6 & H). apply get_op_inv in H6 as [_ ->].
    apply set_op_inv in H as [Hv' ->]. cbn [operations_ tree_ entire_domain_] in *.
    split; apply vec_get_insert_eq; assumption.
  - apply ret_inv in H as [_ ->]. cbn [operations_ tree_ entire_domain_].
    split; apply vec_get_insert_eq; assumption.
Qed.

(** [ApplyOperationR] changes the value of a cell of its domain exactly
    when the cell lies in the query domain, and then by the operation. *)
Lemma ApplyOperationR_cellval c op fuel :
  forall h v q d st st' x,
    ApplyOperationR n fuel v q d op st = Ok (tt, st') ->
    Client.contained n q d -> Cube.Volume n q <> 0 ->
    Ref.inside n d c = true ->
    cellval n st h d v c x ->
    cellval n st' h d v c (if Ref.inside n q c then Ref.apply op x else x).
Proof.
  induction fuel as [|fuel IH]; intros h v q d st st' x H Hc Hne Hd Hcv;
    [discriminate|].
  destruct h as [|h]; [destruct Hcv|].
  rewrite ApplyOperationR_S in H. destruct (Cube.eqb n q d) eqn:Heq.
  - rewrite (eqb_inside q d c Heq), Hd.
    pose proof (touches_EvaluateAny n v q op _ _ _ H) as [_ Hag].
    apply EvaluateAny_inv in H as (o & x0 & Ho & Hx0 & Ht' & Ho').
    pose proof (eqb_IsPoint q d Heq) as Hpq. rewrite Hpq in Ho'.
    assert (Hv : 0 <= v) by (apply vec_get_Some in Ho; lia).
    cbn [cellval] in Hcv |- *. destruct (Cube.IsPoint n d) eqn:Hpt.
    + destruct Hcv as [Hx Hid]. rewrite Hid in Ho. injection Ho as <-.
      rewrite Hx in Hx0. injection Hx0 as <-.
      rewrite (Evaluate_point n _ _ _ Hpq), apply_ComposeWith, apply_identity
        in Ht'.
      split; assumption.
    + destruct Hcv as (o1 & y & i & Ho1 & Ht1 & Hi & Hin & Hch & ->).
      rewrite Ho1 in Ho. injection Ho as <-.
      exists (Operation.ComposeWith o1 op), y, i.
      split; [exact Ho'|]. split; [rewrite Ht'; eexists; reflexivity|].
      split; [exact Hi|]. split; [exact Hin|]. split.
      * eapply cellval_frame; [|exact Hch]. intros w Hw. apply Hag.
        intros <-. exact (parent_not_desc n v i Hv Hi Hw).
      * symmetry. apply apply_ComposeWith.
  - destruct (Cube.IsPoint n d) eqn:Hpt.
    { rewrite (contained_in_point n q d Hc Hne Hpt) in Heq. discriminate. }
    apply bind_inv in H as ([] & s1 & Hpush & H).
    apply bind_inv in H as ([] & s2 & Hloop & Hup).
    destruct (Push_cellval n _ _ _ _ _ _ _ _ Hpush Hpt Hcv)
      as (Hid & Htv & i & Hi & Hin & Hch).
    assert (Hv : 0 <= v) by (apply vec_get_Some in Hid; lia).
    assert (Hnotv : forall j w, 0 <= j < N n -> desc n (Child n v j) w -> v <> w).
    { intros j w Hj Hw <-. exact (parent_not_desc n v j Hv Hj Hw). }
    set (x' := if Ref.inside n q c then Ref.apply op x else x).
    assert (Hloop' :
      cellval n s2 h (Cube.at_ (Cube.Subdivide n d) i) (Child n v i) c x' /\
      vec_get (operations_ s2) v = Some (Operation.mk false 0)).
    { refine (for_each_update
            (fun s => cellval n s h (Cube.at_ (Cube.Subdivide n d) i)
                        (Child n v i) c x /\
                      vec_get (operations_ s) v = Some (Operation.mk false 0))
            (fun s => cellval n s h (Cube.at_ (Cube.Subdivide n d) i)
                        (Child n v i) c x' /\
                      vec_get (operations_ s) v = Some (Operation.mk false 0))
            (range (N n)) _ i
            (NoDup_range _) (proj2 (in_range _ _) Hi) _ _ tt s1 tt s2 Hloop
            (conj Hch Hid)).
      - intros j acc s a s' Hj Hne' Hrun. apply in_range in Hj.
        assert (Hag : agree_outside (desc n (Child n v j)) s s').
        { destruct (negb _) in Hrun.
          - apply touches_ApplyOperationR in Hrun as [_ Hag]. exact Hag.
          - apply ret_inv in Hrun as [_ ->]. intros w _. split; reflexivity. }
        assert (Hsub : forall w, desc n (Child n v i) w -> agree_at s s' w).
        { intros w Hw. apply Hag.
          intros Hwj. exact (siblings_disjoint n v j i w Hv Hj Hi Hne' Hwj Hw). }
        assert (Hvj : agree_at s s' v).
        { apply Hag. intros Hw. exact (Hnotv j v Hj Hw eq_refl). }
        destruct Hvj as [_ Eo].
        split; intros [Hc1 Hc2];
          (split; [eapply cellval_frame; eassumption|congruence]).
      - intros acc s a s' Hrun [Hc1 Hc2].
        destruct (negb _) eqn:Hact in Hrun.
        + destruct a.
          pose proof (touches_ApplyOperationR n _ _ _ _ _ _ _ _ Hrun) as [_ Hag].
          apply negb_true_iff, Z.eqb_neq in Hact.
          pose proof (IH h _ _ _ _ _ x Hrun
                        (IntersectWith_contained n _ _ Hact) Hact Hin Hc1) as Hnew.
          split.
          * unfold x'.
            replace (Ref.inside n q c)
              with (Ref.inside n
                      (Cube.IntersectWith n (Cube.at_ (Cube.Subdivide n d) i) q) c);
              [exact Hnew|].
            apply eq_true_iff_eq. rewrite inside_IntersectWith. tauto.
          * destruct (Hag v) as [_ ->]; [|exact Hc2].
            intros Hw. exact (Hnotv i v Hi Hw eq_refl).
        + apply ret_inv in Hrun as [_ ->]. split; [|exact Hc2].
          apply negb_false_iff, Z.eqb_eq in Hact. unfold x'.
          destruct (Ref.inside n q c) eqn:Hq; [|exact Hc1]. exfalso.
          apply (inside_Volume _ c (proj2 (inside_IntersectWith _ _ _)
                                      (conj Hin Hq))), Hact. }
    destruct Hloop' as [Hch' Hid'].
    destruct (touches_UpdateValueFromBelow n v _ _ _ Hup) as [_ Hag2].
    pose proof (UpdateValueFromBelow_operations n v _ _ _ Hup) as Hops2.
    pose proof (UpdateValueFromBelow_writes n v _ _ _ Hup) as Htv2.
    cbn [cellval]. rewrite Hpt. fold x'.
    exists (Operation.mk false 0), x', i.
    split; [rewrite Hops2; exact Hid'|]. split; [exact Htv2|].
    split; [exact Hi|]. split; [exact Hin|]. split.
    + eapply cellval_frame; [|exact Hch']. intros w Hw. apply Hag2.
      exact (Hnotv i w Hi Hw).
    + symmetry. apply apply_identity.
Qed.

(** [QueryRangeR] pushes pending operations down, and in doing so changes
    the value of no cell. *)
Lemma QueryRangeR_cellval c fuel :
  forall h v q d st r st' x,
    QueryRangeR n fuel v q d st = Ok (r, st') ->
    Client.contained n q d -> Cube.Volume n q <> 0 ->
    cellval n st h d v c x ->
    cellval n st' h d v c x.
Proof.
  induction fuel as [|fuel IH]; intros h v q d st r st' x H Hc Hne Hcv;
    [discriminate|].
  destruct h as [|h]; [destruct Hcv|].
  rewrite QueryRangeR_S in H. destruct (Cube.eqb n q d) eqn:Heq.
  - apply get_tree_inv in H as [_ ->]. exact Hcv.
  - destruct (Cube.IsPoint n d) eqn:Hpt.
    { rewrite (contained_in_point n q d Hc Hne Hpt) in Heq. discriminate. }
    apply bind_inv in H as ([] & s1 & Hpush & Hloop).
    destruct (Push_cellval n _ _ _ _ _ _ _ _ Hpush Hpt Hcv)
      as (Hid & Htv & i & Hi & Hin & Hch).
    assert (Hv : 0 <= v) by (apply vec_get_Some in Hid; lia).
    assert (Hnotv : forall j w, 0 <= j < N n -> desc n (Child n v j) w -> v <> w).
    { intros j w Hj Hw <-. exact (parent_not_desc n v j Hv Hj Hw). }
    assert (Hbody : forall j acc s a s', 0 <= j < N n ->
      (if negb (Cube.IsEmpty n
                  (Cube.IntersectWith n (Cube.at_ (Cube.Subdivide n d) j) q))
       then y <- QueryRangeR n fuel (Child n v j)
                   (Cube.IntersectWith n (Cube.at_ (Cube.Subdivide n d) j) q)
                   (Cube.at_ (Cube.Subdivide n d) j) ;;
            ret (acc + y)
       else ret acc) s = Ok (a, s') ->
      agree_outside (desc n (Child n v j)) s s').
    { intros j acc s a s' Hj Hrun. destruct (negb _) in Hrun.
      - apply bind_inv in Hrun as (y & s3 & Hrun & Hret).
        apply ret_inv in Hret as [_ ->].
        apply touches_QueryRangeR in Hrun as [_ Hag]. exact Hag.
      - apply ret_inv in Hrun as [_ ->]. intros w _. split; reflexivity. }
    set (Inv := fun s =>
           cellval n s h (Cube.at_ (Cube.Subdivide n d) i) (Child n v i) c x /\
           vec_get (operations_ s) v = Some (Operation.mk false 0) /\
           is_Some (vec_get (tree_ s) v)).
    assert (Hend : Inv st').
    { refine (for_each_preserve Inv (range (N n)) _ _ 0 s1 r st' Hloop
                (conj Hch (conj Hid Htv))).
      intros j acc s a s' Hj Hrun (Hc1 & Hc2 & Hc3). apply in_range in Hj.
      pose proof (Hbody j acc s a s' Hj Hrun) as Hag.
      destruct (Hag v (fun Hw => Hnotv j v Hj Hw eq_refl)) as [Et Eo].
      split; [|rewrite Et, Eo; split; assumption].
      destruct (Z.eq_dec j i) as [->|Hji].
      - destruct (negb _) eqn:Hact in Hrun.
        + apply bind_inv in Hrun as (y & s3 & Hrun & Hret).
          apply ret_inv in Hret as [_ ->].
          apply negb_true_iff, Z.eqb_neq in Hact.
          exact (IH h _ _ _ _ _ _ x Hrun
                   (IntersectWith_contained n _ _ Hact) Hact Hc1).
        + apply ret_inv in Hrun as [_ ->]. exact Hc1.
      - eapply cellval_frame; [|exact Hc1]. intros w Hw. apply Hag.
        intros Hwj. exact (siblings_disjoint n v j i w Hv Hj Hi Hji Hwj Hw). }
    destruct Hend as (Hch' & Hid' & Htv').
    cbn [cellval]. rewrite Hpt.
    exists (Operation.mk false 0), x, i.
    split; [exact Hid'|]. split; [exact Htv'|].
    split; [exact Hi|]. split; [exact Hin|]. split; [exact Hch'|].
    symmetry. apply apply_identity.
Qed.

Lemma for_each_skip {A} xs (body : Z -> A -> M A) acc st :
  (forall j acc' s, In j xs -> body j acc' s = Ok (acc', s)) ->
  for_each xs body acc st = Ok (acc, st).
Proof.
  revert acc st. induction xs as [|i xs IH]; intros acc st Hb; [reflexivity|].
  rewrite for_each_cons.
  rewrite (bind_Ok _ _ _ _ _ (Hb i acc st (or_introl eq_refl))).
  apply IH. intros j acc' s Hj. apply Hb. right. exact Hj.
Qed.

(** A loop in which every round but [i0] leaves sum and state alone. *)
Lemma for_each_only {A} xs (body : Z -> A -> M A) i0 :
  NoDup xs -> In i0 xs ->
  (forall j acc s, In j xs -> j <> i0 -> body j acc s = Ok (acc, s)) ->
  forall acc st, for_each xs body acc st = body i0 acc st.
Proof.
  induction xs as [|i xs IH]; intros Hnd Hin Hb acc st; [destruct Hin|].
  apply NoDup_cons in Hnd as [Hnotin Hnd]. rewrite list_elem_of_In in Hnotin.
  rewrite for_each_cons. destruct (Z.eq_dec i i0) as [->|Hne].
  - unfold bind. destruct (body i0 acc st) as [[a s]|e]; [|reflexivity].
    apply for_each_skip. intros j acc' s' Hj.
    apply Hb; [right; exact Hj|]. intros ->. exact (Hnotin Hj).
  - destruct Hin as [Heq|Hin]; [congruence|].
    rewrite (bind_Ok _ _ _ _ _ (Hb i acc st (or_introl eq_refl) Hne)).
    apply IH; [exact Hnd|exact Hin|].
    intros j acc' s Hj. apply Hb. right. exact Hj.
Qed.

(** A query of the unit cube at [c] returns the value of [c]. *)
Lemma QueryRangeR_unit_value c fuel :
  forall h v q d st r st' x,
    QueryRangeR n fuel v q d st = Ok (r, st') ->
    unit_at n c q -> Ref.inside n d c = true ->
    cellval n st h d v c x ->
    r = x.
Proof.
  induction fuel as [|fuel IH]; intros h v q d st r st' x H Hq Hd Hcv;
    [discriminate|].
  destruct h as [|h]; [destruct Hcv|].
  rewrite QueryRangeR_S in H. destruct (Cube.eqb n q d) eqn:Heq.
  - apply get_tree_inv in H as [Hr ->]. cbn [cellval] in Hcv.
    pose proof (eqb_IsPoint q d Heq) as Hpq. unfold Cube.IsPoint in Hpq at 1.
    rewrite (unit_at_Volume n c q Hq) in Hpq. cbn in Hpq. rewrite <- Hpq in Hcv.
    destruct Hcv as [Hx _]. congruence.
  - destruct (Cube.IsPoint n d) eqn:Hpt.
    { rewrite (contained_in_point n q d (unit_at_contained n c q d Hq Hd)) in Heq;
        [discriminate| |exact Hpt].
      rewrite (unit_at_Volume n c q Hq). discriminate. }
    apply bind_inv in H as ([] & s1 & Hpush & Hloop).
    destruct (Push_cellval n _ _ _ _ _ _ _ _ Hpush Hpt Hcv)
      as (_ & _ & i & Hi & Hin & Hch).
    destruct (orthant_of_cell n d c Hd) as (i0 & Hi0 & _ & Huniq).
    rewrite (for_each_only (range (N n)) _ i (NoDup_range _)
               (proj2 (in_range _ _) Hi)) in Hloop.
    + pose proof (unit_at_IntersectWith n c q _ Hq Hin) as Hqs.
      unfold Cube.IsEmpty in Hloop.
      rewrite (unit_at_Volume n c _ Hqs) in Hloop. cbn [Z.eqb negb] in Hloop.
      apply bind_inv in Hloop as (y & s3 & Hrun & Hret).
      apply ret_inv in Hret as [-> _].
      rewrite (IH h _ _ _ _ _ _ x Hrun Hqs Hin Hch). lia.
    + intros j acc s Hj Hne. apply in_range in Hj.
      destruct (negb _) eqn:Hact; [|reflexivity]. exfalso.
      apply negb_true_iff, Z.eqb_neq in Hact.
      pose proof (unit_at_IntersectWith_nonempty n c q _ Hq Hact) as Hinj.
      apply Hne. rewrite (Huniq j Hj Hinj). symmetry. apply Huniq; assumption.
Qed.

End CellValueCalls.


Section CellValueHistory.
Variable n : nat.

(** On the tree filled in by the constructor, with nothing pending, the
    value of a cell is its array entry. *)
Lemma grown_cellval arr st c :
  (1 <= n)%nat ->
  (forall w, is_Some (vec_get (tree_ st) w) ->
     vec_get (operations_ st) w = Some (Operation.mk false 0)) ->
  forall h d v,
    grown n arr st h d v -> Ref.inside n d c = true ->
    exists x, vec_get arr (Linear n st c) = Some x /\ cellval n st h d v c x.
Proof.
  intros Hn Hops. induction h as [|h IH]; intros d v Hg Hd; [inversion Hg|].
  cbn [cellval].
  inversion Hg as [h' d' v' x Hpt Hx Hv|h' d' v' Hpt Hv Hch]; subst;
    rewrite Hpt.
  - exists x. split.
    + rewrite <- (Linear_ext n st (Cube.l d) c Hn); [exact Hx|].
      intros k Hk. unfold Cube.IsPoint in Hpt. apply Z.eqb_eq in Hpt.
      rewrite Volume_prod in Hpt. pose proof (proj1 (inside_spec n d c) Hd) as Hin.
      assert (Hge : forall j, (j < n)%nat ->
                1 <= nth j (Cube.r d) 0 - nth j (Cube.l d) 0).
      { intros j Hj. specialize (Hin j Hj). lia. }
      pose proof (prod_upto_eq_1 _ n Hge Hpt k Hk) as Hone.
      cbv beta in Hone. specialize (Hin k Hk). lia.
    + split; [exact Hv|]. apply Hops. rewrite Hv. eexists; reflexivity.
  - destruct (orthant_of_cell n d c Hd) as (i0 & Hi0 & Hin0 & _).
    destruct (IH _ _ (Hch i0 Hi0) Hin0) as (x & Hx & Hcv).
    exists x. split; [exact Hx|].
    exists (Operation.mk false 0), x, i0.
    split; [apply Hops, Hv|]. split; [exact Hv|]. split; [exact Hi0|].
    split; [exact Hin0|]. split; [exact Hcv|]. symmetry. apply apply_identity.
Qed.

(** The calls of a history return one after the other, and the value of
    the cell follows them. *)
Lemma run_calls_cellval len fuel c ks :
  forall s x,
    built n len fuel (entire_domain_ s) 0 -> sized len s ->
    Forall (fun k => Client.contained n (call_domain k) (entire_domain_ s) /\
                     Cube.Volume n (call_domain k) <> 0) ks ->
    Ref.inside n (entire_domain_ s) c = true ->
    cellval n s fuel (entire_domain_ s) 0 c x ->
    exists s',
      run_calls n fuel ks s = Ok (tt, s') /\
      entire_domain_ s' = entire_domain_ s /\ sized len s' /\
      cellval n s' fuel (entire_domain_ s) 0 c (cell_after n ks c x).
Proof.
  induction ks as [|k ks IH]; intros s x Hb Hs Hall Hd Hcv.
  - exists s. repeat split; try assumption; apply Hs.
  - apply Forall_cons in Hall as [[Hc Hne] Hall].
    destruct k as [D op|D]; cbn [call_domain] in Hc, Hne;
      cbn [run_calls cell_after].
    + destruct (ApplyOperationR_total n len fuel _ _ D op s Hb Hs Hc Hne)
        as (s1 & H & Hs1).
      destruct (touches_ApplyOperationR n _ _ _ _ _ _ _ _ H) as [(He & _) _].
      pose proof (ApplyOperationR_cellval n c op fuel _ _ _ _ _ _ x H Hc Hne Hd Hcv)
        as Hcv1.
      rewrite <- He in Hb, Hall, Hd, Hcv1.
      destruct (IH s1 _ Hb Hs1 Hall Hd Hcv1) as (s' & Hrun & He' & Hs' & Hcv').
      exists s'. rewrite He in *.
      split; [|split; [congruence|split; assumption]].
      erewrite bind_Ok by (unfold ApplyToRange; exact H). exact Hrun.
    + destruct (QueryRangeR_total n len fuel _ _ D s Hb Hs Hc Hne)
        as (r & s1 & H & Hs1).
      destruct (touches_QueryRangeR n _ _ _ _ _ _ _ H) as [(He & _) _].
      pose proof (QueryRangeR_cellval n c fuel _ _ _ _ _ _ _ x H Hc Hne Hcv)
        as Hcv1.
      rewrite <- He in Hb, Hall, Hd, Hcv1.
      destruct (IH s1 _ Hb Hs1 Hall Hd Hcv1) as (s' & Hrun & He' & Hs' & Hcv').
      exists s'. rewrite He in *.
      split; [|split; [congruence|split; assumption]].
      erewrite bind_Ok by (unfold QueryRange; exact H). exact Hrun.
Qed.

End CellValueHistory.




(** ** Sums over the cells of a box *)

Lemma Zsum_map_add {A} (a b : A -> Z) xs :
  Zsum (map (fun x => a x + b x) xs) = Zsum (map a xs) + Zsum (map b xs).
Proof. induction xs as [|x xs IH]; [reflexivity|]. cbn [map]. rewrite !Zsum_cons. lia. Qed.

Lemma Zsum_map_zero {A} (xs : list A) : Zsum (map (fun _ => 0) xs) = 0.
Proof. induction xs as [|x xs IH]; [reflexivity|]. cbn [map]. rewrite Zsum_cons. lia. Qed.

Lemma Zsum_swap {A B} (T : A -> B -> Z) xs ys :
  Zsum (map (fun x => Zsum (map (fun y => T x y) ys)) xs)
  = Zsum (map (fun y => Zsum (map (fun x => T x y) xs)) ys).
Proof.
  induction xs as [|x xs IH].
  - cbn [map]. rewrite Zsum_map_zero. reflexivity.
  - cbn [map]. rewrite Zsum_cons, IH.
    rewrite <- Zsum_map_add. apply Zsum_map_ext. intros y _.
    rewrite Zsum_cons. reflexivity.
Qed.

Lemma Zsum_flat_map {A B} (g : B -> Z) (h : A -> list B) xs :
  Zsum (map g (flat_map h xs)) = Zsum (map (fun x => Zsum (map g (h x))) xs).
Proof.
  induction xs as [|x xs IH]; [reflexivity|].
  cbn [flat_map map]. rewrite map_app, Zsum_app, Zsum_cons, IH. reflexivity.
Qed.

Lemma box_sum_cons (g : list Z -> Z) p ax :
  Zsum (map g (Ref.cells_of (p :: ax)))
  = isum p (fun x => Zsum (map (fun c => g (x :: c)) (Ref.cells_of ax))).
Proof.
  destruct p as [a b]. cbn [Ref.cells_of]. unfold isum. cbn [fst snd].
  rewrite Zsum_flat_map. apply Zsum_map_ext. intros x _.
  rewrite map_map. reflexivity.
Qed.

Lemma range_nonpos k : k <= 0 -> range k = [].
Proof. intros H. unfold range. replace (Z.to_nat k) with 0%nat by lia. reflexivity. Qed.

Lemma range_app j k :
  0 <= j -> 0 <= k -> range (j + k) = range j ++ map (fun i => i + j) (range k).
Proof.
  intros Hj Hk. unfold range.
  replace (Z.to_nat (j + k)) with (Z.to_nat j + Z.to_nat k)%nat by lia.
  rewrite seq_app, map_app. f_equal.
  replace (0 + Z.to_nat j)%nat with (Z.to_nat j + 0)%nat by lia.
  rewrite <- (fmap_add_seq (Z.to_nat j) 0).
  change (Nat.add (Z.to_nat j) <$> seq 0 (Z.to_nat k))
    with (map (Nat.add (Z.to_nat j)) (seq 0 (Z.to_nat k))).
  rewrite !map_map. apply map_ext. intros a. lia.
Qed.

Lemma isum_empty p h : snd p <= fst p -> isum p h = 0.
Proof. intros H. unfold isum. rewrite range_nonpos by lia. reflexivity. Qed.

Lemma isum_split a m b h :
  a <= m <= b -> isum (a, b) h = isum (a, m) h + isum (m, b) h.
Proof.
  intros H. unfold isum. cbn [fst snd].
  replace (b - a) with ((m - a) + (b - m)) by lia.
  rewrite range_app by lia. rewrite !map_app, Zsum_app. f_equal.
  rewrite !map_map. apply Zsum_map_ext. intros x _. f_equal. lia.
Qed.

Lemma isum_ext p h h' :
  (forall x, h x = h' x) -> isum p h = isum p h'.
Proof. intros H. unfold isum. apply Zsum_map_ext. intros x _. apply H. Qed.

Lemma isum_add p h h' :
  isum p (fun x => h x + h' x) = isum p h + isum p h'.
Proof. unfold isum. apply Zsum_map_add. Qed.

Lemma isum_Zsum {B} p (T : Z -> B -> Z) ys :
  isum p (fun x => Zsum (map (fun y => T x y) ys))
  = Zsum (map (fun y => isum p (fun x => T x y)) ys).
Proof. unfold isum. apply Zsum_swap. Qed.

Lemma range_succ k : range (Z.of_nat (S k)) = range (Z.of_nat k) ++ [Z.of_nat k].
Proof.
  unfold range. rewrite !Nat2Z.id, seq_S, map_app. reflexivity.
Qed.

(** Summing over [0 .. 2K) by the lowest bit. *)
Lemma Zsum_range_low_bit (F : Z -> Z) K :
  0 <= K ->
  Zsum (map F (range (2 * K)))
  = Zsum (map (fun j => F (2 * j) + F (2 * j + 1)) (range K)).
Proof.
  intros HK. rewrite <- (Z2Nat.id K HK). generalize (Z.to_nat K). clear.
  induction n as [|k IH]; [reflexivity|].
  replace (2 * Z.of_nat (S k)) with (Z.of_nat (S (S (2 * k)))) by lia.
  rewrite !range_succ, !map_app, !Zsum_app.
  replace (Z.of_nat (2 * k)) with (2 * Z.of_nat k) by lia.
  rewrite IH. cbn [map]. rewrite !Zsum_cons.
  replace (Z.of_nat (S (2 * k))) with (2 * Z.of_nat k + 1) by lia.
  cbn [Zsum fold_right]. lia.
Qed.

(** Choosing one of two sub-intervals on every axis in all [2^m] ways and
    adding the sums over the sub-boxes up gives the sum over the box. *)
Lemma cells_split (ax : nat -> Z * Z) (piece : bool -> nat -> Z * Z) :
  forall m s g,
    (forall k h, (s <= k < s + m)%nat ->
       isum (ax k) h = isum (piece true k) h + isum (piece false k) h) ->
    Zsum (map g (Ref.cells_of (map ax (seq s m))))
    = Zsum (map (fun i =>
                   Zsum (map g (Ref.cells_of
                     (map (fun k => piece (Z.testbit i (Z.of_nat (k - s))) k)
                          (seq s m)))))
                (range (2 ^ Z.of_nat m))).
Proof.
  induction m as [|m IH]; intros s g Hax.
  - change (range (2 ^ Z.of_nat 0)) with [0].
    cbn [seq map Ref.cells_of Zsum fold_right]. lia.
  - replace (2 ^ Z.of_nat (S m)) with (2 * 2 ^ Z.of_nat m)
      by (rewrite Nat2Z.inj_succ, Z.pow_succ_r by lia; reflexivity).
    rewrite Zsum_range_low_bit by lia.
    cbn [seq map]. rewrite box_sum_cons.
    rewrite (isum_ext _ _ _
               (fun x => IH (S s) (fun c => g (x :: c))
                           (fun k h Hk => Hax k h ltac:(lia)))).
    rewrite isum_Zsum. apply Zsum_map_ext. intros j Hj. apply in_range in Hj.
    rewrite Hax by lia. rewrite !box_sum_cons.
    assert (Hbits0 :
      map (fun k => piece (Z.testbit (2 * j) (Z.of_nat (k - s))) k)
          (seq (S s) m)
      = map (fun k => piece (Z.testbit j (Z.of_nat (k - S s))) k) (seq (S s) m)).
    { apply map_ext_in. intros k Hk. apply in_seq in Hk.
      replace (Z.of_nat (k - s)) with (Z.succ (Z.of_nat (k - S s))) by lia.
      rewrite Z.double_bits_succ. reflexivity. }
    assert (Hbits1 :
      map (fun k => piece (Z.testbit (2 * j + 1) (Z.of_nat (k - s))) k)
          (seq (S s) m)
      = map (fun k => piece (Z.testbit j (Z.of_nat (k - S s))) k) (seq (S s) m)).
    { apply map_ext_in. intros k Hk. apply in_seq in Hk.
      replace (Z.of_nat (k - s)) with (Z.succ (Z.of_nat (k - S s))) by lia.
      f_equal. apply (Z.testbit_succ_r j true). lia. }
    rewrite Nat.sub_diag, Hbits0, Hbits1.
    change (Z.of_nat 0) with 0.
    rewrite Z.testbit_even_0, Z.testbit_odd_0. lia.
Qed.

(** A box with an empty axis has no cell. *)
Lemma cells_of_empty ax : (exists p, In p ax /\ snd p <= fst p) -> Ref.cells_of ax = [].
Proof.
  induction ax as [|[a b] ax IH]; intros (p & Hin & Hp); [destruct Hin|].
  cbn [Ref.cells_of]. destruct Hin as [<-|Hin].
  - cbn [fst snd] in Hp. rewrite range_nonpos by lia. reflexivity.
  - rewrite IH by (exists p; split; assumption).
    induction (map _ _) as [|x xs IHx]; [reflexivity|exact IHx].
Qed.

(** The only cell of a box of extent 1 on every axis. *)
Lemma cells_of_point (lo : nat -> Z) m s :
  Ref.cells_of (map (fun k => (lo k, lo k + 1)) (seq s m)) = [map lo (seq s m)].
Proof.
  revert s. induction m as [|m IH]; intros s; [reflexivity|].
  cbn [seq map Ref.cells_of]. rewrite IH.
  replace (lo s + 1 - lo s) with 1 by lia.
  change (range 1) with [0]. cbn [map flat_map app].
  rewrite Z.add_0_r. reflexivity.
Qed.


Section BoxSums.
Variable n : nat.

Lemma axes_orthant d i :
  0 <= i < N n ->
  axes n (Cube.at_ (Cube.Subdivide n d) i)
  = map (fun k =>
           if Z.testbit i (Z.of_nat (k - 0))
           then (nth k (Cube.l d) 0,
                 Z.quot (nth k (Cube.l d) 0 + nth k (Cube.r d) 0) 2)
           else (Z.quot (nth k (Cube.l d) 0 + nth k (Cube.r d) 0) 2,
                 nth k (Cube.r d) 0))
        (seq 0 n).
Proof.
  intros Hi. unfold axes. apply map_ext_in. intros k Hk. apply in_seq in Hk.
  destruct (orthant_axis n d i k Hi ltac:(lia)) as [-> ->].
  rewrite Nat.sub_0_r. destruct (Z.testbit i (Z.of_nat k)); reflexivity.
Qed.

Lemma axes_IntersectWith a b :
  axes n (Cube.IntersectWith n a b)
  = map (fun k => Cube.intersect_axis a b k) (seq 0 n).
Proof.
  unfold axes. apply map_ext_in. intros k Hk. apply in_seq in Hk.
  destruct (IntersectWith_axis n a b k ltac:(lia)) as [-> ->].
  destruct (Cube.intersect_axis a b k); reflexivity.
Qed.

(** The sums over the orthants of a box add up to the sum over the box. *)
Lemma box_split_orthants f d :
  (forall k, (k < n)%nat -> nth k (Cube.l d) 0 <= nth k (Cube.r d) 0) ->
  Zsum (map (fun i => box_sum n f (Cube.at_ (Cube.Subdivide n d) i))
            (range (N n)))
  = box_sum n f d.
Proof.
  intros Hwf. unfold box_sum at 2. unfold axes.
  rewrite (cells_split _
             (fun b k =>
                if b
                then (nth k (Cube.l d) 0,
                      Z.quot (nth k (Cube.l d) 0 + nth k (Cube.r d) 0) 2)
                else (Z.quot (nth k (Cube.l d) 0 + nth k (Cube.r d) 0) 2,
                      nth k (Cube.r d) 0)) n 0 f).
  - rewrite <- N_eq. apply Zsum_map_ext. intros i Hi. apply in_range in Hi.
    unfold box_sum. rewrite (axes_orthant d i Hi). reflexivity.
  - intros k h Hk. apply isum_split, midpoint_between, Hwf. lia.
Qed.

(** The sums over the parts of a query in the orthants of a box add up to
    the sum over the query. *)
Lemma box_split_query f q d :
  Client.contained n q d ->
  Zsum (map (fun i => box_sum n f
                        (Cube.IntersectWith n
                           (Cube.at_ (Cube.Subdivide n d) i) q))
            (range (N n)))
  = box_sum n f q.
Proof.
  intros Hc. unfold box_sum at 2. unfold axes.
  set (piece := fun (b : bool) (k : nat) =>
         let m := Z.quot (nth k (Cube.l d) 0 + nth k (Cube.r d) 0) 2 in
         let lo := Z.max (if b then nth k (Cube.l d) 0 else m) (nth k (Cube.l q) 0) in
         let hi := Z.min (if b then m else nth k (Cube.r d) 0) (nth k (Cube.r q) 0) in
         if lo >=? hi then (0, 0) else (lo, hi)).
  rewrite (cells_split _ piece n 0 f).
  - rewrite <- N_eq. apply Zsum_map_ext. intros i Hi. apply in_range in Hi.
    unfold box_sum. rewrite axes_IntersectWith.
    do 3 f_equal. apply map_ext_in. intros k Hk. apply in_seq in Hk.
    unfold Cube.intersect_axis, piece.
    destruct (orthant_axis n d i k Hi ltac:(lia)) as [-> ->].
    rewrite Nat.sub_0_r. destruct (Z.testbit i (Z.of_nat k)); reflexivity.
  - intros k h Hk. destruct (Hc k ltac:(lia)) as (H1 & H2 & H3).
    pose proof (midpoint_between (nth k (Cube.l d) 0) (nth k (Cube.r d) 0)
                  ltac:(lia)) as Hm.
    unfold piece. cbv zeta.
    set (m := Z.quot (nth k (Cube.l d) 0 + nth k (Cube.r d) 0) 2) in *.
    set (ld := nth k (Cube.l d) 0) in *. set (rd := nth k (Cube.r d) 0) in *.
    set (lq := nth k (Cube.l q) 0) in *. set (rq := nth k (Cube.r q) 0) in *.
    rewrite (Z.max_r ld lq), (Z.min_r rd rq) by lia.
    destruct (Z.le_gt_cases m lq) as [Hlo|Hlo].
    + rewrite (Z.max_r m lq) by lia.
      replace (lq >=? Z.min m rq) with true by lia.
      rewrite (isum_empty (0, 0)) by (cbn; lia).
      destruct (lq >=? rq) eqn:E; [|lia].
      rewrite !isum_empty by (cbn [fst snd]; lia). reflexivity.
    + rewrite (Z.max_l m lq) by lia.
      destruct (Z.le_gt_cases rq m) as [Hhi|Hhi].
      * rewrite (Z.min_r m rq) by lia.
        replace (m >=? rq) with true by lia.
        rewrite (isum_empty (0, 0)) by (cbn; lia).
        destruct (lq >=? rq) eqn:E; [|lia].
        rewrite !isum_empty by (cbn [fst snd]; lia). reflexivity.
      * rewrite (Z.min_l m rq) by lia.
        replace (lq >=? m) with false by lia.
        replace (m >=? rq) with false by lia.
        apply isum_split. lia.
Qed.

(** A box of volume 0 has no cell. *)
Lemma box_sum_empty f D : Cube.Volume n D = 0 -> box_sum n f D = 0.
Proof.
  rewrite Volume_prod. intros H.
  apply prod_upto_zero_inv in H as (k & Hk & H).
  unfold box_sum. rewrite cells_of_empty; [reflexivity|].
  exists (nth k (Cube.l D) 0, nth k (Cube.r D) 0). split; [|cbn [fst snd]; lia].
  unfold axes. apply in_map_iff. exists k. split; [reflexivity|].
  apply in_seq. lia.
Qed.

(** A box of volume 1 has one cell, its lower corner. *)
Lemma box_sum_point f D :
  (forall k, (k < n)%nat -> nth k (Cube.l D) 0 <= nth k (Cube.r D) 0) ->
  Cube.IsPoint n D = true ->
  box_sum n f D = f (map (fun k => nth k (Cube.l D) 0) (seq 0 n)).
Proof.
  intros Hwf Hpt. unfold Cube.IsPoint in Hpt. apply Z.eqb_eq in Hpt.
  rewrite Volume_prod in Hpt.
  assert (Hge : forall k, (k < n)%nat ->
            1 <= nth k (Cube.r D) 0 - nth k (Cube.l D) 0).
  { intros k Hk. specialize (Hwf k Hk).
    pose proof (prod_upto_nonzero _ n ltac:(rewrite Hpt; discriminate) k Hk)
      as Hnz. cbv beta in Hnz. lia. }
  pose proof (prod_upto_eq_1 _ n Hge Hpt) as Hone. cbv beta in Hone.
  unfold box_sum, axes.
  rewrite (map_ext_in _ (fun k => (nth k (Cube.l D) 0, nth k (Cube.l D) 0 + 1))).
  - rewrite (cells_of_point (fun k => nth k (Cube.l D) 0)).
    cbn [map Zsum fold_right]. lia.
  - intros k Hk. apply in_seq in Hk. f_equal. specialize (Hone k ltac:(lia)). lia.
Qed.

Lemma box_sum_eqb f q d : Cube.eqb n q d = true -> box_sum n f q = box_sum n f d.
Proof.
  intros Heq. unfold box_sum. do 3 f_equal. unfold axes.
  apply map_ext_in. intros k Hk. apply in_seq in Hk.
  unfold Cube.eqb in Heq. rewrite forallb_forall in Heq.
  specialize (Heq k). rewrite in_seq in Heq. specialize (Heq ltac:(lia)).
  f_equal; lia.
Qed.

End BoxSums.


Section SumsInTheTree.
Variable n : nat.

Lemma children_sum_loop (g : Z -> Z) v st xs :
  (forall i, In i xs -> vec_get (tree_ st) (Child n v i) = Some (g i)) ->
  forall acc,
    for_each xs (fun i sum => x <- get_tree (Child n v i) ;; ret (sum + x)) acc st
    = Ok (acc + Zsum (map g xs), st).
Proof.
  induction xs as [|i xs IH]; intros Hg acc.
  - cbn. rewrite Z.add_0_r. reflexivity.
  - rewrite for_each_cons.
    erewrite bind_Ok; cycle 1.
    { erewrite bind_Ok by (apply get_tree_Ok, Hg; left; reflexivity).
      reflexivity. }
    rewrite IH by (intros j Hj; apply Hg; right; exact Hj).
    cbn [map]. rewrite Zsum_cons. f_equal. f_equal. lia.
Qed.

(** [UpdateValueFromBelow] stores the sum of the children's values. *)
Lemma UpdateValueFromBelow_sum (g : Z -> Z) v st u st' :
  (forall i, 0 <= i < N n -> vec_get (tree_ st) (Child n v i) = Some (g i)) ->
  UpdateValueFromBelow n v st = Ok (u, st') ->
  vec_get (tree_ st') v = Some (Zsum (map g (range (N n)))).
Proof.
  intros Hg H. unfold UpdateValueFromBelow in H.
  rewrite (bind_Ok _ _ _ _ _
             (children_sum_loop g v st (range (N n))
                (fun i Hi => Hg i (proj1 (in_range _ _) Hi)) 0)) in H.
  apply set_tree_inv in H as [Hv ->]. cbn [tree_].
  rewrite Z.add_0_l. apply vec_get_insert_eq, Hv.
Qed.

Lemma summed_frame f st st' h d v :
  (forall w, desc n v w -> vec_get (tree_ st') w = vec_get (tree_ st) w) ->
  summed n f st h d v -> summed n f st' h d v.
Proof.
  revert d v. induction h as [|h IH]; intros d v Hag H; [exact H|].
  cbn [summed] in H |- *. destruct H as [Hv Hch].
  split; [rewrite (Hag v (desc_refl n v)); exact Hv|].
  intros Hpt i Hi. apply IH; [|exact (Hch Hpt i Hi)].
  intros w Hw. apply Hag. eapply desc_Child; eassumption.
Qed.

Lemma summed_root f st h d v :
  summed n f st h d v -> vec_get (tree_ st) v = Some (box_sum n f d).
Proof. destruct h; [intros []|intros [H _]; exact H]. Qed.

(** When the constructor's recursion returns, every node stores the sum of
    the array entries of the cells of its domain. *)
Lemma BuildTreeR_summed arr st0 fuel :
  (1 <= n)%nat ->
  forall d v st u st',
    BuildTreeR n fuel arr d v st = Ok (u, st') ->
    entire_domain_ st = entire_domain_ st0 ->
    (forall k, (k < n)%nat -> nth k (Cube.l d) 0 <= nth k (Cube.r d) 0) ->
    summed n (entry n arr st0) st' fuel d v.
Proof.
  intros Hn. induction fuel as [|fuel IH]; intros d v st u st' H He Hwf;
    [discriminate|].
  pose proof (BuildTreeR_writes n _ _ _ _ _ _ _ H) as Hroot.
  assert (Hv : 0 <= v) by (apply vec_get_bounds in Hroot; lia).
  rewrite BuildTreeR_S in H. cbn [summed].
  destruct (Cube.IsPoint n d) eqn:Hpt.
  - apply bind_inv in H as (x & s1 & H1 & H2).
    apply get_arr_inv in H1 as [Hx ->]. apply set_tree_inv in H2 as [Hb ->].
    split; [|discriminate]. cbn [tree_].
    rewrite vec_get_insert_eq by exact Hb. f_equal.
    rewrite (box_sum_point n _ d Hwf Hpt). unfold entry.
    rewrite (Linear_entire n st st0 _ (eq_sym He)).
    rewrite (Linear_ext n st _ (Cube.l d) Hn).
    + apply vec_get_Some in Hx as [_ Hx]. symmetry.
      apply nth_lookup_Some with (d := 0) in Hx. exact Hx.
    + intros k Hk. rewrite nth_map_seq by exact Hk. reflexivity.
  - apply bind_inv in H as ([] & s1 & Hloop & Hup).
    destruct (touches_UpdateValueFromBelow n v _ _ _ Hup) as [(He2 & _) Hag].
    assert (Hwfq : forall i, 0 <= i < N n -> forall k, (k < n)%nat ->
              nth k (Cube.l (Cube.at_ (Cube.Subdivide n d) i)) 0
              <= nth k (Cube.r (Cube.at_ (Cube.Subdivide n d) i)) 0).
    { intros i Hi k Hk. destruct (orthant_axis n d i k Hi Hk) as [-> ->].
      pose proof (midpoint_between _ _ (Hwf k Hk)).
      destruct (Z.testbit i (Z.of_nat k)); lia. }
    assert (Hch : forall i, In i (range (N n)) ->
              entire_domain_ s1 = entire_domain_ st0 ->
              summed n (entry n arr st0) s1 fuel
                (Cube.at_ (Cube.Subdivide n d) i) (Child n v i)).
    { apply (for_each_establish
               (fun i s => entire_domain_ s = entire_domain_ st0 ->
                           summed n (entry n arr st0) s fuel
                             (Cube.at_ (Cube.Subdivide n d) i) (Child n v i))
               (range (N n))
               (fun i (_ : unit) =>
                  BuildTreeR n fuel arr (Cube.at_ (Cube.Subdivide n d) i)
                             (Child n v i)) (NoDup_range _))
        with (acc := tt) (st := st) (a := tt); [| |exact Hloop].
      - intros j acc s a s' Hj Hrun He'. apply in_range in Hj.
        destruct (touches_BuildTreeR n _ _ _ _ _ _ _ Hrun) as [(He3 & _) _].
        eapply IH; [exact Hrun|congruence|apply Hwfq, Hj].
      - intros j k acc s a s' Hj Hk Hjk Hrun HQ He'.
        apply in_range in Hj, Hk.
        destruct (touches_BuildTreeR n _ _ _ _ _ _ _ Hrun) as [(He3 & _) Hag'].
        eapply summed_frame; [|apply HQ; congruence].
        intros w Hw. apply Hag'.
        exact (siblings_disjoint n v j k w Hv Hj Hk Hjk Hw). }
    assert (He1 : entire_domain_ s1 = entire_domain_ st0).
    { destruct (touches_for_each (desc n v) (range (N n))
                  (fun i (_ : unit) =>
                     BuildTreeR n fuel arr (Cube.at_ (Cube.Subdivide n d) i)
                                (Child n v i)) tt
                  (fun i acc' Hi =>
                     touches_weaken _ _ _
                       (fun w Hw => desc_Child n v i w
                                      (proj1 (in_range _ _) Hi) Hw)
                       (touches_BuildTreeR n fuel arr _ _))
                  _ _ _ Hloop) as [(He3 & _) _].
      congruence. }
    split.
    + rewrite (UpdateValueFromBelow_sum
                 (fun i => box_sum n (entry n arr st0)
                             (Cube.at_ (Cube.Subdivide n d) i)) v s1 _ _
                 (fun i Hi => summed_root _ _ _ _ _
                                (Hch i (proj2 (in_range _ _) Hi) He1)) Hup).
      f_equal. apply box_split_orthants, Hwf.
    + intros _ i Hi. eapply summed_frame;
        [|exact (Hch i (proj2 (in_range _ _) Hi) He1)].
      intros w Hw. apply Hag. intros <-.
      exact (parent_not_desc n v i Hv Hi Hw).
Qed.

(** With nothing pending, a tree that stores the sums answers every query
    by the sum over the query domain, pushing nothing. *)
Lemma summed_settled f st :
  (forall w, is_Some (vec_get (tree_ st) w) ->
     vec_get (operations_ st) w = Some (Operation.mk false 0)) ->
  forall h d v q,
    summed n f st h d v -> Client.contained n q d -> Cube.Volume n q <> 0 ->
    Settled n h v q d (box_sum n f q) st.
Proof.
  intros Hops. induction h as [|h IH]; intros d v q Hs Hc Hne; [destruct Hs|].
  cbn [summed] in Hs. destruct Hs as [Hv Hch].
  cbn [Settled]. destruct (Cube.eqb n q d) eqn:Heq.
  - rewrite (box_sum_eqb n f q d Heq). exact Hv.
  - destruct (Cube.IsPoint n d) eqn:Hpt.
    { rewrite (contained_in_point n q d Hc Hne Hpt) in Heq. discriminate. }
    specialize (Hch eq_refl).
    assert (Hsome : is_Some (vec_get (tree_ st) v))
      by (rewrite Hv; eexists; reflexivity).
    split.
    + split; [apply Hops, Hsome|]. split; [exact Hsome|].
      intros i Hi. pose proof (summed_root _ _ _ _ _ (Hch i Hi)) as Hci.
      assert (Hcs : is_Some (vec_get (tree_ st) (Child n v i)))
        by (rewrite Hci; eexists; reflexivity).
      split; [rewrite (Hops _ Hcs); eexists; reflexivity|].
      intros _. split; [apply Hops, Hcs|exact Hcs].
    + replace (box_sum n f q)
        with (0 + Zsum (map
                (fun i => if negb (Cube.IsEmpty n
                                     (Cube.IntersectWith n
                                        (Cube.at_ (Cube.Subdivide n d) i) q))
                          then box_sum n f
                                 (Cube.IntersectWith n
                                    (Cube.at_ (Cube.Subdivide n d) i) q)
                          else 0) (range (N n)))).
      * apply (sum_where_all _ _
                 (fun i => box_sum n f
                             (Cube.IntersectWith n
                                (Cube.at_ (Cube.Subdivide n d) i) q))
                 (range (N n)) 0).
        intros i Hi Hcond. apply in_range in Hi.
        apply negb_true_iff, Z.eqb_neq in Hcond.
        apply IH; [apply Hch, Hi| |exact Hcond].
        apply IntersectWith_contained, Hcond.
      * rewrite <- (box_split_query n f q d Hc), Z.add_0_l.
        apply Zsum_map_ext. intros i _. unfold Cube.IsEmpty.
        destruct (Z.eqb_spec
                    (Cube.Volume n
                       (Cube.IntersectWith n
                          (Cube.at_ (Cube.Subdivide n d) i) q)) 0) as [E|_];
          cbn [negb]; [|reflexivity].
        symmetry. apply box_sum_empty, E.
Qed.

Lemma combine_nth_seq (l r : list Z) :
  length l = length r ->
  combine l r = map (fun k => (nth k l 0, nth k r 0)) (seq 0 (length l)).
Proof.
  revert r. induction l as [|x l IH]; intros [|y r] Hlen; try discriminate;
    [reflexivity|].
  cbn [combine length seq map nth]. f_equal.
  rewrite <- seq_shift, map_map. apply IH. cbn in Hlen. lia.
Qed.

Lemma cells_axes D :
  length (Cube.l D) = n -> length (Cube.r D) = n ->
  Ref.cells n D = Ref.cells_of (axes n D).
Proof.
  intros Hl Hr. unfold Ref.cells, axes.
  rewrite <- Hl at 1. rewrite <- Hr at 1. rewrite !firstn_all.
  rewrite combine_nth_seq by congruence. rewrite Hl. reflexivity.
Qed.

End SumsInTheTree.




(** ** Grids with a power of two on every axis *)

Lemma nth_repeat_lt (x : Z) m k : (k < m)%nat -> nth k (repeat x m) 0 = x.
Proof.
  revert k. induction m as [|m IH]; intros k Hk; [lia|].
  destruct k as [|k]; [reflexivity|]. cbn [repeat nth]. apply IH. lia.
Qed.

Lemma pow_ge_1 a b : 1 <= a -> 0 <= b -> 1 <= a ^ b.
Proof. intros Ha Hb. pose proof (Z.pow_pos_nonneg a b ltac:(lia) Hb). lia. Qed.

Lemma prod_upto_const s m : prod_upto (fun _ => s) m = s ^ Z.of_nat m.
Proof.
  induction m as [|m IH]; [reflexivity|].
  rewrite prod_upto_S, IH, Nat2Z.inj_succ, Z.pow_succ_r by lia. lia.
Qed.

(** Where the index of a node can be at most [C - 1] on a level from which
    [P = N^j] more levels follow, no index leaves [2 * M] slots. *)
Lemma cap_bound N' P M C :
  2 <= N' -> 1 <= P -> 1 <= M -> 0 <= C ->
  (C * (N' - 1) + 1) * P <= N' * M -> C <= 2 * M.
Proof.
  intros HN HP HM HC H.
  assert (H1 : C * (N' - 1) + 1 <= N' * M).
  { assert (0 <= (C * (N' - 1) + 1) * (P - 1))
      by (apply Z.mul_nonneg_nonneg; [apply Z.add_nonneg_nonneg;
            [apply Z.mul_nonneg_nonneg|]|]; lia).
    lia. }
  destruct (Z_le_gt_dec C (2 * M)) as [Hle|Hgt]; [exact Hle|]. exfalso.
  assert (H2 : (2 * M + 1) * (N' - 1) <= C * (N' - 1))
    by (apply Z.mul_le_mono_nonneg_r; lia).
  assert (H3 : 0 <= M * (N' - 2)) by (apply Z.mul_nonneg_nonneg; lia).
  lia.
Qed.

Section PowerOfTwo.
Variable n : nat.
Variable K : nat.
Hypothesis Hn : (1 <= n)%nat.

Lemma N_ge_2 : 2 <= N n.
Proof.
  rewrite N_eq. change 2 with (2 ^ 1) at 1.
  apply Z.pow_le_mono_r; lia.
Qed.

Lemma Volume_cube B s d :
  cube_of_side n B s d -> Cube.Volume n d = s ^ Z.of_nat n.
Proof.
  intros H. rewrite Volume_prod, <- prod_upto_const.
  apply prod_upto_ext. intros k Hk. destruct (H k Hk) as (_ & -> & _). lia.
Qed.

Lemma IsPoint_cube B j d :
  cube_of_side n B (2 ^ Z.of_nat j) d ->
  Cube.IsPoint n d = match j with O => true | S _ => false end.
Proof.
  intros H. unfold Cube.IsPoint. rewrite (Volume_cube _ _ _ H).
  destruct j as [|j].
  - change (2 ^ Z.of_nat 0) with 1. rewrite Z.pow_1_l by lia. reflexivity.
  - apply Z.eqb_neq.
    assert (2 <= 2 ^ Z.of_nat (S j)).
    { change 2 with (2 ^ 1) at 1. apply Z.pow_le_mono_r; lia. }
    assert (2 ^ Z.of_nat (S j) <= (2 ^ Z.of_nat (S j)) ^ Z.of_nat n).
    { rewrite <- (Z.pow_1_r (2 ^ Z.of_nat (S j))) at 1.
      apply Z.pow_le_mono_r; lia. }
    lia.
Qed.

Lemma orthant_cube B s d i :
  cube_of_side n B (2 * s) d -> 0 <= s -> 0 <= i < N n ->
  cube_of_side n B s (Cube.at_ (Cube.Subdivide n d) i).
Proof.
  intros H Hs Hi k Hk. destruct (H k Hk) as (Hl & Hr & HB).
  destruct (orthant_axis n d i k Hi Hk) as [-> ->]. rewrite Hr.
  assert (Hm : Z.quot (nth k (Cube.l d) 0 + (nth k (Cube.l d) 0 + 2 * s)) 2
               = nth k (Cube.l d) 0 + s).
  { Z.to_euclidean_division_equations. lia. }
  rewrite Hm. destruct (Z.testbit i (Z.of_nat k)); lia.
Qed.

(** With the same extent [B] on every axis, [Linear] of a cell of the grid
    is an index below [B^n]. *)
Lemma Linear_bound B st c :
  0 <= B ->
  (forall i, (S i < n)%nat -> nth i (dims st) 0 = B) ->
  (forall k, (k < n)%nat -> 0 <= nth k c 0 < B) ->
  0 <= Linear n st c < B ^ Z.of_nat n.
Proof.
  intros HB Hd Hc. unfold Linear.
  assert (Hgen : forall m, (m < n)%nat ->
            0 <= fold_left
                   (fun idx i => nth i (dims st) 0 * idx + nth (i + 1) c 0)
                   (seq 0 m) (nth 0 c 0) < B ^ Z.of_nat (S m)).
  { induction m as [|m IH]; intros Hm.
    - cbn [seq fold_left]. rewrite Z.pow_1_r. apply Hc. lia.
    - rewrite seq_S, fold_left_app. cbn [fold_left Nat.add].
      specialize (IH ltac:(lia)). rewrite (Hd m) by lia.
      pose proof (Hc (m + 1)%nat ltac:(lia)) as Hc1.
      rewrite (Nat2Z.inj_succ (S m)), Z.pow_succ_r by lia.
      set (idx := fold_left _ _ _) in *. nia. }
  specialize (Hgen (n - 1)%nat ltac:(lia)).
  replace (S (n - 1)) with n in Hgen by lia. exact Hgen.
Qed.

Variable arr : list Z.
Variable len : nat.
Variable E : Cube.t.
Hypothesis HE : forall i, (i < n)%nat -> nth i (Cube.r E) 0 = 2 ^ Z.of_nat K.
Hypothesis Harr : (2 ^ Z.of_nat K) ^ Z.of_nat n <= Z.of_nat (length arr).
Hypothesis Hlen : Z.of_nat len = 4 * N n ^ Z.of_nat K.

(** The build over a cube of side [2^j] returns when the index of its
    node is below the number [C] of nodes down to its level. *)
Lemma BuildTreeR_cube_returns fuel :
  forall j d v C st,
    (j < fuel)%nat ->
    cube_of_side n (2 ^ Z.of_nat K) (2 ^ Z.of_nat j) d ->
    0 <= v -> v + 1 <= C ->
    (C * (N n - 1) + 1) * N n ^ Z.of_nat j <= N n * N n ^ Z.of_nat K ->
    sized len st -> entire_domain_ st = E ->
    exists st', BuildTreeR n fuel arr d v st = Ok (tt, st') /\
                sized len st' /\ entire_domain_ st' = E.
Proof.
  pose proof N_ge_2 as HN.
  assert (HM : 1 <= N n ^ Z.of_nat K) by (apply pow_ge_1; lia).
  induction fuel as [|fuel IH]; intros j d v C st Hj Hd Hv HvC Hcap Hs He; [lia|].
  assert (HP : 1 <= N n ^ Z.of_nat j) by (apply pow_ge_1; lia).
  assert (HC0 : 0 <= C) by lia.
  pose proof (cap_bound _ _ _ _ HN HP HM HC0 Hcap) as HC.
  assert (Hvb : 0 <= v < Z.of_nat len) by lia.
  rewrite BuildTreeR_S, (IsPoint_cube _ _ _ Hd). destruct j as [|j].
  - destruct (Linear_bound (2 ^ Z.of_nat K) st (Cube.l d)) as [Hlo Hhi].
    + lia.
    + intros i Hi. unfold dims. rewrite He. apply HE. lia.
    + intros k Hk. destruct (Hd k Hk) as (H1 & H2 & H3).
      change (2 ^ Z.of_nat 0) with 1 in H2. lia.
    + destruct (proj2 (vec_get_bounds arr (Linear n st (Cube.l d))))
        as [x Hx]; [lia|].
      destruct (set_tree_total len v x st Hs Hvb) as (st' & Hset & Hs').
      exists st'. split; [|split; [exact Hs'|]].
      * erewrite bind_Ok by (unfold get_arr; rewrite Hx; reflexivity).
        exact Hset.
      * apply set_tree_inv in Hset as [_ ->]. exact He.
  - assert (Hchild : forall i, 0 <= i < N n ->
              0 <= Child n v i /\ Child n v i + 1 <= N n * C + 1).
    { intros i Hi. unfold Child. nia. }
    assert (Hcap' : ((N n * C + 1) * (N n - 1) + 1) * N n ^ Z.of_nat j
                    <= N n * N n ^ Z.of_nat K).
    { rewrite Nat2Z.inj_succ, Z.pow_succ_r in Hcap by lia.
      replace (((N n * C + 1) * (N n - 1) + 1) * N n ^ Z.of_nat j)
        with ((C * (N n - 1) + 1) * (N n * N n ^ Z.of_nat j)) by ring.
      exact Hcap. }
    destruct (for_each_total
                (fun s => sized len s /\ entire_domain_ s = E)
                (range (N n))
                (fun i (_ : unit) =>
                   BuildTreeR n fuel arr (Cube.at_ (Cube.Subdivide n d) i)
                              (Child n v i)))
      with (acc := tt) (st := st) as ([] & s1 & Hloop & Hs1 & He1).
    + intros i acc s Hi [Hss Hse]. apply in_range in Hi.
      destruct (Hchild i Hi) as [Hc0 Hc1].
      destruct (IH j (Cube.at_ (Cube.Subdivide n d) i) (Child n v i)
                  (N n * C + 1) s) as (s' & Hrun & Hss' & Hse');
        try assumption; [lia| |].
      * apply orthant_cube; [|lia|exact Hi].
        rewrite Nat2Z.inj_succ, Z.pow_succ_r in Hd by lia. exact Hd.
      * exists tt, s'. split; [exact Hrun|split; assumption].
    + split; assumption.
    + destruct (UpdateValueFromBelow_total n len v s1 Hs1 Hvb)
        as (s2 & Hup & Hs2).
      { intros i Hi. destruct (Hchild i Hi) as [Hc0 Hc1].
        assert (HPj : 1 <= N n ^ Z.of_nat j) by (apply pow_ge_1; lia).
        assert (HC1 : 0 <= N n * C + 1) by nia.
        pose proof (cap_bound _ _ _ _ HN HPj HM HC1 Hcap'). lia. }
      exists s2. split; [|split; [exact Hs2|]].
      * erewrite bind_Ok by exact Hloop. exact Hup.
      * destruct (touches_UpdateValueFromBelow n v _ _ _ Hup) as [(He2 & _) _].
        congruence.
Qed.

End PowerOfTwo.







(** * Properties of the one-axis variant *)

Section OneDimFacts.
Import OneDim OneDim.SegmentTree.
Local Open Scope onedim_scope.

Lemma od_bind_Ok {A B} (m : M A) (k : A -> M B) st a st' :
  m st = Ok (a, st') -> bind m k st = k a st'.
Proof. unfold bind. intros ->. reflexivity. Qed.

Lemma od_bind_Err {A B} (m : M A) (k : A -> M B) st e :
  m st = Err e -> bind m k st = Err e.
Proof. unfold bind. intros ->. reflexivity. Qed.

Lemma od_bind_inv {A B} (m : M A) (k : A -> M B) st b st' :
  bind m k st = Ok (b, st') ->
  exists a st1, m st = Ok (a, st1) /\ k a st1 = Ok (b, st').
Proof.
  unfold bind. destruct (m st) as [[a st1]|e]; [|discriminate].
  intros H. exists a, st1. split; [reflexivity|exact H].
Qed.

Lemma od_ret_inv {A} (a b : A) st st' :
  ret a st = Ok (b, st') -> b = a /\ st' = st.
Proof. unfold ret. intros H. injection H as -> ->. split; reflexivity. Qed.

Lemma od_get_tree_inv v st x st' :
  get_tree v st = Ok (x, st') -> vec_get (tree_ st) v = Some x /\ st' = st.
Proof.
  unfold get_tree. destruct (vec_get (tree_ st) v); [|discriminate].
  intros H. injection H as -> ->. split; reflexivity.
Qed.

Lemma od_get_op_inv v st o st' :
  get_op v st = Ok (o, st') -> vec_get (operations_ st) v = Some o /\ st' = st.
Proof.
  unfold get_op. destruct (vec_get (operations_ st) v); [|discriminate].
  intros H. injection H as -> ->. split; reflexivity.
Qed.

Lemma od_get_arr_inv arr k st x st' :
  get_arr arr k st = Ok (x, st') -> vec_get arr k = Some x /\ st' = st.
Proof.
  unfold get_arr. destruct (vec_get arr k); [|discriminate].
  intros H. injection H as -> ->. split; reflexivity.
Qed.

Lemma od_set_tree_inv v x st u st' :
  set_tree v x st = Ok (u, st') ->
  0 <= v < Z.of_nat (length (tree_ st)) /\
  st' = mk (size_ st) (<[Z.to_nat v := x]> (tree_ st)) (operations_ st).
Proof.
  unfold set_tree. destruct (vec_set (tree_ st) v x) as [tr|] eqn:E;
    [|discriminate].
  apply vec_set_inv in E as [Hv ->]. intros H. injection H as _ <-.
  split; [exact Hv|reflexivity].
Qed.

Lemma od_set_op_inv v o st u st' :
  set_op v o st = Ok (u, st') ->
  0 <= v < Z.of_nat (length (operations_ st)) /\
  st' = mk (size_ st) (tree_ st) (<[Z.to_nat v := o]> (operations_ st)).
Proof.
  unfold set_op. destruct (vec_set (operations_ st) v o) as [ops|] eqn:E;
    [|discriminate].
  apply vec_set_inv in E as [Hv ->]. intros H. injection H as _ <-.
  split; [exact Hv|reflexivity].
Qed.

Lemma od_get_tree_Ok v st x :
  vec_get (tree_ st) v = Some x -> get_tree v st = Ok (x, st).
Proof. unfold get_tree. intros ->. reflexivity. Qed.

Lemma od_get_op_Ok v st o :
  vec_get (operations_ st) v = Some o -> get_op v st = Ok (o, st).
Proof. unfold get_op. intros ->. reflexivity. Qed.

Lemma od_set_tree_same v st x :
  vec_get (tree_ st) v = Some x -> set_tree v x st = Ok (tt, st).
Proof.
  intros H. unfold set_tree. rewrite (vec_set_same _ _ _ H).
  destruct st. reflexivity.
Qed.

Lemma od_set_op_same v st o :
  vec_get (operations_ st) v = Some o -> set_op v o st = Ok (tt, st).
Proof.
  intros H. unfold set_op. rewrite (vec_set_same _ _ _ H).
  destruct st. reflexivity.
Qed.

Lemma od_set_tree_total len v x st :
  sized len st -> 0 <= v < Z.of_nat len ->
  exists st', set_tree v x st = Ok (tt, st') /\ sized len st' /\
              size_ st' = size_ st.
Proof.
  intros [Ht Ho] Hv. unfold set_tree, vec_set.
  destruct (proj2 (vec_get_bounds (tree_ st) v)) as [y ->]; [lia|].
  eexists. split; [reflexivity|]. split; [|reflexivity].
  split; cbn [tree_ operations_]; [rewrite length_insert|]; assumption.
Qed.

Lemma od_get_tree_total len v st :
  sized len st -> 0 <= v < Z.of_nat len -> exists x, get_tree v st = Ok (x, st).
Proof.
  intros [Ht _] Hv. unfold get_tree.
  destruct (proj2 (vec_get_bounds (tree_ st) v)) as [y ->]; [lia|].
  exists y. reflexivity.
Qed.

(** The two children in the vocabulary of node addresses. *)
Lemma Left_Child v : Left v = Child 1 v 0.
Proof. unfold Left, Child. change (N 1) with 2. lia. Qed.

Lemma Right_Child v : Right v = Child 1 v 1.
Proof. unfold Right, Child. change (N 1) with 2. lia. Qed.

Lemma od_summed_frame arr st st' h d v :
  (forall w, desc 1 v w -> vec_get (tree_ st') w = vec_get (tree_ st) w) ->
  summed arr st h d v -> summed arr st' h d v.
Proof.
  revert d v. induction h as [|h IH]; intros d v Hag H; [exact H|].
  cbn [summed] in H |- *. destruct H as [Hv Hch].
  split; [rewrite (Hag v (desc_refl 1 v)); exact Hv|].
  intros Hpt. destruct (Hch Hpt) as [HL HR]. split.
  - apply IH; [|exact HL]. intros w Hw. apply Hag.
    rewrite Left_Child in Hw. eapply (desc_Child 1 v 0); [|exact Hw].
    change (N 1) with 2. lia.
  - apply IH; [|exact HR]. intros w Hw. apply Hag.
    rewrite Right_Child in Hw. eapply (desc_Child 1 v 1); [|exact Hw].
    change (N 1) with 2. lia.
Qed.

Lemma od_summed_root arr st h d v :
  summed arr st h d v ->
  vec_get (tree_ st) v = Some (entries arr (Cube.l d) (Cube.r d)).
Proof. destruct h; [intros []|intros [H _]; exact H]. Qed.

Lemma entries_split arr a m b :
  a <= m <= b -> entries arr a b = entries arr a m + entries arr m b.
Proof. intros H. unfold entries. apply isum_split, H. Qed.

Lemma entries_one arr a x :
  vec_get arr a = Some x -> entries arr a (a + 1) = x.
Proof.
  intros H. unfold entries, isum. cbn [fst snd].
  replace (a + 1 - a) with 1 by lia. change (range 1) with [0].
  cbn [map Zsum fold_right]. rewrite !Z.add_0_r.
  apply vec_get_Some in H as [_ H].
  apply nth_lookup_Some with (d := 0) in H. exact H.
Qed.

Lemma BuildTree_S fuel arr l r v :
  BuildTree (S fuel) arr l r v =
    if r - l =? 1
    then x <- get_arr arr l ;; set_tree v x
    else
      BuildTree fuel arr l (Z.quot (l + r) 2) (Left v) ;;
      BuildTree fuel arr (Z.quot (l + r) 2) r (Right v) ;;
      UpdateValueFromBelow v.
Proof. reflexivity. Qed.

(** What the constructor's recursion has written when it returns. *)
Lemma od_BuildTree_summed arr fuel :
  forall a b v st u st',
    BuildTree fuel arr a b v st = Ok (u, st') -> a <= b ->
    size_ st' = size_ st /\ operations_ st' = operations_ st /\
    length (tree_ st') = length (tree_ st) /\
    (forall w, ~ desc 1 v w -> vec_get (tree_ st') w = vec_get (tree_ st) w) /\
    summed arr st' fuel (Cube.mk a b) v.
Proof.
  induction fuel as [|fuel IH]; intros a b v st u st' H Hab; [discriminate|].
  rewrite BuildTree_S in H. cbn [summed]. unfold Cube.IsPoint, Cube.Volume.
  cbn [Cube.l Cube.r]. destruct (b - a =? 1) eqn:Hpt.
  - apply od_bind_inv in H as (x & s1 & H1 & H2).
    apply od_get_arr_inv in H1 as [Hx ->].
    apply od_set_tree_inv in H2 as [Hv ->]. cbn [size_ tree_ operations_].
    split; [reflexivity|]. split; [reflexivity|].
    split; [apply length_insert|]. split.
    + intros w Hw. apply vec_get_insert_ne; [lia|].
      intros ->. apply Hw, desc_refl.
    + split; [|discriminate]. rewrite vec_get_insert_eq by exact Hv.
      f_equal. symmetry. apply Z.eqb_eq in Hpt.
      replace b with (a + 1) by lia. apply entries_one, Hx.
  - apply od_bind_inv in H as ([] & s1 & H1 & H).
    apply od_bind_inv in H as ([] & s2 & H2 & H3).
    pose proof (midpoint_between a b Hab) as Hm.
    destruct (IH _ _ _ _ _ _ H1 ltac:(lia)) as (Hz1 & Ho1 & Hl1 & Hf1 & Hs1).
    destruct (IH _ _ _ _ _ _ H2 ltac:(lia)) as (Hz2 & Ho2 & Hl2 & Hf2 & Hs2).
    unfold UpdateValueFromBelow in H3.
    apply od_bind_inv in H3 as (x & s3 & Hx & H3).
    apply od_get_tree_inv in Hx as [Hx ->].
    apply od_bind_inv in H3 as (y & s4 & Hy & H3).
    apply od_get_tree_inv in Hy as [Hy ->].
    apply od_set_tree_inv in H3 as [Hv ->]. cbn [size_ tree_ operations_].
    assert (Hv0 : 0 <= v) by lia.
    assert (HnL : forall w, desc 1 (Left v) w -> w <> v).
    { intros w Hw ->. rewrite Left_Child in Hw.
      apply (parent_not_desc 1 v 0 Hv0); [change (N 1) with 2; lia|exact Hw]. }
    assert (HnR : forall w, desc 1 (Right v) w -> w <> v).
    { intros w Hw ->. rewrite Right_Child in Hw.
      apply (parent_not_desc 1 v 1 Hv0); [change (N 1) with 2; lia|exact Hw]. }
    assert (HLR : forall w, desc 1 (Left v) w -> ~ desc 1 (Right v) w).
    { intros w Hw. rewrite Left_Child in Hw. rewrite Right_Child.
      apply (siblings_disjoint 1 v 0 1 w Hv0); try (change (N 1) with 2; lia).
      exact Hw. }
    assert (HsL : summed arr s2 fuel (Cube.mk a (Z.quot (a + b) 2)) (Left v)).
    { eapply od_summed_frame; [|exact Hs1].
      intros w Hw. apply Hf2, HLR, Hw. }
    split; [congruence|]. split; [congruence|].
    split; [rewrite length_insert; congruence|]. split.
    + intros w Hw. rewrite vec_get_insert_ne;
        [|lia|intros ->; apply Hw, desc_refl].
      rewrite Hf2, Hf1; [reflexivity| |].
      * intros Hd. apply Hw. rewrite Left_Child in Hd.
        eapply (desc_Child 1 v 0); [change (N 1) with 2; lia|exact Hd].
      * intros Hd. apply Hw. rewrite Right_Child in Hd.
        eapply (desc_Child 1 v 1); [change (N 1) with 2; lia|exact Hd].
    + split.
      * rewrite vec_get_insert_eq by exact Hv. f_equal.
        rewrite (od_summed_root _ _ _ _ _ HsL) in Hx.
        rewrite (od_summed_root _ _ _ _ _ Hs2) in Hy.
        injection Hx as <-. injection Hy as <-. cbn [Cube.l Cube.r].
        symmetry. apply entries_split, Hm.
      * intros _. unfold Cube.Subdivide, Cube.Center. cbn [fst snd Cube.l Cube.r].
        rewrite (Z.add_comm b a). split.
        -- eapply od_summed_frame; [|exact HsL]. intros w Hw.
           apply vec_get_insert_ne; [lia|apply HnL, Hw].
        -- eapply od_summed_frame; [|exact Hs2]. intros w Hw.
           apply vec_get_insert_ne; [lia|apply HnR, Hw].
Qed.

(** The build over [[a, b)] returns when the node [v] sits at a level of
    [K] nodes that the interval is short enough to reach. *)
Lemma od_BuildTree_returns arr len size :
  Z.of_nat len = 4 * size + 1 ->
  forall fuel a b v K st,
    0 <= a < b -> b <= Z.of_nat (length arr) ->
    b - a <= Z.of_nat fuel ->
    1 <= K -> K < 2 * size -> (b - a - 1) * K < size ->
    0 <= v -> v + 2 <= 2 * K ->
    sized len st ->
    exists st', BuildTree fuel arr a b v st = Ok (tt, st') /\ sized len st'.
Proof.
  intros Hlen. induction fuel as [|fuel IH];
    intros a b v K st Hab Hb Hfuel HK HK2 Hsz Hv HvK Hs; [lia|].
  assert (Hvb : 0 <= v < Z.of_nat len) by lia.
  rewrite BuildTree_S. destruct (b - a =? 1) eqn:Hpt.
  - destruct (proj2 (vec_get_bounds arr a)) as [x Hx]; [lia|].
    destruct (od_set_tree_total len v x st Hs Hvb) as (st' & Hset & Hs' & _).
    exists st'. split; [|exact Hs'].
    erewrite od_bind_Ok by (unfold get_arr; rewrite Hx; reflexivity).
    exact Hset.
  - assert (Hm : a + 1 <= Z.quot (a + b) 2 <= b - 1 /\
                 2 * (b - Z.quot (a + b) 2 - 1) <= b - a - 1 /\
                 2 * (Z.quot (a + b) 2 - a - 1) <= b - a - 1).
    { Z.to_euclidean_division_equations. lia. }
    destruct Hm as (Hm & Hhi & Hlo).
    assert (HKs : K < size) by nia.
    destruct (IH a (Z.quot (a + b) 2) (Left v) (2 * K) st) as (s1 & H1 & Hs1);
      try (unfold Left; lia); try assumption; try lia; try nia.
    destruct (IH (Z.quot (a + b) 2) b (Right v) (2 * K) s1) as (s2 & H2 & Hs2);
      try (unfold Right; lia); try assumption; try lia; try nia.
    destruct (od_get_tree_total len (Left v) s2 Hs2 ltac:(unfold Left; lia))
      as [x Hx].
    destruct (od_get_tree_total len (Right v) s2 Hs2 ltac:(unfold Right; lia))
      as [y Hy].
    destruct (od_set_tree_total len v (x + y) s2 Hs2 Hvb) as (s3 & H3 & Hs3 & _).
    exists s3. split; [|exact Hs3].
    erewrite od_bind_Ok by exact H1. erewrite od_bind_Ok by exact H2.
    unfold UpdateValueFromBelow.
    erewrite od_bind_Ok by exact Hx. erewrite od_bind_Ok by exact Hy.
    exact H3.
Qed.

(** Over an interval with [r <= l] the recursion never reaches a point. *)
Lemma od_BuildTree_never arr fuel :
  forall l r v st, r <= l -> BuildTree fuel arr l r v st = Err OutOfFuel.
Proof.
  induction fuel as [|fuel IH]; intros l r v st Hrl; [reflexivity|].
  rewrite BuildTree_S. destruct (r - l =? 1) eqn:E; [lia|].
  apply od_bind_Err, IH. Z.to_euclidean_division_equations. lia.
Qed.

Lemma od_ComposeWith_default o :
  Operation.ComposeWith o Operation.default = o.
Proof.
  destruct o as [rp x]. unfold Operation.ComposeWith, Operation.default.
  cbn [Operation.reset_pending Operation.to_add]. rewrite Z.add_0_r. reflexivity.
Qed.

Lemma od_Evaluate_default x d : Operation.Evaluate Operation.default x d = x.
Proof. unfold Operation.Evaluate. cbn. lia. Qed.

Lemma od_UpdateValueFromAbove_noop v d st x :
  vec_get (operations_ st) v = Some Operation.default ->
  vec_get (tree_ st) v = Some x ->
  UpdateValueFromAbove v d st = Ok (tt, st).
Proof.
  intros Ho Hx. unfold UpdateValueFromAbove.
  rewrite (od_bind_Ok _ _ _ _ _ (od_get_op_Ok _ _ _ Ho)).
  rewrite (od_bind_Ok _ _ _ _ _ (od_get_tree_Ok _ _ _ Hx)).
  rewrite od_Evaluate_default. apply od_set_tree_same, Hx.
Qed.

(** With nothing pending at a node and its two children, [Push] changes
    nothing. *)
Lemma od_Push_noop v d st x y z :
  vec_get (operations_ st) v = Some Operation.default ->
  vec_get (operations_ st) (Left v) = Some Operation.default ->
  vec_get (operations_ st) (Right v) = Some Operation.default ->
  vec_get (tree_ st) v = Some x ->
  vec_get (tree_ st) (Left v) = Some y ->
  vec_get (tree_ st) (Right v) = Some z ->
  Push v d st = Ok (tt, st).
Proof.
  intros Hov Hol Hor Hx Hy Hz. unfold Push. cbv zeta.
  rewrite (od_bind_Ok _ _ _ _ _ (od_get_op_Ok _ _ _ Hol)).
  rewrite (od_bind_Ok _ _ _ _ _ (od_get_op_Ok _ _ _ Hov)).
  rewrite od_ComposeWith_default.
  rewrite (od_bind_Ok _ _ _ _ _ (od_set_op_same _ _ _ Hol)).
  rewrite (od_bind_Ok _ _ _ _ _ (od_get_op_Ok _ _ _ Hor)).
  rewrite (od_bind_Ok _ _ _ _ _ (od_get_op_Ok _ _ _ Hov)).
  rewrite od_ComposeWith_default.
  rewrite (od_bind_Ok _ _ _ _ _ (od_set_op_same _ _ _ Hor)).
  erewrite od_bind_Ok; cycle 1.
  { destruct (Cube.IsPoint _);
      [eapply od_UpdateValueFromAbove_noop; eassumption|reflexivity]. }
  erewrite od_bind_Ok; cycle 1.
  { destruct (Cube.IsPoint _);
      [eapply od_UpdateValueFromAbove_noop; eassumption|reflexivity]. }
  rewrite (od_bind_Ok _ _ _ _ _ (od_UpdateValueFromAbove_noop _ d _ _ Hov Hx)).
  rewrite (od_bind_Ok _ _ _ _ _ (od_get_op_Ok _ _ _ Hov)).
  apply od_set_op_same, Hov.
Qed.

Lemma od_QueryRangeR_S fuel v query_domain node_domain :
  QueryRangeR (S fuel) v query_domain node_domain =
    if Cube.eqb query_domain node_domain
    then get_tree v
    else
      Push v node_domain ;;
      sum1 <- (if negb (Cube.IsDisjointFrom query_domain
                          (fst (Cube.Subdivide node_domain)))
               then x <- QueryRangeR fuel (Left v)
                           (Cube.IntersectWith
                              (fst (Cube.Subdivide node_domain)) query_domain)
                           (fst (Cube.Subdivide node_domain)) ;;
                    ret (0 + x)
               else ret 0) ;;
      (if negb (Cube.IsDisjointFrom query_domain
                  (snd (Cube.Subdivide node_domain)))
       then x <- QueryRangeR fuel (Right v)
                   (Cube.IntersectWith
                      (snd (Cube.Subdivide node_domain)) query_domain)
                   (snd (Cube.Subdivide node_domain)) ;;
            ret (sum1 + x)
       else ret sum1).
Proof. reflexivity. Qed.

(** With nothing pending, a tree that stores the sums answers every query
    of a non-empty interval inside the node's interval by the sum of the
    entries, and changes nothing. *)
Lemma od_summed_query arr st :
  (forall w, is_Some (vec_get (tree_ st) w) ->
     vec_get (operations_ st) w = Some Operation.default) ->
  forall h d v q,
    summed arr st h d v ->
    Cube.l d <= Cube.l q -> Cube.l q < Cube.r q -> Cube.r q <= Cube.r d ->
    QueryRangeR h v q d st = Ok (entries arr (Cube.l q) (Cube.r q), st).
Proof.
  intros Hops. induction h as [|h IH]; intros d v q Hs Hl Hq Hr; [destruct Hs|].
  cbn [summed] in Hs. destruct Hs as [Hv Hch].
  rewrite od_QueryRangeR_S. destruct (Cube.eqb q d) eqn:Heq.
  - unfold Cube.eqb in Heq. apply andb_true_iff in Heq as [E1 E2].
    apply Z.eqb_eq in E1, E2. rewrite E1, E2. apply od_get_tree_Ok, Hv.
  - assert (Hpt : Cube.IsPoint d = false).
    { unfold Cube.IsPoint, Cube.Volume. apply Z.eqb_neq. intros Hone.
      unfold Cube.eqb in Heq. apply andb_false_iff in Heq as [E|E];
        apply Z.eqb_neq in E; lia. }
    destruct (Hch Hpt) as [HL HR].
    pose proof (od_summed_root _ _ _ _ _ HL) as HLv.
    pose proof (od_summed_root _ _ _ _ _ HR) as HRv.
    assert (Some_is : forall (x : Z) o, o = Some x -> is_Some o)
      by (intros x o ->; eexists; reflexivity).
    rewrite (od_bind_Ok _ _ _ _ _
               (od_Push_noop v d st _ _ _
                  (Hops _ (Some_is _ _ Hv)) (Hops _ (Some_is _ _ HLv))
                  (Hops _ (Some_is _ _ HRv)) Hv HLv HRv)).
    unfold Cube.IsPoint, Cube.Volume in Hpt. apply Z.eqb_neq in Hpt.
    unfold Cube.Subdivide, Cube.Center in *. cbn [fst snd Cube.l Cube.r] in *.
    set (m := Z.quot (Cube.r d + Cube.l d) 2) in *.
    assert (Hm : Cube.l d < m < Cube.r d).
    { unfold m. Z.to_euclidean_division_equations. lia. }
    unfold Cube.IsDisjointFrom, Cube.IntersectWith. cbn [Cube.l Cube.r].
    replace (Cube.l d >=? Cube.r q) with false by lia.
    replace (Cube.r d <=? Cube.l q) with false by lia.
    rewrite orb_false_l, orb_false_r.
    rewrite (Z.max_r (Cube.l d) (Cube.l q)), (Z.min_r (Cube.r d) (Cube.r q))
      by lia.
    destruct (m <=? Cube.l q) eqn:E1; cbn [negb].
    + (* the query lies in the right half *)
      rewrite (od_bind_Ok _ _ _ _ _ (eq_refl : ret 0 st = Ok (0, st))).
      replace (m >=? Cube.r q) with false by lia. cbn [negb].
      rewrite (od_bind_Ok _ _ _ _ _
                 (IH _ _ (Cube.mk (Z.max m (Cube.l q)) (Cube.r q)) HR
                    ltac:(cbn [Cube.l Cube.r]; lia)
                    ltac:(cbn [Cube.l Cube.r]; lia)
                    ltac:(cbn [Cube.l Cube.r]; lia))).
      cbn [Cube.l Cube.r]. unfold ret. rewrite Z.max_r by lia. reflexivity.
    + rewrite (od_bind_Ok _ _ _ _ _
                 (od_bind_Ok _ _ _ _ _
                    (IH _ _ (Cube.mk (Cube.l q) (Z.min m (Cube.r q))) HL
                       ltac:(cbn [Cube.l Cube.r]; lia)
                       ltac:(cbn [Cube.l Cube.r]; lia)
                       ltac:(cbn [Cube.l Cube.r]; lia)))).
      cbn [Cube.l Cube.r]. unfold ret at 1.
      destruct (m >=? Cube.r q) eqn:E2; cbn [negb].
      * unfold ret. rewrite Z.min_r by lia. reflexivity.
      * rewrite (od_bind_Ok _ _ _ _ _
                   (IH _ _ (Cube.mk (Z.max m (Cube.l q)) (Cube.r q)) HR
                      ltac:(cbn [Cube.l Cube.r]; lia)
                      ltac:(cbn [Cube.l Cube.r]; lia)
                      ltac:(cbn [Cube.l Cube.r]; lia))).
        cbn [Cube.l Cube.r]. unfold ret.
        rewrite Z.min_l, Z.max_l by lia.
        rewrite (entries_split arr (Cube.l q) m (Cube.r q)) by lia.
        reflexivity.
Qed.

End OneDimFacts.







Section OneDimPush.
Import OneDim OneDim.SegmentTree.
Local Open Scope onedim_scope.

Lemma od_UpdateValueFromAbove_inv v d st u st' :
  UpdateValueFromAbove v d st = Ok (u, st') ->
  exists o x,
    vec_get (operations_ st) v = Some o /\
    vec_get (tree_ st) v = Some x /\
    0 <= v < Z.of_nat (length (tree_ st)) /\
    st' = mk (size_ st)
             (<[Z.to_nat v := Operation.Evaluate o x d]> (tree_ st))
             (operations_ st).
Proof.
  unfold UpdateValueFromAbove. intros H.
  apply od_bind_inv in H as (o & s1 & H1 & H).
  apply od_get_op_inv in H1 as [Ho ->].
  apply od_bind_inv in H as (x & s2 & H2 & H).
  apply od_get_tree_inv in H2 as [Hx ->].
  apply od_set_tree_inv in H as [Hv ->].
  exists o, x. split; [exact Ho|]. split; [exact Hx|].
  split; [exact Hv|reflexivity].
Qed.

(** What one [Push] does to the left child. *)
Lemma od_Push_left v d st u st' ol ov x :
  Push v d st = Ok (u, st') ->
  vec_get (operations_ st) (Left v) = Some ol ->
  vec_get (operations_ st) v = Some ov ->
  vec_get (tree_ st) (Left v) = Some x ->
  vec_get (operations_ st') (Left v) = Some (Operation.ComposeWith ol ov) /\
  vec_get (tree_ st') (Left v)
  = Some (if Cube.IsPoint (fst (Cube.Subdivide d))
          then Operation.Evaluate (Operation.ComposeWith ol ov) x
                 (fst (Cube.Subdivide d))
          else x) /\
  vec_get (operations_ st') v = Some Operation.default.
Proof.
  intros H Hol Hov Hx.
  assert (Hv : 0 <= v) by (apply vec_get_Some in Hov; lia).
  assert (HLv : Left v <> v) by (unfold Left; lia).
  assert (HLR : Left v <> Right v) by (unfold Left, Right; lia).
  assert (HRv : Right v <> v) by (unfold Left, Right; lia).
  unfold Push in H. cbv zeta in H.
  apply od_bind_inv in H as (ol' & s & H1 & H).
  apply od_get_op_inv in H1 as [E ->]. rewrite Hol in E. injection E as <-.
  apply od_bind_inv in H as (ov' & s & H1 & H).
  apply od_get_op_inv in H1 as [E ->]. rewrite Hov in E. injection E as <-.
  apply od_bind_inv in H as ([] & s1 & H1 & H).
  apply od_set_op_inv in H1 as [HbL ->].
  apply od_bind_inv in H as (or & s & H1 & H).
  apply od_get_op_inv in H1 as [_ ->].
  apply od_bind_inv in H as (ov2 & s & H1 & H).
  apply od_get_op_inv in H1 as [_ ->].
  apply od_bind_inv in H as ([] & s2 & H1 & H).
  apply od_set_op_inv in H1 as [HbR ->].
  cbn [size_ tree_ operations_] in *.
  apply od_bind_inv in H as ([] & s3 & H3 & H).
  apply od_bind_inv in H as ([] & s4 & H4 & H).
  apply od_bind_inv in H as ([] & s5 & H5 & H).
  apply od_bind_inv in H as (ov3 & s & H1 & H).
  apply od_get_op_inv in H1 as [_ ->].
  apply od_set_op_inv in H as [Hbv ->].
  apply od_UpdateValueFromAbove_inv in H5
    as (o5 & x5 & _ & _ & Hb5 & ->).
  cbn [size_ tree_ operations_] in *.
  assert (Hops4 : operations_ s4
                  = <[Z.to_nat (Right v) := Operation.ComposeWith or ov2]>
                      (<[Z.to_nat (Left v) := Operation.ComposeWith ol ov]>
                         (operations_ st)) /\
                  vec_get (tree_ s4) (Left v)
                  = Some (if Cube.IsPoint (fst (Cube.Subdivide d))
                          then Operation.Evaluate (Operation.ComposeWith ol ov) x
                                 (fst (Cube.Subdivide d))
                          else x)).
  { assert (Hs3 : operations_ s3
                  = <[Z.to_nat (Right v) := Operation.ComposeWith or ov2]>
                      (<[Z.to_nat (Left v) := Operation.ComposeWith ol ov]>
                         (operations_ st)) /\
                  vec_get (tree_ s3) (Left v)
                  = Some (if Cube.IsPoint (fst (Cube.Subdivide d))
                          then Operation.Evaluate (Operation.ComposeWith ol ov) x
                                 (fst (Cube.Subdivide d))
                          else x)).
    { destruct (Cube.IsPoint (fst (Cube.Subdivide d))).
      - apply od_UpdateValueFromAbove_inv in H3
          as (o3 & x3 & Ho3 & Hx3 & Hb3 & ->).
        cbn [size_ tree_ operations_] in *. split; [reflexivity|].
        rewrite vec_get_insert_ne in Ho3 by (unfold Left, Right; lia).
        rewrite vec_get_insert_eq in Ho3 by exact HbL.
        injection Ho3 as <-. rewrite Hx in Hx3. injection Hx3 as <-.
        apply vec_get_insert_eq, Hb3.
      - apply od_ret_inv in H3 as [_ ->]. cbn [tree_ operations_].
        split; [reflexivity|exact Hx]. }
    destruct Hs3 as [Ho3 Ht3].
    destruct (Cube.IsPoint (snd (Cube.Subdivide d))).
    - apply od_UpdateValueFromAbove_inv in H4
        as (o4 & x4 & _ & _ & Hb4 & ->).
      cbn [size_ tree_ operations_]. split; [exact Ho3|].
      rewrite vec_get_insert_ne by (unfold Left, Right; lia). exact Ht3.
    - apply od_ret_inv in H4 as [_ ->]. split; assumption. }
  destruct Hops4 as [Ho4 Ht4]. rewrite Ho4 in *.
  split; [|split].
  - rewrite vec_get_insert_ne by lia.
    rewrite vec_get_insert_ne by (unfold Left, Right; lia).
    apply vec_get_insert_eq, HbL.
  - rewrite vec_get_insert_ne by lia. exact Ht4.
  - apply vec_get_insert_eq, Hbv.
Qed.

End OneDimPush.

(** X23. In the one-axis variant [Push] evaluates a child whose interval is
    a single cell and leaves the operation it has pushed pending there:
    after [Push(v, d)] the left child holds the composed operation [o] and
    the value [o.Evaluate(x)], and a second [Push(v, d)], which has
    nothing left to push from [v], evaluates [o] on the left child once
    more. *)
Theorem OneDim_Push_repeats_on_point_child v d st st1 st2 ol ov x :
  OneDim.Cube.IsPoint (fst (OneDim.Cube.Subdivide d)) = true ->
  vec_get (OneDim.SegmentTree.operations_ st) (OneDim.SegmentTree.Left v)
  = Some ol ->
  vec_get (OneDim.SegmentTree.operations_ st) v = Some ov ->
  vec_get (OneDim.SegmentTree.tree_ st) (OneDim.SegmentTree.Left v) = Some x ->
  OneDim.SegmentTree.Push v d st = Ok (tt, st1) ->
  OneDim.SegmentTree.Push v d st1 = Ok (tt, st2) ->
  vec_get (OneDim.SegmentTree.operations_ st1) (OneDim.SegmentTree.Left v)
  = Some (OneDim.Operation.ComposeWith ol ov) /\
  vec_get (OneDim.SegmentTree.tree_ st1) (OneDim.SegmentTree.Left v)
  = Some (OneDim.Operation.Evaluate (OneDim.Operation.ComposeWith ol ov) x
            (fst (OneDim.Cube.Subdivide d))) /\
  vec_get (OneDim.SegmentTree.operations_ st2) (OneDim.SegmentTree.Left v)
  = Some (OneDim.Operation.ComposeWith ol ov) /\
  vec_get (OneDim.SegmentTree.tree_ st2) (OneDim.SegmentTree.Left v)
  = Some (OneDim.Operation.Evaluate (OneDim.Operation.ComposeWith ol ov)
            (OneDim.Operation.Evaluate (OneDim.Operation.ComposeWith ol ov) x
               (fst (OneDim.Cube.Subdivide d)))
            (fst (OneDim.Cube.Subdivide d))).
Proof.
  intros Hpt Hol Hov Hx H1 H2.
  destruct (od_Push_left _ _ _ _ _ _ _ _ H1 Hol Hov Hx) as (Ho1 & Ht1 & Hv1).
  rewrite Hpt in Ht1.
  destruct (od_Push_left _ _ _ _ _ _ _ _ H2 Ho1 Hv1 Ht1) as (Ho2 & Ht2 & _).
  rewrite Hpt, od_ComposeWith_default in *.
  repeat split; assumption.
Qed.

Lemma OneDim_Push_repeats_on_point_child_witness :
  OneDim.SegmentTree.Push 0 (OneDim.Cube.mk 0 2)
    (OneDim.SegmentTree.mk 2 [2; 1; 1; 0; 0; 0; 0; 0; 0]
       (OneDim.Operation.default :: OneDim.Operation.mk false 1
          :: OneDim.Operation.mk false 1 :: repeat OneDim.Operation.default 6))
  = Ok (tt,
        OneDim.SegmentTree.mk 2 [2; 2; 2; 0; 0; 0; 0; 0; 0]
          (OneDim.Operation.default :: OneDim.Operation.mk false 1
             :: OneDim.Operation.mk false 1
             :: repeat OneDim.Operation.default 6)) /\
  vec_get [2; 1; 1; 0; 0; 0; 0; 0; 0] 1 = Some 1 /\
  vec_get [2; 2; 2; 0; 0; 0; 0; 0; 0] 1 = Some 2.
Proof.
  split; [reflexivity|].
  destruct (OneDim_Push_repeats_on_point_child 0 (OneDim.Cube.mk 0 2)
       (OneDim.SegmentTree.mk 2 [0; 0; 0; 0; 0; 0; 0; 0; 0]
          (OneDim.Operation.mk false 1
             :: repeat OneDim.Operation.default 8))
       (OneDim.SegmentTree.mk 2 [2; 1; 1; 0; 0; 0; 0; 0; 0]
          (OneDim.Operation.default :: OneDim.Operation.mk false 1
             :: OneDim.Operation.mk false 1
             :: repeat OneDim.Operation.default 6))
       (OneDim.SegmentTree.mk 2 [2; 2; 2; 0; 0; 0; 0; 0; 0]
          (OneDim.Operation.default :: OneDim.Operation.mk false 1
             :: OneDim.Operation.mk false 1
             :: repeat OneDim.Operation.default 6))
       OneDim.Operation.default (OneDim.Operation.mk false 1) 0
       eq_refl eq_refl eq_refl eq_refl eq_refl eq_refl)
    as (_ & H1 & _ & H2).
  split; [exact H1|exact H2].
Defined.




Section OneDimTotality.
Import OneDim OneDim.SegmentTree.
Local Open Scope onedim_scope.

Variable len : nat.

Lemma od_get_op_total v st :
  sized len st -> 0 <= v < Z.of_nat len -> exists o, get_op v st = Ok (o, st).
Proof.
  intros [_ Ho] Hv. unfold get_op.
  destruct (proj2 (vec_get_bounds (operations_ st) v)) as [y ->]; [lia|].
  exists y. reflexivity.
Qed.

Lemma od_set_op_total v o st :
  sized len st -> 0 <= v < Z.of_nat len ->
  exists st', set_op v o st = Ok (tt, st') /\ sized len st' /\
              size_ st' = size_ st.
Proof.
  intros [Ht Ho] Hv. unfold set_op, vec_set.
  destruct (proj2 (vec_get_bounds (operations_ st) v)) as [y ->]; [lia|].
  eexists. split; [reflexivity|]. split; [|reflexivity].
  split; cbn [tree_ operations_]; [|rewrite length_insert]; assumption.
Qed.

Lemma od_UpdateValueFromAbove_total v d st :
  sized len st -> 0 <= v < Z.of_nat len ->
  exists st', UpdateValueFromAbove v d st = Ok (tt, st') /\ sized len st' /\
              size_ st' = size_ st.
Proof.
  intros Hs Hv. unfold UpdateValueFromAbove.
  destruct (od_get_op_total v st Hs Hv) as [o Ho].
  destruct (od_get_tree_total len v st Hs Hv) as [x Hx].
  destruct (od_set_tree_total len v (Operation.Evaluate o x d) st Hs Hv)
    as (st' & H & Hs' & Hz).
  exists st'. split; [|split; assumption].
  rewrite (od_bind_Ok _ _ _ _ _ Ho), (od_bind_Ok _ _ _ _ _ Hx). exact H.
Qed.

Lemma od_UpdateValueFromBelow_total v st :
  sized len st -> 0 <= v -> Right v < Z.of_nat len ->
  exists st', UpdateValueFromBelow v st = Ok (tt, st') /\ sized len st' /\
              size_ st' = size_ st.
Proof.
  intros Hs Hv Hr. unfold UpdateValueFromBelow.
  destruct (od_get_tree_total len (Left v) st Hs ltac:(unfold Left, Right in *; lia))
    as [x Hx].
  destruct (od_get_tree_total len (Right v) st Hs ltac:(unfold Right in *; lia))
    as [y Hy].
  destruct (od_set_tree_total len v (x + y) st Hs ltac:(unfold Right in *; lia))
    as (st' & H & Hs' & Hz).
  exists st'. split; [|split; assumption].
  rewrite (od_bind_Ok _ _ _ _ _ Hx), (od_bind_Ok _ _ _ _ _ Hy). exact H.
Qed.

Lemma od_EvaluateAny_total v d op st :
  sized len st -> 0 <= v < Z.of_nat len ->
  exists st', EvaluateAny v d op st = Ok (tt, st') /\ sized len st' /\
              size_ st' = size_ st.
Proof.
  intros Hs Hv. unfold EvaluateAny.
  destruct (od_get_op_total v st Hs Hv) as [o Ho].
  destruct (od_set_op_total v (Operation.ComposeWith o op) st Hs Hv)
    as (s1 & H1 & Hs1 & Hz1).
  destruct (od_UpdateValueFromAbove_total v d s1 Hs1 Hv) as (s2 & H2 & Hs2 & Hz2).
  rewrite (od_bind_Ok _ _ _ _ _ Ho), (od_bind_Ok _ _ _ _ _ H1),
    (od_bind_Ok _ _ _ _ _ H2).
  destruct (Cube.IsPoint d).
  - destruct (od_get_op_total v s2 Hs2 Hv) as [o' Ho'].
    destruct (od_set_op_total v (Operation.Reset o') s2 Hs2 Hv)
      as (s3 & H3 & Hs3 & Hz3).
    exists s3. rewrite (od_bind_Ok _ _ _ _ _ Ho').
    split; [exact H3|]. split; [exact Hs3|congruence].
  - exists s2. split; [reflexivity|]. split; [exact Hs2|congruence].
Qed.

Lemma od_Push_total v d st :
  sized len st -> 0 <= v -> Right v < Z.of_nat len ->
  exists st', Push v d st = Ok (tt, st') /\ sized len st' /\
              size_ st' = size_ st.
Proof.
  intros Hs Hv Hr.
  assert (HL : 0 <= Left v < Z.of_nat len) by (unfold Left, Right in *; lia).
  assert (HR : 0 <= Right v < Z.of_nat len) by (unfold Right in *; lia).
  assert (Hvb : 0 <= v < Z.of_nat len) by (unfold Right in *; lia).
  unfold Push. cbv zeta.
  destruct (od_get_op_total (Left v) st Hs HL) as [ol Hol].
  destruct (od_get_op_total v st Hs Hvb) as [ov Hov].
  destruct (od_set_op_total (Left v) (Operation.ComposeWith ol ov) st Hs HL)
    as (s1 & H1 & Hs1 & Hz1).
  destruct (od_get_op_total (Right v) s1 Hs1 HR) as [or Hor].
  destruct (od_get_op_total v s1 Hs1 Hvb) as [ov' Hov'].
  destruct (od_set_op_total (Right v) (Operation.ComposeWith or ov') s1 Hs1 HR)
    as (s2 & H2 & Hs2 & Hz2).
  assert (H3 : exists s3,
            (if Cube.IsPoint (fst (Cube.Subdivide d))
             then UpdateValueFromAbove (Left v) (fst (Cube.Subdivide d))
             else ret tt) s2 = Ok (tt, s3) /\ sized len s3 /\
            size_ s3 = size_ s2).
  { destruct (Cube.IsPoint (fst (Cube.Subdivide d)));
      [apply od_UpdateValueFromAbove_total; assumption|].
    exists s2. split; [reflexivity|split; [assumption|reflexivity]]. }
  destruct H3 as (s3 & H3 & Hs3 & Hz3).
  assert (H4 : exists s4,
            (if Cube.IsPoint (snd (Cube.Subdivide d))
             then UpdateValueFromAbove (Right v) (snd (Cube.Subdivide d))
             else ret tt) s3 = Ok (tt, s4) /\ sized len s4 /\
            size_ s4 = size_ s3).
  { clear H3. destruct (Cube.IsPoint (snd (Cube.Subdivide d)));
      [apply od_UpdateValueFromAbove_total; assumption|].
    exists s3. split; [reflexivity|split; [assumption|reflexivity]]. }
  destruct H4 as (s4 & H4 & Hs4 & Hz4).
  destruct (od_UpdateValueFromAbove_total v d s4 Hs4 Hvb) as (s5 & H5 & Hs5 & Hz5).
  destruct (od_get_op_total v s5 Hs5 Hvb) as [ov'' Hov''].
  destruct (od_set_op_total v (Operation.Reset ov'') s5 Hs5 Hvb)
    as (s6 & H6 & Hs6 & Hz6).
  exists s6.
  rewrite (od_bind_Ok _ _ _ _ _ Hol), (od_bind_Ok _ _ _ _ _ Hov),
    (od_bind_Ok _ _ _ _ _ H1), (od_bind_Ok _ _ _ _ _ Hor),
    (od_bind_Ok _ _ _ _ _ Hov'), (od_bind_Ok _ _ _ _ _ H2),
    (od_bind_Ok _ _ _ _ _ H3), (od_bind_Ok _ _ _ _ _ H4),
    (od_bind_Ok _ _ _ _ _ H5), (od_bind_Ok _ _ _ _ _ Hov'').
  split; [exact H6|]. split; [exact Hs6|congruence].
Qed.

Lemma od_ApplyOperationR_S fuel v query_domain node_domain op :
  ApplyOperationR (S fuel) v query_domain node_domain op =
    if Cube.eqb query_domain node_domain
    then EvaluateAny v query_domain op
    else
      Push v node_domain ;;
      (if negb (Cube.IsDisjointFrom query_domain
                  (fst (Cube.Subdivide node_domain)))
       then ApplyOperationR fuel (Left v)
              (Cube.IntersectWith (fst (Cube.Subdivide node_domain))
                 query_domain)
              (fst (Cube.Subdivide node_domain)) op
       else ret tt) ;;
      (if negb (Cube.IsDisjointFrom query_domain
                  (snd (Cube.Subdivide node_domain)))
       then ApplyOperationR fuel (Right v)
              (Cube.IntersectWith (snd (Cube.Subdivide node_domain))
                 query_domain)
              (snd (Cube.Subdivide node_domain)) op
       else ret tt) ;;
      UpdateValueFromBelow v.
Proof. reflexivity. Qed.

Variable size : Z.
Hypothesis Hlen : Z.of_nat len = 4 * size + 1.

(** An update of a non-empty interval inside the node's interval returns:
    the recursion ends and every index is inside the vectors. *)
Lemma od_ApplyOperationR_returns op fuel :
  forall a b v K q st,
    0 <= a < b -> b - a <= Z.of_nat fuel ->
    1 <= K -> K < 2 * size -> (b - a - 1) * K < size ->
    0 <= v -> v + 2 <= 2 * K ->
    a <= Cube.l q -> Cube.l q < Cube.r q -> Cube.r q <= b ->
    sized len st ->
    exists st', ApplyOperationR fuel v q (Cube.mk a b) op st = Ok (tt, st') /\
                sized len st' /\ size_ st' = size_ st.
Proof.
  induction fuel as [|fuel IH];
    intros a b v K q st Hab Hfuel HK HK2 Hsz Hv HvK Hql Hq Hqr Hs; [lia|].
  assert (Hvb : 0 <= v < Z.of_nat len) by lia.
  rewrite od_ApplyOperationR_S. destruct (Cube.eqb q (Cube.mk a b)) eqn:Heq.
  - apply od_EvaluateAny_total; assumption.
  - assert (Hwide : 2 <= b - a).
    { unfold Cube.eqb in Heq. cbn [Cube.l Cube.r] in Heq.
      apply andb_false_iff in Heq as [E|E]; apply Z.eqb_neq in E; lia. }
    unfold Cube.Subdivide, Cube.Center. cbn [fst snd Cube.l Cube.r].
    set (m := Z.quot (b + a) 2).
    assert (Hm : a + 1 <= m <= b - 1 /\
                 2 * (b - m - 1) <= b - a - 1 /\
                 2 * (m - a - 1) <= b - a - 1).
    { unfold m. Z.to_euclidean_division_equations. lia. }
    destruct Hm as (Hm & Hhi & Hlo).
    assert (HKs : K < size) by nia.
    destruct (od_Push_total v (Cube.mk a b) st Hs Hv ltac:(unfold Right; lia))
      as (s1 & H1 & Hs1 & Hz1).
    unfold Push in H1. unfold Cube.Subdivide, Cube.Center in H1.
    cbn [fst snd Cube.l Cube.r] in H1. fold m in H1.
    rewrite (od_bind_Ok _ _ _ _ _ H1).
    unfold Cube.IsDisjointFrom, Cube.IntersectWith. cbn [Cube.l Cube.r].
    assert (H2 : exists s2,
              (if negb ((a >=? Cube.r q) || (m <=? Cube.l q))
               then ApplyOperationR fuel (Left v)
                      (Cube.mk (Z.max a (Cube.l q)) (Z.min m (Cube.r q)))
                      (Cube.mk a m) op
               else ret tt) s1 = Ok (tt, s2) /\ sized len s2 /\
              size_ s2 = size_ s1).
    { destruct (negb ((a >=? Cube.r q) || (m <=? Cube.l q))) eqn:E.
      - apply negb_true_iff, orb_false_iff in E as [E1 E2].
        apply (IH a m (Left v) (2 * K)); cbn [Cube.l Cube.r];
          try assumption; try (unfold Left; lia); try lia; try nia.
      - exists s1. split; [reflexivity|split; [assumption|reflexivity]]. }
    destruct H2 as (s2 & H2 & Hs2 & Hz2).
    rewrite (od_bind_Ok _ _ _ _ _ H2).
    assert (H3 : exists s3,
              (if negb ((m >=? Cube.r q) || (b <=? Cube.l q))
               then ApplyOperationR fuel (Right v)
                      (Cube.mk (Z.max m (Cube.l q)) (Z.min b (Cube.r q)))
                      (Cube.mk m b) op
               else ret tt) s2 = Ok (tt, s3) /\ sized len s3 /\
              size_ s3 = size_ s2).
    { destruct (negb ((m >=? Cube.r q) || (b <=? Cube.l q))) eqn:E.
      - apply negb_true_iff, orb_false_iff in E as [E1 E2].
        apply (IH m b (Right v) (2 * K)); cbn [Cube.l Cube.r];
          try assumption; try (unfold Right; lia); try lia; try nia.
      - exists s2. split; [reflexivity|split; [assumption|reflexivity]]. }
    destruct H3 as (s3 & H3 & Hs3 & Hz3).
    rewrite (od_bind_Ok _ _ _ _ _ H3).
    destruct (od_UpdateValueFromBelow_total v s3 Hs3 Hv ltac:(unfold Right; lia))
      as (s4 & H4 & Hs4 & Hz4).
    exists s4. split; [exact H4|]. split; [exact Hs4|congruence].
Qed.

(** A query of a non-empty interval inside the node's interval returns. *)
Lemma od_QueryRangeR_returns fuel :
  forall a b v K q st,
    0 <= a < b -> b - a <= Z.of_nat fuel ->
    1 <= K -> K < 2 * size -> (b - a - 1) * K < size ->
    0 <= v -> v + 2 <= 2 * K ->
    a <= Cube.l q -> Cube.l q < Cube.r q -> Cube.r q <= b ->
    sized len st ->
    exists x st', QueryRangeR fuel v q (Cube.mk a b) st = Ok (x, st') /\
                  sized len st' /\ size_ st' = size_ st.
Proof.
  induction fuel as [|fuel IH];
    intros a b v K q st Hab Hfuel HK HK2 Hsz Hv HvK Hql Hq Hqr Hs; [lia|].
  assert (Hvb : 0 <= v < Z.of_nat len) by lia.
  rewrite od_QueryRangeR_S. destruct (Cube.eqb q (Cube.mk a b)) eqn:Heq.
  - destruct (od_get_tree_total len v st Hs Hvb) as [x Hx].
    exists x, st. split; [exact Hx|split; [exact Hs|reflexivity]].
  - assert (Hwide : 2 <= b - a).
    { unfold Cube.eqb in Heq. cbn [Cube.l Cube.r] in Heq.
      apply andb_false_iff in Heq as [E|E]; apply Z.eqb_neq in E; lia. }
    unfold Cube.Subdivide, Cube.Center. cbn [fst snd Cube.l Cube.r].
    set (m := Z.quot (b + a) 2).
    assert (Hm : a + 1 <= m <= b - 1 /\
                 2 * (b - m - 1) <= b - a - 1 /\
                 2 * (m - a - 1) <= b - a - 1).
    { unfold m. Z.to_euclidean_division_equations. lia. }
    destruct Hm as (Hm & Hhi & Hlo).
    assert (HKs : K < size) by nia.
    destruct (od_Push_total v (Cube.mk a b) st Hs Hv ltac:(unfold Right; lia))
      as (s1 & H1 & Hs1 & Hz1).
    unfold Push in H1. unfold Cube.Subdivide, Cube.Center in H1.
    cbn [fst snd Cube.l Cube.r] in H1. fold m in H1.
    rewrite (od_bind_Ok _ _ _ _ _ H1).
    unfold Cube.IsDisjointFrom, Cube.IntersectWith. cbn [Cube.l Cube.r].
    assert (H2 : exists x2 s2,
              (if negb ((a >=? Cube.r q) || (m <=? Cube.l q))
               then x <- QueryRangeR fuel (Left v)
                           (Cube.mk (Z.max a (Cube.l q)) (Z.min m (Cube.r q)))
                           (Cube.mk a m) ;;
                    ret (0 + x)
               else ret 0) s1 = Ok (x2, s2) /\ sized len s2 /\
              size_ s2 = size_ s1).
    { destruct (negb ((a >=? Cube.r q) || (m <=? Cube.l q))) eqn:E.
      - apply negb_true_iff, orb_false_iff in E as [E1 E2].
        destruct (IH a m (Left v) (2 * K)
                    (Cube.mk (Z.max a (Cube.l q)) (Z.min m (Cube.r q))) s1)
          as (x & s2 & Hrun & Hs2 & Hz2); cbn [Cube.l Cube.r];
          try assumption; try (unfold Left; lia); try lia; try nia.
        exists (0 + x), s2. rewrite (od_bind_Ok _ _ _ _ _ Hrun).
        split; [reflexivity|split; assumption].
      - exists 0, s1. split; [reflexivity|split; [assumption|reflexivity]]. }
    destruct H2 as (x2 & s2 & H2 & Hs2 & Hz2).
    rewrite (od_bind_Ok _ _ _ _ _ H2).
    destruct (negb ((m >=? Cube.r q) || (b <=? Cube.l q))) eqn:E.
    + apply negb_true_iff, orb_false_iff in E as [E1 E2].
      destruct (IH m b (Right v) (2 * K)
                  (Cube.mk (Z.max m (Cube.l q)) (Z.min b (Cube.r q))) s2)
        as (x & s3 & Hrun & Hs3 & Hz3); cbn [Cube.l Cube.r];
        try assumption; try (unfold Right; lia); try lia; try nia.
      exists (x2 + x), s3. rewrite (od_bind_Ok _ _ _ _ _ Hrun).
      split; [reflexivity|]. split; [exact Hs3|congruence].
    + exists x2, s2. split; [reflexivity|]. split; [exact Hs2|congruence].
Qed.

End OneDimTotality.


(** X25. The calls of the one-axis variant return. On every structure
    with [size() >= 1] whose two vectors have [4 * size + 1] entries (the
    constructor builds such a structure and every call keeps it so),
    [ApplyToRange] (so also [AssignRange] and [AddToRange]) and
    [QueryRange] on a non-empty interval inside [[0, size)] return: the
    recursion ends within [size] levels and every index is inside the
    vectors; the sizes stay as they were. *)
Theorem OneDim_calls_return sz st D op :
  1 <= sz ->
  OneDim.SegmentTree.size st = sz ->
  OneDim.sized (Z.to_nat (4 * sz + 1)) st ->
  0 <= OneDim.Cube.l D -> OneDim.Cube.l D < OneDim.Cube.r D ->
  OneDim.Cube.r D <= sz ->
  (exists st',
     OneDim.SegmentTree.ApplyToRange (Z.to_nat sz) D op st = Ok (tt, st') /\
     OneDim.sized (Z.to_nat (4 * sz + 1)) st' /\
     OneDim.SegmentTree.size st' = sz) /\
  (exists x st',
     OneDim.SegmentTree.QueryRange (Z.to_nat sz) D st = Ok (x, st') /\
     OneDim.sized (Z.to_nat (4 * sz + 1)) st' /\
     OneDim.SegmentTree.size st' = sz).
Proof.
  intros Hsz Hsize Hs Hl Hq Hr.
  unfold OneDim.SegmentTree.ApplyToRange, OneDim.SegmentTree.QueryRange.
  rewrite Hsize. unfold OneDim.SegmentTree.size in Hsize. split.
  - destruct (od_ApplyOperationR_returns (Z.to_nat (4 * sz + 1)) sz
                ltac:(lia) op (Z.to_nat sz) 0 sz 0 1 D st)
      as (st' & H & Hs' & Hz); try lia; try assumption.
    exists st'. split; [exact H|]. split; [exact Hs'|].
    unfold OneDim.SegmentTree.size. congruence.
  - destruct (od_QueryRangeR_returns (Z.to_nat (4 * sz + 1)) sz
                ltac:(lia) (Z.to_nat sz) 0 sz 0 1 D st)
      as (x & st' & H & Hs' & Hz); try lia; try assumption.
    exists x, st'. split; [exact H|]. split; [exact Hs'|].
    unfold OneDim.SegmentTree.size. congruence.
Qed.

Lemma OneDim_calls_return_witness :
  (exists st',
     OneDim.SegmentTree.ApplyToRange 3 (OneDim.Cube.mk 1 3)
       (OneDim.Operation.mk false 4)
       (OneDim.SegmentTree.mk 3 [18; 5; 13; 0; 0; 6; 7; 0; 0; 0; 0; 0; 0]
          (repeat OneDim.Operation.default 13)) = Ok (tt, st') /\
     OneDim.sized 13 st' /\ OneDim.SegmentTree.size st' = 3) /\
  (exists x st',
     OneDim.SegmentTree.QueryRange 3 (OneDim.Cube.mk 1 3)
       (OneDim.SegmentTree.mk 3 [18; 5; 13; 0; 0; 6; 7; 0; 0; 0; 0; 0; 0]
          (repeat OneDim.Operation.default 13)) = Ok (x, st') /\
     OneDim.sized 13 st' /\ OneDim.SegmentTree.size st' = 3).
Proof.
  apply (OneDim_calls_return 3
           (OneDim.SegmentTree.mk 3 [18; 5; 13; 0; 0; 6; 7; 0; 0; 0; 0; 0; 0]
              (repeat OneDim.Operation.default 13))
           (OneDim.Cube.mk 1 3) (OneDim.Operation.mk false 4)).
  - lia.
  - reflexivity.
  - split; reflexivity.
  - cbn; lia.
  - cbn; lia.
  - cbn; lia.
Defined.


(** * Properties on 32-bit [int] *)

Lemma wrap_fits x : Int32.fits x -> Int32.wrap x = x.
Proof.
  unfold Int32.fits, Int32.INT_MIN, Int32.INT_MAX, Int32.wrap. intros H.
  rewrite Z.mod_small by lia. lia.
Qed.

Lemma prod_upto_mono f g n :
  (forall k, (k < n)%nat -> 0 <= f k <= g k) ->
  0 <= prod_upto f n <= prod_upto g n.
Proof.
  induction n as [|n IH]; intros H; [cbn; lia|].
  rewrite !prod_upto_S. specialize (IH (fun k Hk => H k ltac:(lia))).
  specialize (H n ltac:(lia)). split; [apply Z.mul_nonneg_nonneg; lia|].
  apply Z.mul_le_mono_nonneg; lia.
Qed.

Section Int32Facts.
Variable n : nat.

Lemma Center_int_eq c :
  Int32.Center_fits n c -> Int32.Center n c = Cube.Center n c.
Proof.
  intros H. unfold Int32.Center, Cube.Center. apply map_ext_in.
  intros k Hk. apply in_seq in Hk. rewrite wrap_fits; [reflexivity|].
  apply H. lia.
Qed.

Lemma Subdivide_int_eq c :
  Int32.Center_fits n c -> Int32.Subdivide n c = Cube.Subdivide n c.
Proof.
  intros H. unfold Int32.Subdivide, Cube.Subdivide. cbv zeta.
  rewrite (Center_int_eq c H). reflexivity.
Qed.

Lemma Volume_int_eq c :
  Int32.Volume_fits n c -> Int32.Volume n c = Cube.Volume n c.
Proof.
  intros H. rewrite Volume_prod. unfold Int32.Volume.
  assert (Hgen : forall m, (m <= n)%nat ->
            fold_left
              (fun prod i =>
                 Int32.wrap (prod * Int32.wrap (nth i (Cube.r c) 0
                                                - nth i (Cube.l c) 0)))
              (seq 0 m) 1
            = prod_upto (fun i => nth i (Cube.r c) 0 - nth i (Cube.l c) 0) m).
  { induction m as [|m IH]; intros Hm; [reflexivity|].
    rewrite seq_S, fold_left_app. cbn [fold_left Nat.add].
    rewrite IH by lia. destruct (H m ltac:(lia)) as [He Hp].
    rewrite (wrap_fits _ He). rewrite prod_upto_S in Hp |- *.
    apply wrap_fits, Hp. }
  apply Hgen. lia.
Qed.

(** The volume of an orthant overflows no sooner than the parent's. *)
Lemma orthant_Volume_fits c i :
  (forall k, (k < n)%nat -> nth k (Cube.l c) 0 <= nth k (Cube.r c) 0) ->
  Int32.Volume_fits n c -> 0 <= i < N n ->
  Int32.Volume_fits n (Cube.at_ (Cube.Subdivide n c) i).
Proof.
  intros Hwf Hfit Hi.
  assert (Hext : forall k, (k < n)%nat ->
            0 <= nth k (Cube.r (Cube.at_ (Cube.Subdivide n c) i)) 0
                 - nth k (Cube.l (Cube.at_ (Cube.Subdivide n c) i)) 0
              <= nth k (Cube.r c) 0 - nth k (Cube.l c) 0).
  { intros k Hk. destruct (orthant_axis n c i k Hi Hk) as [-> ->].
    pose proof (midpoint_between _ _ (Hwf k Hk)).
    destruct (Z.testbit i (Z.of_nat k)); lia. }
  intros k Hk. destruct (Hfit k Hk) as [He Hp].
  unfold Int32.fits, Int32.INT_MIN in *. split.
  - specialize (Hext k Hk). lia.
  - pose proof (prod_upto_mono _ _ (S k) (fun j Hj => Hext j ltac:(lia))). lia.
Qed.

Lemma Child_int_eq v i :
  0 <= v -> 0 <= i < N n -> Int32.fits (N n * v + N n) ->
  Int32.Child n v i = Child n v i.
Proof.
  intros Hv Hi H. pose proof (N_pos n) as HN.
  assert (0 <= N n * v) by (apply Z.mul_nonneg_nonneg; lia).
  unfold Int32.Child, Child. unfold Int32.fits, Int32.INT_MIN in *.
  rewrite (wrap_fits (N n * v))
    by (unfold Int32.fits, Int32.INT_MIN; lia).
  rewrite (wrap_fits (N n * v + i))
    by (unfold Int32.fits, Int32.INT_MIN; lia).
  apply wrap_fits. unfold Int32.fits, Int32.INT_MIN. lia.
Qed.

Lemma desc_fits_desc v w : 0 <= v -> desc_fits n v w -> desc n v w.
Proof.
  intros Hv H. induction H as [|w i Hd IH Hi Hfit]; [apply desc_refl|].
  rewrite Child_int_eq; [|exact (Z.le_trans _ _ _ Hv (desc_ge n v w Hv IH))
                          |exact Hi|exact Hfit].
  apply desc_child; assumption.
Qed.

End Int32Facts.

(** C8. For a cube with [l[k] <= r[k]] on every axis whose sums
    [l[k] + r[k]] are [int]s, [Subdivide] returns [2^n] orthants; orthant
    [i] is [[l[k], m[k])] on axis [k] when bit [k] of [i] is 1 and
    [[m[k], r[k])] when it is 0, where [m[k]] is [(l[k] + r[k]) / 2]
    rounded towards zero and lies between the two bounds; every cell of
    the parent lies in exactly one orthant and every cell of an orthant is
    a cell of the parent; and when the volume of the parent is computed
    without overflow, so are the volumes of the orthants, and they add up
    to it. *)
Theorem Subdivide_partitions n c :
  (forall k, (k < n)%nat -> nth k (Cube.l c) 0 <= nth k (Cube.r c) 0) ->
  Int32.Center_fits n c ->
  length (Int32.Subdivide n c) = Z.to_nat (2 ^ Z.of_nat n) /\
  (forall i k, 0 <= i < 2 ^ Z.of_nat n -> (k < n)%nat ->
     let m := Z.quot (nth k (Cube.l c) 0 + nth k (Cube.r c) 0) 2 in
     let q := Cube.at_ (Int32.Subdivide n c) i in
     nth k (Int32.Center n c) 0 = m /\
     nth k (Cube.l c) 0 <= m <= nth k (Cube.r c) 0 /\
     if Z.testbit i (Z.of_nat k)
     then nth k (Cube.l q) 0 = nth k (Cube.l c) 0 /\ nth k (Cube.r q) 0 = m
     else nth k (Cube.l q) 0 = m /\ nth k (Cube.r q) 0 = nth k (Cube.r c) 0) /\
  (forall p, Ref.inside n c p = true ->
     exists i, 0 <= i < 2 ^ Z.of_nat n /\
       Ref.inside n (Cube.at_ (Int32.Subdivide n c) i) p = true /\
       forall j, 0 <= j < 2 ^ Z.of_nat n ->
         Ref.inside n (Cube.at_ (Int32.Subdivide n c) j) p = true -> j = i) /\
  (forall i p, 0 <= i < 2 ^ Z.of_nat n ->
     Ref.inside n (Cube.at_ (Int32.Subdivide n c) i) p = true ->
     Ref.inside n c p = true) /\
  (Int32.Volume_fits n c ->
   (forall i, 0 <= i < 2 ^ Z.of_nat n ->
      Int32.Volume_fits n (Cube.at_ (Int32.Subdivide n c) i)) /\
   Zsum (map (Int32.Volume n) (Int32.Subdivide n c)) = Int32.Volume n c).
Proof.
  intros Hwf Hfit. rewrite (Subdivide_int_eq n c Hfit).
  destruct (Subdivide_splits n c Hwf) as (Hlen & Hax & Hin & Hsub & Hvol).
  split; [exact Hlen|]. split; [|split; [exact Hin|split; [exact Hsub|]]].
  - intros i k Hi Hk. cbv zeta. split; [|exact (Hax i k Hi Hk)].
    rewrite (Center_int_eq n c Hfit). unfold Cube.Center.
    rewrite nth_map_seq by exact Hk. reflexivity.
  - intros Hv.
    assert (Hch : forall i, 0 <= i < 2 ^ Z.of_nat n ->
              Int32.Volume_fits n (Cube.at_ (Cube.Subdivide n c) i)).
    { intros i Hi. apply orthant_Volume_fits; [exact Hwf|exact Hv|].
      rewrite N_eq. exact Hi. }
    split; [exact Hch|].
    rewrite (Volume_int_eq n c Hv), <- Hvol.
    unfold Cube.Subdivide. cbv zeta. rewrite !map_map.
    apply Zsum_map_ext. intros i Hi. apply in_range in Hi.
    rewrite Cube_N_eq in Hi.
    rewrite <- (at_Subdivide n c i Hi). apply Volume_int_eq, Hch.
    rewrite <- N_eq. exact Hi.
Qed.

Lemma Subdivide_partitions_witness :
  Zsum (map (Int32.Volume 2) (Int32.Subdivide 2 (Cube.mk [0; 0] [3; 2])))
  = Int32.Volume 2 (Cube.mk [0; 0] [3; 2]).
Proof.
  refine (proj2 (proj2 (proj2 (proj2 (proj2
    (Subdivide_partitions 2 (Cube.mk [0; 0] [3; 2]) _ _)))) _)).
  - intros k Hk. destruct k as [|[|k]]; cbn; lia.
  - intros k Hk. destruct k as [|[|k]]; [| |lia];
      unfold Int32.fits, Int32.INT_MIN, Int32.INT_MAX; cbn; lia.
  - intros k Hk. destruct k as [|[|k]]; [| |lia];
      unfold Int32.fits, Int32.INT_MIN, Int32.INT_MAX; cbn; lia.
Defined.

(** The midpoint of [[2147483646, 2147483647)]: the sum of the bounds is
    not an [int], the midpoint comes out as -1, and orthant 0,
    [[-1, 2147483647)], holds the cell 0, which is no cell of the
    parent.  (And where the sum is negative and odd the midpoint is
    rounded towards zero: for [[-3, 0)] it is -1, where the floor of
    -3/2 is -2.) *)
Lemma Subdivide_overflow_leaves_parent :
  2147483646 <= 2147483647 /\
  Int32.Center 1 (Cube.mk [2147483646] [2147483647]) = [-1] /\
  Ref.inside 1
    (Cube.at_ (Int32.Subdivide 1 (Cube.mk [2147483646] [2147483647])) 0) [0]
  = true /\
  Ref.inside 1 (Cube.mk [2147483646] [2147483647]) [0] = false /\
  Int32.Center 1 (Cube.mk [-3] [0]) = [-1] /\
  (-3 + 0) / 2 = -2.
Proof. split; [lia|]. repeat split; reflexivity. Qed.


(** X5. When the volume of [IntersectWith(a, b)] is computed without
    overflow it is not negative, and [IsEmpty] of the intersection holds
    exactly when no cell lies in both boxes: the recursion skips an
    orthant exactly when the query has no cell in it. *)
Theorem IntersectWith_IsEmpty n a b :
  Int32.Volume_fits n (Cube.IntersectWith n a b) ->
  0 <= Int32.Volume n (Cube.IntersectWith n a b) /\
  (Int32.IsEmpty n (Cube.IntersectWith n a b) = true <->
   forall p, ~ (Ref.inside n a p = true /\ Ref.inside n b p = true)).
Proof.
  intros Hfit. unfold Int32.IsEmpty. rewrite (Volume_int_eq n _ Hfit).
  exact (IntersectWith_empty_iff n a b).
Qed.

Lemma IntersectWith_IsEmpty_witness :
  0 <= Int32.Volume 2
         (Cube.IntersectWith 2 (Cube.mk [0; 0] [4; 4]) (Cube.mk [2; 1] [6; 3])) /\
  (Int32.IsEmpty 2
     (Cube.IntersectWith 2 (Cube.mk [0; 0] [4; 4]) (Cube.mk [2; 1] [6; 3]))
   = true <->
   forall p, ~ (Ref.inside 2 (Cube.mk [0; 0] [4; 4]) p = true /\
                Ref.inside 2 (Cube.mk [2; 1] [6; 3]) p = true)).
Proof.
  apply (IntersectWith_IsEmpty 2 (Cube.mk [0; 0] [4; 4]) (Cube.mk [2; 1] [6; 3])).
  intros k Hk. destruct k as [|[|k]]; [| |lia];
    repeat split; vm_compute; discriminate.
Defined.

(** X7. For a cube with [l[k] <= r[k]] on every axis whose volume is
    computed without overflow, the volume is not negative, [IsPoint] holds
    exactly when every axis has extent one, and [IsEmpty] holds exactly
    when some axis has extent zero. *)
Theorem IsPoint_IsEmpty_characterised n d :
  (forall k, (k < n)%nat -> nth k (Cube.l d) 0 <= nth k (Cube.r d) 0) ->
  Int32.Volume_fits n d ->
  0 <= Int32.Volume n d /\
  (Int32.IsPoint n d = true <->
   forall k, (k < n)%nat -> nth k (Cube.r d) 0 = nth k (Cube.l d) 0 + 1) /\
  (Int32.IsEmpty n d = true <->
   exists k, (k < n)%nat /\ nth k (Cube.r d) 0 = nth k (Cube.l d) 0).
Proof.
  intros Hwf Hfit. unfold Int32.IsPoint, Int32.IsEmpty.
  rewrite (Volume_int_eq n d Hfit). exact (Volume_point_empty n d Hwf).
Qed.

Lemma IsPoint_IsEmpty_characterised_witness :
  0 <= Int32.Volume 2 (Cube.mk [0; 4] [1; 5]) /\
  (Int32.IsPoint 2 (Cube.mk [0; 4] [1; 5]) = true <->
   forall k, (k < 2)%nat ->
     nth k (Cube.r (Cube.mk [0; 4] [1; 5])) 0
     = nth k (Cube.l (Cube.mk [0; 4] [1; 5])) 0 + 1) /\
  (Int32.IsEmpty 2 (Cube.mk [0; 4] [1; 5]) = true <->
   exists k, (k < 2)%nat /\
     nth k (Cube.r (Cube.mk [0; 4] [1; 5])) 0
     = nth k (Cube.l (Cube.mk [0; 4] [1; 5])) 0).
Proof.
  apply (IsPoint_IsEmpty_characterised 2 (Cube.mk [0; 4] [1; 5])).
  - intros k Hk. destruct k as [|[|k]]; cbn; lia.
  - intros k Hk. destruct k as [|[|k]]; [| |lia];
      unfold Int32.fits, Int32.INT_MIN, Int32.INT_MAX; cbn; lia.
Defined.

(** X20. Where [Child] does not overflow, the implicit layout never makes
    two nodes share a slot. For nodes [v, w >= 0] with [N * v + N] and
    [N * w + N] no larger than [INT_MAX], and child numbers [i, j] below
    [N]: a child sits at a larger index than its parent (so never at the
    root), [Child] sends different (node, child number) pairs to
    different slots, and the subtrees of two different children of a
    node, as far as they are reached without overflow, have no slot in
    common. *)
Theorem Child_never_aliases n v w i j :
  0 <= v -> 0 <= w -> 0 <= i < N n -> 0 <= j < N n ->
  Int32.fits (N n * v + N n) -> Int32.fits (N n * w + N n) ->
  v < Int32.Child n v i /\
  (Int32.Child n v i = Int32.Child n w j -> v = w /\ i = j) /\
  (i <> j ->
   forall u, desc_fits n (Int32.Child n v i) u ->
             ~ desc_fits n (Int32.Child n v j) u).
Proof.
  intros Hv Hw Hi Hj Hfv Hfw.
  rewrite (Child_int_eq n v i Hv Hi Hfv), (Child_int_eq n v j Hv Hj Hfv),
    (Child_int_eq n w j Hw Hj Hfw).
  pose proof (Child_gt n v i Hv ltac:(lia)) as Hgi.
  pose proof (Child_gt n v j Hv ltac:(lia)) as Hgj.
  split; [exact Hgi|]. split.
  - apply Child_inj; assumption.
  - intros Hij u Hui Huj.
    apply desc_fits_desc in Hui; [|lia]. apply desc_fits_desc in Huj; [|lia].
    exact (siblings_disjoint n v i j u Hv Hi Hj Hij Hui Huj).
Qed.

Lemma Child_never_aliases_witness :
  3 < Int32.Child 2 3 1 /\
  (Int32.Child 2 3 1 = Int32.Child 2 3 2 -> 3 = 3 /\ 1 = 2) /\
  (1 <> 2 ->
   forall u, desc_fits 2 (Int32.Child 2 3 1) u ->
             ~ desc_fits 2 (Int32.Child 2 3 2) u).
Proof.
  apply (Child_never_aliases 2 3 3 1 2); try lia;
    try (change (N 2) with 4; lia);
    unfold Int32.fits, Int32.INT_MIN, Int32.INT_MAX; change (N 2) with 4; lia.
Defined.


